(** * use-sx: the sx compiler of [src/sx.ts], embedded and verified

    The development follows the TypeScript source function by function:
    [createDefaultSelector], [defaultSelectors], [mergeSx], [compileSx],
    [mutableCompileSxProperty] and the hook body of [createUseSx].

    Modelling conventions.
    - A JavaScript object is the list of its own enumerable string-keyed
      properties as they were written (insertion order); [Obj.keys] computes
      the order in which [Object.keys] lists them.  Names that an object
      inherits from its prototype chain are not part of the model.
    - A JavaScript number is carried as an integer: the code only copies
      numbers and tests them for truthiness.
    - The module is strict-mode code, so creating a property on a primitive
      raises [TypeError]; this is the only failure the compiler itself can
      raise.  Caller-supplied functions are total Rocq functions.
    - Every call of a caller-supplied function is recorded in an event log,
      so that statements about which functions run, and with which
      arguments, can be made.
    - Mutation and object identity are the subject of a second embedding,
      [Store], in which objects are cells of a store and the compiler
      assigns to them as the source does; [Refinement.sim_createUseSx]
      shows that its runs end as the runs of the first embedding do. *)

From Stdlib Require Import String Ascii List ZArith NArith Bool Lia Sorted.
Import ListNotations.
Local Open Scope list_scope.
Local Open Scope string_scope.

Set Warnings "-register-all".

(** ** JavaScript objects *)

Module Obj.

Section Objects.
Variable V : Type.

Definition t := list (string * V).

(** [o[k]] on own properties. *)
Fixpoint get (k : string) (o : t) : option V :=
  match o with
  | [] => None
  | (k', v) :: r => if String.eqb k k' then Some v else get k r
  end.

Definition has (k : string) (o : t) : bool :=
  match get k o with Some _ => true | None => false end.

(** [o[k] = v]: an existing property keeps its place, a new one comes
    last. *)
Fixpoint set (k : string) (v : V) (o : t) : t :=
  match o with
  | [] => [(k, v)]
  | (k', v') :: r =>
      if String.eqb k k' then (k', v) :: r else (k', v') :: set k v r
  end.

(** [delete o[k]]. *)
Fixpoint delete (k : string) (o : t) : t :=
  match o with
  | [] => []
  | (k', v') :: r =>
      if String.eqb k k' then delete k r else (k', v') :: delete k r
  end.

End Objects.

Arguments get {V} k o.
Arguments has {V} k o.
Arguments set {V} k v o.
Arguments delete {V} k o.

(** *** Property enumeration order

    [Object.keys] lists array-index keys first, in ascending numeric order,
    then every other string key in insertion order. *)

Definition digit (c : ascii) : option N :=
  let n := N_of_ascii c in
  if ((48 <=? n) && (n <=? 57))%N then Some (n - 48)%N else None.

Fixpoint digits (s : string) (acc : N) : option N :=
  match s with
  | EmptyString => Some acc
  | String c r =>
      match digit c with
      | Some d => digits r (10 * acc + d)%N
      | None => None
      end
  end.

(** A canonical numeric string below 2^32 - 1. *)
Definition array_index (s : string) : option N :=
  match s with
  | EmptyString => None
  | String c r =>
      if Ascii.eqb c "0"%char then
        match r with EmptyString => Some 0%N | _ => None end
      else
        match digits s 0 with
        | Some n => if (n <? 4294967295)%N then Some n else None
        | None => None
        end
  end.

Definition is_index (s : string) : bool :=
  match array_index s with Some _ => true | None => false end.

Definition index_of (s : string) : N :=
  match array_index s with Some n => n | None => 0%N end.

Fixpoint mem (k : string) (l : list string) : bool :=
  match l with
  | [] => false
  | k' :: r => String.eqb k k' || mem k r
  end.

(** Keep the first occurrence of every key. *)
Fixpoint dedup_from (seen : list string) (l : list string) : list string :=
  match l with
  | [] => []
  | k :: r => if mem k seen then dedup_from seen r
              else k :: dedup_from (k :: seen) r
  end.

Definition dedup (l : list string) : list string := dedup_from [] l.

Fixpoint insert_index (k : string) (l : list string) : list string :=
  match l with
  | [] => [k]
  | k' :: r =>
      if (index_of k <=? index_of k')%N then k :: l
      else k' :: insert_index k r
  end.

Fixpoint sort_index (l : list string) : list string :=
  match l with
  | [] => []
  | k :: r => insert_index k (sort_index r)
  end.

Definition order_keys (ks : list string) : list string :=
  (sort_index (filter is_index ks)
     ++ filter (fun k => negb (is_index k)) ks)%list.

(** The keys that remain when [name] is deleted. *)
Definition other_than (name : string) (k : string) : bool :=
  negb (name =? k).

(** The order of array indices. *)
Definition index_le (a b : string) : Prop := (index_of a <= index_of b)%N.

(** [Object.keys(o)]. *)
Definition keys {V} (o : t V) : list string :=
  order_keys (dedup (map fst o)).

(** [Object.assign(target, source)]. *)
Definition assign {V} (target source : t V) : t V :=
  fold_left
    (fun acc k =>
       match get k source with
       | Some v => set k v acc
       | None => acc
       end)
    (keys source) target.

End Obj.

(** ** Data model *)

(** String and number literals, the CSS values. *)
Inductive literal :=
| LNum (n : Z)
| LStr (s : string).

(** A theme is a plain object of plain data; the compiler only copies it and
    hands it to caller-supplied functions. *)
Inductive tval :=
| TNull
| TBool (b : bool)
| TNum (n : Z)
| TStr (s : string)
| TArr (l : list tval)
| TObj (o : list (string * tval)).

Definition Theme := Obj.t tval.

(** [SxProperty]: a value, a function of the theme, or an object mapping
    selectors to properties.  The other constructors are the shapes that
    untyped callers can pass and that the compiler ignores. *)
Inductive value :=
| VUndefined
| VNull
| VBool (b : bool)
| VNum (n : Z)
| VStr (s : string)
| VFun (f : Theme -> literal)
| VArr (l : list value)
| VObj (o : list (string * value)).

Definition SxObject := Obj.t value.

(** [interface Control]. *)
Record Control := {
  select : string -> string;
  active : option bool;
  checked : option bool;
  disabled : option bool;
  focus : option bool;
  hover : option bool
}.

(** The keys of [Control] that [createDefaultSelector] is applied to. *)
Inductive ControlKey := Active | Checked | Disabled | Focus | Hover.

Definition key_name (type : ControlKey) : string :=
  match type with
  | Active => "active"
  | Checked => "checked"
  | Disabled => "disabled"
  | Focus => "focus"
  | Hover => "hover"
  end.

(** [control[type]] *)
Definition control_get (c : Control) (type : ControlKey) : option bool :=
  match type with
  | Active => active c
  | Checked => checked c
  | Disabled => disabled c
  | Focus => focus c
  | Hover => hover c
  end.

(** [SxSelector]: returns [null] or a selector string. *)
Definition SxSelector := Theme -> option Control -> option string.
Definition SxSelectors := Obj.t SxSelector.

(** [SxMap] *)
Definition SxMap := value -> Theme -> SxObject.
Definition SxMaps := Obj.t SxMap.

(** [CSSObject], and the primitives that can sit where a sub-level is
    expected. *)
Inductive css :=
| CNum (n : Z)
| CStr (s : string)
| CObj (o : list (string * css)).

Definition css_of_literal (l : literal) : css :=
  match l with
  | LNum n => CNum n
  | LStr s => CStr s
  end.

(** JavaScript truthiness of a stored output value. *)
Definition truthy (c : css) : bool :=
  match c with
  | CNum n => negb (n =? 0)%Z
  | CStr s => negb (s =? "")
  | CObj _ => true
  end.

(** *** [CastableToTruthyArrayOf<SxObject>] *)

Inductive sx_leaf :=
| SxFalsy
| SxObj (o : SxObject).

Inductive sx_item :=
| SxLeaf (x : sx_leaf)
| SxNested (l : list sx_leaf).

Inductive ThemeableSx :=
| SxOne (x : sx_leaf)
| SxArray (l : list sx_item).

(** Modelled from the spec: [ensureTruthyArray] of [src/ensureTruthyArray.ts],
    which is not among the sources.  A single specification or a sequence,
    nested at most one level, with falsy entries; the result is the flat
    sequence of the specifications, in order, without the falsy entries. *)
Definition truthy_leaves (l : list sx_leaf) : list SxObject :=
  flat_map (fun x => match x with SxFalsy => [] | SxObj o => [o] end) l.

Definition ensureTruthyArray (sx : ThemeableSx) : list SxObject :=
  match sx with
  | SxOne x => truthy_leaves [x]
  | SxArray l =>
      flat_map
        (fun i => match i with
                  | SxLeaf x => truthy_leaves [x]
                  | SxNested l' => truthy_leaves l'
                  end) l
  end.

(** An array of specifications, as a [ThemeableSx]. *)
Definition sx_of_array (l : list SxObject) : ThemeableSx :=
  SxArray (map (fun o => SxLeaf (SxObj o)) l).

(** Modelled from the spec: [isPlainObject] of [src/isPlainObject.ts], which
    is not among the sources.  True of a nested mapping, false of [null],
    [undefined], arrays and every other shape. *)
Definition isPlainObject (x : value) : bool :=
  match x with
  | VObj _ => true
  | _ => false
  end.

(** ** Effects: the call log and [TypeError] *)

Inductive event :=
| CallValue (f : Theme -> literal) (theme : Theme)
| CallSelector (name : string) (theme : Theme) (control : option Control)
| CallMap (key : string) (mapValue : value) (theme : Theme).

Inductive result (A : Type) :=
| Ok (a : A)
| TypeError.
Arguments Ok {A} a.
Arguments TypeError {A}.

(** A computation yields the calls it made and a result. *)
Definition M (A : Type) : Type := list event * result A.

Definition ret {A} (a : A) : M A := ([], Ok a).

Definition bind {A B} (m : M A) (f : A -> M B) : M B :=
  match m with
  | (l, Ok a) => let (l', r) := f a in ((l ++ l')%list, r)
  | (l, TypeError) => (l, TypeError)
  end.

Definition tell (e : event) : M unit := ([e], Ok tt).

Definition throw {A} : M A := ([], TypeError).

Declare Scope sx_scope.
Delimit Scope sx_scope with sx.
Notation "x <- c1 ;; c2" := (bind c1 (fun x => c2))
  (at level 61, c1 at next level, right associativity) : sx_scope.
Notation "c1 ;; c2" := (bind c1 (fun _ => c2))
  (at level 61, right associativity) : sx_scope.
Local Open Scope sx_scope.

Definition calls {A} (m : M A) : list event := fst m.
Definition outcome {A} (m : M A) : result A := snd m.

(** [for (const k of ks) { ... }] over an accumulated state. *)
Fixpoint for_each {S} (ks : list string) (body : string -> S -> M S) (s : S)
  : M S :=
  match ks with
  | [] => ret s
  | k :: r => s' <- body k s ;; for_each r body s'
  end.

(** [output[k]]; a primitive has no own property of that name. *)
Definition read (output : css) (k : string) : option css :=
  match output with
  | CObj o => Obj.get k o
  | _ => None
  end.

(** [output[k] = v] in strict mode. *)
Definition write (output : css) (k : string) (v : css) : M css :=
  match output with
  | CObj o => ret (CObj (Obj.set k v o))
  | _ => throw
  end.

(** What [output] shows after the object that [output[k]] refers to has
    been mutated into [sub]. *)
Definition store (output : css) (k : string) (sub : css) : css :=
  match output with
  | CObj o => CObj (Obj.set k sub o)
  | _ => output
  end.

(** ** The selectors *)

Definition createDefaultSelector (type : ControlKey) : SxSelector :=
  fun theme control =>
    match control with
    | None => Some ("&:" ++ key_name type)
    | Some c =>
        match control_get c type with
        | Some flag => if flag then Some "&" else None
        | None => Some (select c (":" ++ key_name type) ++ " &")
        end
    end.

Definition defaultSelectors : SxSelectors :=
  [ ("active", createDefaultSelector Active);
    ("checked", createDefaultSelector Checked);
    ("disabled", createDefaultSelector Disabled);
    ("focus", createDefaultSelector Focus);
    ("focusWithin", createDefaultSelector Focus);
    ("hover", createDefaultSelector Hover) ].

(** ** [mergeSx] *)

Definition mergeSx (sx : ThemeableSx) : SxObject :=
  fold_left (fun acc x => Obj.assign acc x) (ensureTruthyArray sx) [].

(** ** [mutableCompileSxProperty] *)

(** [selectors[selectorName] ? selectors[selectorName](theme, control)
     : selectorName] *)
Definition resolve (theme : Theme) (selectors : SxSelectors)
    (control : option Control) (selectorName : string) : M (option string) :=
  match Obj.get selectorName selectors with
  | Some r =>
      tell (CallSelector selectorName theme control) ;;
      ret (r theme control)
  | None => ret (Some selectorName)
  end.

(** The body of the loop over [selectorNames]; [recur subOutput] is the
    recursive call on [x[selectorName]]. *)
Definition compile_branch (recur : css -> M css) (theme : Theme)
    (selectors : SxSelectors) (control : option Control)
    (selectorName : string) (output : css) : M css :=
  if selectorName =? "default" then recur output
  else
    selector <- resolve theme selectors control selectorName ;;
    match selector with
    | None => ret output
    | Some s =>
        if s =? "" then ret output
        else
          match read output s with
          | Some c =>
              if truthy c then
                sub <- recur c ;; ret (store output s sub)
              else
                output' <- write output s (CObj []) ;;
                sub <- recur (CObj []) ;; ret (store output' s sub)
          | None =>
              output' <- write output s (CObj []) ;;
              sub <- recur (CObj []) ;; ret (store output' s sub)
          end
    end.

Fixpoint mutableCompileSxProperty (theme : Theme) (selectors : SxSelectors)
    (control : option Control) (output : css) (propName : string)
    (x : value) {struct x} : M css :=
  match x with
  | VFun f =>
      tell (CallValue f theme) ;;
      write output propName (css_of_literal (f theme))
  | VNum n => write output propName (CNum n)
  | VStr s => write output propName (CStr s)
  | VObj o =>
      let branches :=
        (fix branches_of (l : list (string * value))
           : Obj.t (css -> M css) :=
           match l with
           | [] => []
           | (k, v) :: r =>
               (k, fun subOutput =>
                     mutableCompileSxProperty theme selectors control
                       subOutput propName v)
                 :: branches_of r
           end) o in
      for_each (Obj.keys o)
        (fun selectorName out =>
           match Obj.get selectorName branches with
           | Some recur =>
               compile_branch recur theme selectors control selectorName out
           | None => ret out
           end)
        output
  | _ => ret output
  end.

(** The loop of [mutableCompileSxProperty] over a selector map. *)
Definition branch_of (theme : Theme) (selectors : SxSelectors)
    (control : option Control) (propName : string) (o : Obj.t value)
    (selectorName : string) (output : css) : M css :=
  match Obj.get selectorName o with
  | Some v =>
      compile_branch
        (fun subOutput =>
           mutableCompileSxProperty theme selectors control subOutput
             propName v)
        theme selectors control selectorName output
  | None => ret output
  end.

(** ** [compileSx] *)

Module Options.
(** [CompileSxOptions] *)
Record t := {
  control : option Control;
  maps : option SxMaps;
  selectors : option SxSelectors;
  theme : option Theme;
  sx : ThemeableSx
}.
End Options.

(** [{ ...a, ...b }] *)
Definition spread2 {V} (a b : Obj.t V) : Obj.t V :=
  Obj.assign (Obj.assign [] a) b.

Definition or_empty {V} (o : option (Obj.t V)) : Obj.t V :=
  match o with
  | Some x => x
  | None => []
  end.

Definition or_undefined (v : option value) : value :=
  match v with
  | Some x => x
  | None => VUndefined
  end.

(** The body of the loop over [mapKeys]. *)
Definition expand_map (maps : SxMaps) (mergedTheme : Theme) (key : string)
    (styleObject : SxObject) : M SxObject :=
  match Obj.get key maps with
  | Some map =>
      let mapValue := or_undefined (Obj.get key styleObject) in
      let styleObject' := Obj.delete key styleObject in
      tell (CallMap key mapValue mergedTheme) ;;
      ret (Obj.assign styleObject' (map mapValue mergedTheme))
  | None => ret styleObject
  end.

Definition expand_maps (maps : option SxMaps) (mergedTheme : Theme)
    (styleObject : SxObject) : M SxObject :=
  match maps with
  | Some maps =>
      for_each (Obj.keys maps) (expand_map maps mergedTheme) styleObject
  | None => ret styleObject
  end.

Definition themedCSS (options : Options.t) (theme : Theme) : M css :=
  let styleObject := mergeSx (Options.sx options) in
  let mergedTheme := spread2 theme (or_empty (Options.theme options)) in
  styleObject <- expand_maps (Options.maps options) mergedTheme styleObject ;;
  let props := Obj.keys styleObject in
  for_each props
    (fun propName output =>
       mutableCompileSxProperty mergedTheme
         (or_empty (Options.selectors options)) (Options.control options)
         output propName (or_undefined (Obj.get propName styleObject)))
    (CObj []).

Definition compileSx (options : Options.t) : M css :=
  themedCSS options (or_empty (Options.theme options)).

(** ** [createUseSx] *)

(** What the two [useContext] calls of the hook return. *)
Record Context := {
  ControlContext : option Control;
  ThemeContext : option Theme
}.

(** [a || b] on optional objects. *)
Definition or_else {A} (a b : option A) : option A :=
  match a with
  | Some _ => a
  | None => b
  end.

Definition createUseSx (selectors : option SxSelectors) (context : Context)
    (props : Options.t) : M css :=
  let selectors :=
    match selectors with Some s => s | None => defaultSelectors end in
  compileSx
    {| Options.control :=
         or_else (Options.control props) (ControlContext context);
       Options.selectors :=
         Some (match Options.selectors props with
               | Some s => s
               | None => selectors
               end);
       Options.maps := Options.maps props;
       Options.sx := sx_of_array (ensureTruthyArray (Options.sx props));
       Options.theme :=
         or_else (Options.theme props) (ThemeContext context) |}.

Definition useSx : Context -> Options.t -> M css :=
  createUseSx (Some defaultSelectors).

Definition no_context : Context :=
  {| ControlContext := None; ThemeContext := None |}.


(** * The compiler over a store of objects

    [mergeSx] and [compileSx] build their result by assignment:
    [Object.assign] into an accumulator, [delete] and [Object.assign] on the
    merged specification, property writes into [output] and into the
    sub-levels reached through it.  The merged specification shares the nested
    selector maps of the caller's specifications.  To state what these
    assignments can reach, the same functions are modelled here over a store:
    objects live in cells, values refer to them by location, assignment
    replaces a cell.  Recursion follows references, so it is bounded by
    fuel. *)

Module Store.

Definition loc := nat.

Inductive hval :=
| HUndefined
| HNull
| HBool (b : bool)
| HNum (n : Z)
| HStr (s : string)
| HFun (f : Theme -> literal)
| HRef (l : loc).

Inductive cell :=
| Object (o : Obj.t hval)
| Array (items : list hval)
| ThemeObject (t : Theme)
| ControlObject (c : Control).

Definition heap := list cell.

(** How a run ends: [OutOfFuel] stands for a recursion deeper than the fuel,
    [Untyped] for an input that the TypeScript types exclude and the model
    does not interpret. *)
Inductive outcome (A : Type) :=
| Done (a : A)
| TypeError
| OutOfFuel
| Untyped.
Arguments Done {A} a.
Arguments TypeError {A}.
Arguments OutOfFuel {A}.
Arguments Untyped {A}.

Definition HM (A : Type) : Type := heap -> heap * outcome A.

Definition ret {A} (a : A) : HM A := fun h => (h, Done a).

Definition bind {A B} (m : HM A) (f : A -> HM B) : HM B :=
  fun h =>
    match m h with
    | (h', Done a) => f a h'
    | (h', TypeError) => (h', TypeError)
    | (h', OutOfFuel) => (h', OutOfFuel)
    | (h', Untyped) => (h', Untyped)
    end.

Definition throw {A} : HM A := fun h => (h, TypeError).
Definition out_of_fuel {A} : HM A := fun h => (h, OutOfFuel).
Definition untyped {A} : HM A := fun h => (h, Untyped).

Declare Scope store_scope.
Delimit Scope store_scope with store.
Notation "x <- c1 ;; c2" := (bind c1 (fun x => c2))
  (at level 61, c1 at next level, right associativity) : store_scope.
Notation "c1 ;; c2" := (bind c1 (fun _ => c2))
  (at level 61, right associativity) : store_scope.
Local Open Scope store_scope.

(** *** Cells *)

(** A new object. *)
Definition alloc (c : cell) : HM hval :=
  fun h => ((h ++ [c])%list, Done (HRef (length h))).

Definition load (l : loc) : HM cell :=
  fun h =>
    match nth_error h l with
    | Some c => (h, Done c)
    | None => (h, Untyped)
    end.

Fixpoint replace (l : loc) (c : cell) (h : heap) : heap :=
  match h, l with
  | [], _ => []
  | _ :: r, 0 => c :: r
  | c' :: r, S l' => c' :: replace l' c r
  end.

Definition update (l : loc) (c : cell) : HM unit :=
  fun h => (replace l c h, Done tt).

(** *** Values *)

Definition truthy (v : hval) : bool :=
  match v with
  | HUndefined | HNull => false
  | HBool b => b
  | HNum n => negb (n =? 0)%Z
  | HStr s => negb (s =? "")
  | HFun _ | HRef _ => true
  end.

Definition of_literal (l : literal) : hval :=
  match l with
  | LNum n => HNum n
  | LStr s => HStr s
  end.

Definition or_undefined (v : option hval) : hval :=
  match v with
  | Some x => x
  | None => HUndefined
  end.

(** [v[k]]: an own property of an object; a primitive has none. *)
Definition get_prop (v : hval) (k : string) : HM hval :=
  match v with
  | HRef l =>
      c <- load l ;;
      match c with
      | Object o => ret (or_undefined (Obj.get k o))
      | _ => untyped
      end
  | HFun _ => untyped
  | _ => ret HUndefined
  end.

(** [v[k] = x] in strict mode. *)
Definition set_prop (v : hval) (k : string) (x : hval) : HM unit :=
  match v with
  | HRef l =>
      c <- load l ;;
      match c with
      | Object o => update l (Object (Obj.set k x o))
      | _ => untyped
      end
  | HFun _ => untyped
  | _ => throw
  end.

(** [delete v[k]] on an object. *)
Definition delete_prop (v : hval) (k : string) : HM unit :=
  match v with
  | HRef l =>
      c <- load l ;;
      match c with
      | Object o => update l (Object (Obj.delete k o))
      | _ => untyped
      end
  | _ => untyped
  end.

(** [Object.keys(v)] of an object. *)
Definition keys_of (v : hval) : HM (list string) :=
  match v with
  | HRef l =>
      c <- load l ;;
      match c with
      | Object o => ret (Obj.keys o)
      | _ => untyped
      end
  | _ => untyped
  end.

Fixpoint for_each {K} (ks : list K) (body : K -> HM unit) : HM unit :=
  match ks with
  | [] => ret tt
  | k :: r => body k ;; for_each r body
  end.

(** [Object.assign(target, source)] for an object [source]. *)
Definition assign (target source : hval) : HM unit :=
  ks <- keys_of source ;;
  for_each ks
    (fun k => x <- get_prop source k ;; set_prop target k x).

(** The theme that a caller-supplied function is given. *)
Definition load_theme (v : hval) : HM Theme :=
  match v with
  | HRef l =>
      c <- load l ;;
      match c with
      | ThemeObject t => ret t
      | _ => untyped
      end
  | _ => untyped
  end.

(** The optional [Control] that a resolver is given. *)
Definition load_control (v : hval) : HM (option Control) :=
  match v with
  | HRef l =>
      c <- load l ;;
      match c with
      | ControlObject c => ret (Some c)
      | _ => untyped
      end
  | HUndefined => ret None
  | _ => untyped
  end.

(** *** [ensureTruthyArray] and [mergeSx] *)

(** Modelled from the spec: [ensureTruthyArray] of
    [src/ensureTruthyArray.ts], which is not among the sources.  The result
    is a new array. *)
Definition flatten_item (v : hval) : HM (list hval) :=
  match v with
  | HRef l =>
      c <- load l ;;
      match c with
      | Array items => ret items
      | _ => ret [v]
      end
  | _ => ret [v]
  end.

Fixpoint flatten (items : list hval) : HM (list hval) :=
  match items with
  | [] => ret []
  | v :: r =>
      a <- flatten_item v ;;
      b <- flatten r ;;
      ret (a ++ b)%list
  end.

Definition ensureTruthyArray (sx : hval) : HM hval :=
  items <- flatten_item sx ;;
  flat <- flatten items ;;
  alloc (Array (filter truthy flat)).

Definition mergeSx (sx : hval) : HM hval :=
  arr <- ensureTruthyArray sx ;;
  items <- flatten_item arr ;;
  acc <- alloc (Object []) ;;
  for_each items (fun x => assign acc x) ;;
  ret acc.

(** *** [mutableCompileSxProperty] *)

Definition resolve (theme : hval) (selectors : SxSelectors) (control : hval)
    (selectorName : string) : HM (option string) :=
  match Obj.get selectorName selectors with
  | Some r =>
      t <- load_theme theme ;;
      c <- load_control control ;;
      ret (r t c)
  | None => ret (Some selectorName)
  end.

(** The body of the loop over [selectorNames]; [recur subOutput v] is the
    recursive call. *)
Definition compile_branch (recur : hval -> hval -> HM unit) (theme : hval)
    (selectors : SxSelectors) (control : hval) (output : hval) (x : hval)
    (selectorName : string) : HM unit :=
  if selectorName =? "default" then
    v <- get_prop x selectorName ;;
    recur output v
  else
    selector <- resolve theme selectors control selectorName ;;
    match selector with
    | None => ret tt
    | Some s =>
        if s =? "" then ret tt
        else
          cur <- get_prop output s ;;
          (if truthy cur then ret tt
           else
             fresh <- alloc (Object []) ;;
             set_prop output s fresh) ;;
          subOutput <- get_prop output s ;;
          v <- get_prop x selectorName ;;
          recur subOutput v
    end.

Fixpoint mutableCompileSxProperty (fuel : nat) (theme : hval)
    (selectors : SxSelectors) (control : hval) (output : hval)
    (propName : string) (x : hval) {struct fuel} : HM unit :=
  match fuel with
  | 0 => out_of_fuel
  | S fuel' =>
      match x with
      | HFun f =>
          t <- load_theme theme ;;
          set_prop output propName (of_literal (f t))
      | HNum _ | HStr _ => set_prop output propName x
      | HRef l =>
          c <- load l ;;
          match c with
          | Object o =>
              for_each (Obj.keys o)
                (compile_branch
                   (fun subOutput v =>
                      mutableCompileSxProperty fuel' theme selectors control
                        subOutput propName v)
                   theme selectors control output x)
          | _ => ret tt
          end
      | _ => ret tt
      end
  end.

(** *** [compileSx] *)

(** A map function may build new objects; it returns the object whose
    properties replace the mapped one. *)
Definition SxMap := hval -> Theme -> HM hval.
Definition SxMaps := Obj.t SxMap.

Record Options := {
  control : hval;
  maps : option SxMaps;
  selectors : option SxSelectors;
  theme : hval;
  sx : hval
}.

(** The properties that [...v] spreads. *)
Definition spread_of (v : hval) : HM Theme :=
  if truthy v then load_theme v else ret [].

(** The body of the loop over [mapKeys]. *)
Definition expand_map (maps : SxMaps) (mergedTheme : hval)
    (styleObject : hval) (key : string) : HM unit :=
  match Obj.get key maps with
  | Some map =>
      mapValue <- get_prop styleObject key ;;
      delete_prop styleObject key ;;
      t <- load_theme mergedTheme ;;
      mapped <- map mapValue t ;;
      assign styleObject mapped
  | None => ret tt
  end.

Definition themedCSS (fuel : nat) (options : Options) (theme : hval)
  : HM hval :=
  styleObject <- mergeSx (sx options) ;;
  t <- spread_of theme ;;
  t' <- spread_of (Store.theme options) ;;
  mergedTheme <- alloc (ThemeObject (spread2 t t')) ;;
  match maps options with
  | Some maps =>
      for_each (Obj.keys maps) (expand_map maps mergedTheme styleObject)
  | None => ret tt
  end ;;
  props <- keys_of styleObject ;;
  output <- alloc (Object []) ;;
  for_each props
    (fun propName =>
       x <- get_prop styleObject propName ;;
       mutableCompileSxProperty fuel mergedTheme
         (or_empty (selectors options)) (control options) output propName x)
  ;;
  ret output.

Definition compileSx (fuel : nat) (options : Options) : HM hval :=
  theme <- (if truthy (theme options) then ret (theme options)
            else alloc (ThemeObject [])) ;;
  themedCSS fuel options theme.

(** *** [createUseSx] *)

Record Context := {
  ControlContext : hval;
  ThemeContext : hval
}.

Definition or_else (a b : hval) : hval := if truthy a then a else b.

Definition createUseSx (registry : option SxSelectors) (fuel : nat)
    (context : Context) (props : Options) : HM hval :=
  let registry :=
    match registry with Some s => s | None => defaultSelectors end in
  sx' <- ensureTruthyArray (sx props) ;;
  compileSx fuel
    {| control := or_else (control props) (ControlContext context);
       selectors := Some (match selectors props with
                          | Some s => s
                          | None => registry
                          end);
       maps := maps props;
       sx := sx';
       theme := or_else (theme props) (ThemeContext context) |}.

Definition useSx : nat -> Context -> Options -> HM hval :=
  createUseSx (Some defaultSelectors).

(** *** Reading a result back *)

(** The properties of an object, each read by [rb]. *)
Fixpoint read_fields (rb : hval -> option css) (o : Obj.t hval)
  : option (Obj.t css) :=
  match o with
  | [] => Some []
  | (k, x) :: r =>
      match rb x, read_fields rb r with
      | Some c, Some r' => Some ((k, c) :: r')
      | _, _ => None
      end
  end.

(** The output below [v], to depth [d]. *)
Fixpoint readback (d : nat) (h : heap) (v : hval) : option css :=
  match v with
  | HNum n => Some (CNum n)
  | HStr s => Some (CStr s)
  | HRef l =>
      match d with
      | 0 => None
      | S d' =>
          match nth_error h l with
          | Some (Object o) => option_map CObj (read_fields (readback d' h) o)
          | _ => None
          end
      end
  | _ => None
  end.



End Store.

(** * The store and the pure model

    What links the two models: a store holds a value of the pure model when
    its cells spell the value out; an output of the pure model is held as a
    tree of objects, none of them shared. *)

Module StoreTree.

(** *** Inputs *)

(** The cells below [b]. *)
Definition under (b : nat) : Store.loc -> Prop := fun l => l < b.

(** The value [v] spells out [x] in cells of [h] that lie in the region
    [R]. *)
Fixpoint holds (R : Store.loc -> Prop) (h : Store.heap) (x : value)
    (v : Store.hval) : Prop :=
  match x with
  | VUndefined => v = Store.HUndefined
  | VNull => v = Store.HNull
  | VBool c => v = Store.HBool c
  | VNum n => v = Store.HNum n
  | VStr s => v = Store.HStr s
  | VFun f => v = Store.HFun f
  | VArr xs =>
      exists l items,
        v = Store.HRef l /\ R l /\ nth_error h l = Some (Store.Array items) /\
        (fix all (xs : list value) (items : list Store.hval) : Prop :=
           match xs, items with
           | [], [] => True
           | x :: xs', v' :: items' => holds R h x v' /\ all xs' items'
           | _, _ => False
           end) xs items
  | VObj o =>
      exists l ho,
        v = Store.HRef l /\ R l /\ nth_error h l = Some (Store.Object ho) /\
        (fix all (o : list (string * value)) (ho : Obj.t Store.hval) : Prop :=
           match o, ho with
           | [], [] => True
           | (k, x) :: o', (k', v') :: ho' =>
               k = k' /\ holds R h x v' /\ all o' ho'
           | _, _ => False
           end) o ho
  end.

(** The properties [ho] spell out the properties [o]. *)
Fixpoint holds_fields (R : Store.loc -> Prop) (h : Store.heap)
    (o : list (string * value))
    (ho : Obj.t Store.hval) : Prop :=
  match o, ho with
  | [], [] => True
  | (k, x) :: o', (k', v') :: ho' =>
      k = k' /\ holds R h x v' /\ holds_fields R h o' ho'
  | _, _ => False
  end.

(** The values [vs] spell out the specifications [os]. *)
Fixpoint holds_specs (R : Store.loc -> Prop) (h : Store.heap)
    (os : list SxObject) (vs : list Store.hval) : Prop :=
  match os, vs with
  | [], [] => True
  | o :: os', v :: vs' => holds R h (VObj o) v /\ holds_specs R h os' vs'
  | _, _ => False
  end.

(** The [sx] option: falsy entries, specifications, nested arrays. *)
Definition holds_leaf (R : Store.loc -> Prop) (h : Store.heap)
    (x : sx_leaf) (v : Store.hval) : Prop :=
  match x with
  | SxFalsy => Store.truthy v = false
  | SxObj o => holds R h (VObj o) v
  end.

Fixpoint holds_leaves (R : Store.loc -> Prop) (h : Store.heap)
    (xs : list sx_leaf) (vs : list Store.hval) : Prop :=
  match xs, vs with
  | [], [] => True
  | x :: xs', v :: vs' => holds_leaf R h x v /\ holds_leaves R h xs' vs'
  | _, _ => False
  end.

Definition holds_item (R : Store.loc -> Prop) (h : Store.heap)
    (i : sx_item) (v : Store.hval) : Prop :=
  match i with
  | SxLeaf x => holds_leaf R h x v
  | SxNested xs =>
      exists l items,
        v = Store.HRef l /\ nth_error h l = Some (Store.Array items) /\
        holds_leaves R h xs items
  end.

Fixpoint holds_items (R : Store.loc -> Prop) (h : Store.heap)
    (its : list sx_item) (vs : list Store.hval) : Prop :=
  match its, vs with
  | [], [] => True
  | i :: its', v :: vs' => holds_item R h i v /\ holds_items R h its' vs'
  | _, _ => False
  end.

Definition holds_sx (R : Store.loc -> Prop) (h : Store.heap)
    (sx : ThemeableSx) (v : Store.hval) : Prop :=
  match sx with
  | SxOne x => holds_leaf R h x v
  | SxArray its =>
      exists l items,
        v = Store.HRef l /\ nth_error h l = Some (Store.Array items) /\
        holds_items R h its items
  end.

(** The store [h'] is [h] but for the cell [a]. *)
Definition only_at (a : Store.loc) (h h' : Store.heap) : Prop :=
  length h' = length h /\
  forall l, l <> a -> nth_error h' l = nth_error h l.

(** How deep the selector maps of a value nest. *)
Fixpoint depth (x : value) : nat :=
  match x with
  | VObj o =>
      S ((fix deepest (o : list (string * value)) : nat :=
            match o with
            | [] => 0
            | (_, x) :: o' => Nat.max (depth x) (deepest o')
            end) o)
  | _ => 0
  end.

Fixpoint depth_fields (o : list (string * value)) : nat :=
  match o with
  | [] => 0
  | (_, x) :: o' => Nat.max (depth x) (depth_fields o')
  end.

Definition theme_at (b : nat) (h : Store.heap) (v : Store.hval) (t : Theme)
  : Prop :=
  exists l,
    v = Store.HRef l /\ l < b /\
    nth_error h l = Some (Store.ThemeObject t).

Definition control_at (b : nat) (h : Store.heap) (v : Store.hval)
    (c : option Control)
  : Prop :=
  match c with
  | None => v = Store.HUndefined
  | Some c' =>
      exists l,
        v = Store.HRef l /\ l < b /\
        nth_error h l = Some (Store.ControlObject c')
  end.

(** *** Outputs *)

(** An output with the place of each of its objects. *)
Inductive ltree :=
| Leaf (c : literal)
| Node (l : Store.loc) (fields : list (string * ltree)).

Definition root (t : ltree) : Store.hval :=
  match t with
  | Leaf c => Store.of_literal c
  | Node l _ => Store.HRef l
  end.

Definition roots (fields : list (string * ltree)) : Obj.t Store.hval :=
  map (fun kt => (fst kt, root (snd kt))) fields.

Fixpoint erase (t : ltree) : css :=
  match t with
  | Leaf c => css_of_literal c
  | Node _ fields =>
      CObj ((fix all (fields : list (string * ltree)) : list (string * css) :=
               match fields with
               | [] => []
               | (k, t') :: r => (k, erase t') :: all r
               end) fields)
  end.

Fixpoint erase_fields (fields : list (string * ltree)) : Obj.t css :=
  match fields with
  | [] => []
  | (k, t) :: r => (k, erase t) :: erase_fields r
  end.

(** The places of the objects of a tree. *)
Fixpoint locs (t : ltree) : list Store.loc :=
  match t with
  | Node l fields =>
      l :: (fix all (fields : list (string * ltree)) : list Store.loc :=
              match fields with
              | [] => []
              | (_, t') :: r => (locs t' ++ all r)%list
              end) fields
  | _ => []
  end.

Fixpoint locs_fields (fields : list (string * ltree)) : list Store.loc :=
  match fields with
  | [] => []
  | (_, t) :: r => (locs t ++ locs_fields r)%list
  end.

(** The store holds the tree: each object is a cell whose properties are
    the roots of its sub-trees. *)
Fixpoint models (h : Store.heap) (t : ltree) : Prop :=
  match t with
  | Node l fields =>
      nth_error h l = Some (Store.Object (roots fields)) /\
      (fix all (fields : list (string * ltree)) : Prop :=
         match fields with
         | [] => True
         | (_, t') :: r => models h t' /\ all r
         end) fields
  | _ => True
  end.

Fixpoint models_fields (h : Store.heap) (fields : list (string * ltree))
  : Prop :=
  match fields with
  | [] => True
  | (_, t) :: r => models h t /\ models_fields h r
  end.

(** A tree of the store above [b]: held by the store, no object twice. *)
Definition tree_ok (b : nat) (h : Store.heap) (t : ltree) : Prop :=
  models h t /\ NoDup (locs t) /\
  forall l, In l (locs t) -> b <= l < length h.

(** What a run from [(h, t)] that ends in [(h', r)] must be for the pure
    result [res]: cells outside the tree are left alone; on success the
    store holds a tree for the pure output, with the same root, grown by new
    cells only. *)
Definition refines (b : nat) (h : Store.heap) (t : ltree) (h' : Store.heap)
    (r : Store.outcome unit) (res : result css) : Prop :=
  length h <= length h' /\
  (forall l, l < length h -> ~ In l (locs t) ->
             nth_error h' l = nth_error h l) /\
  match res with
  | Ok out =>
      r = Store.Done tt /\
      exists t',
        erase t' = out /\ root t' = root t /\ tree_ok b h' t' /\
        forall l, In l (locs t') -> In l (locs t) \/ length h <= l
  | TypeError => r = Store.TypeError
  end.

Definition refines_run (b : nat) (h : Store.heap) (t : ltree)
    (run : Store.heap * Store.outcome unit) (res : result css) : Prop :=
  refines b h t (fst run) (snd run) res.

(** The store holds the theme and the Boundary Descriptor that the pure
    model is run with. *)
Definition env_at (b : nat) (hT hC : Store.hval) (th : Theme)
    (c : option Control) (h : Store.heap) : Prop :=
  theme_at b h hT th /\ control_at b h hC c.

(** With fuel [fuel], compiling a property on the store refines compiling
    it in the pure model, for every value less deep than the fuel. *)
Definition property_refines (b : nat) (hT hC : Store.hval) (th : Theme)
    (c : option Control) (sel : SxSelectors) (P : string) (fuel : nat)
  : Prop :=
  forall x v h t,
    depth x < fuel -> holds (under b) h x v -> tree_ok b h t ->
    env_at b hT hC th c h -> b <= length h ->
    refines_run b h t
      (Store.mutableCompileSxProperty fuel hT sel hC (root t) P v h)
      (outcome (mutableCompileSxProperty th sel c (erase t) P x)).

(** *** The hook *)

(** The store's map function [ms] does what the pure [mp] does: it returns
    an object that spells out the pure result, in cells it was given or in
    new ones, and changes no cell. *)
Definition map_refines (mp : SxMap) (ms : Store.SxMap) : Prop :=
  forall (R : Store.loc -> Prop) h x v th,
    holds R h x v ->
    exists h' r,
      ms v th h = (h', Store.Done r) /\
      length h <= length h' /\
      (forall l, l < length h -> nth_error h' l = nth_error h l) /\
      holds (fun l => R l \/ length h <= l) h' (VObj (mp x th)) r.

Fixpoint maps_refine (pm : SxMaps) (sm : Store.SxMaps) : Prop :=
  match pm, sm with
  | [], [] => True
  | (k, mp) :: pm', (k', ms) :: sm' =>
      k = k' /\ map_refines mp ms /\ maps_refine pm' sm'
  | _, _ => False
  end.

Definition maps_option_refine (pm : option SxMaps) (sm : option Store.SxMaps)
  : Prop :=
  match pm, sm with
  | Some pm', Some sm' => maps_refine pm' sm'
  | None, None => True
  | _, _ => False
  end.

(** An optional theme: [undefined], or a theme object below [b]. *)
Definition theme_option_at (b : nat) (h : Store.heap) (v : Store.hval)
    (t : option Theme) : Prop :=
  match t with
  | Some t' => theme_at b h v t'
  | None => v = Store.HUndefined
  end.

(** The store holds the options of a call of the compiler. *)
Definition options_at (h : Store.heap) (options : Options.t)
    (soptions : Store.Options) : Prop :=
  holds_sx (under (length h)) h (Options.sx options) (Store.sx soptions) /\
  theme_option_at (length h) h (Store.theme soptions)
    (Options.theme options) /\
  control_at (length h) h (Store.control soptions)
    (Options.control options) /\
  Store.selectors soptions = Options.selectors options /\
  maps_option_refine (Options.maps options) (Store.maps soptions).

(** The store holds what the two contexts provide. *)
Definition context_at (h : Store.heap) (context : Context)
    (scontext : Store.Context) : Prop :=
  theme_option_at (length h) h (Store.ThemeContext scontext)
    (ThemeContext context) /\
  control_at (length h) h (Store.ControlContext scontext)
    (ControlContext context).

(** How deep the objects of an output nest. *)
Fixpoint height (t : ltree) : nat :=
  match t with
  | Leaf _ => 0
  | Node _ fields =>
      S ((fix highest (fields : list (string * ltree)) : nat :=
            match fields with
            | [] => 0
            | (_, t') :: r => Nat.max (height t') (highest r)
            end) fields)
  end.

Fixpoint height_fields (fields : list (string * ltree)) : nat :=
  match fields with
  | [] => 0
  | (_, t) :: r => Nat.max (height t) (height_fields r)
  end.

(** The store version of a run refines the pure version: with fuel [fuel0]
    or more it ends the same way; on success the result, read back from the
    store, is the pure output; no cell of the store before the run has
    changed. *)
Definition run_refines (fuel0 : nat) (h : Store.heap)
    (run : nat -> Store.HM Store.hval) (res : result css) : Prop :=
  forall fuel, fuel0 <= fuel ->
    exists h' r,
      run fuel h = (h', r) /\
      (forall l, l < length h -> nth_error h' l = nth_error h l) /\
      match res with
      | Ok out =>
          exists v d, r = Store.Done v /\ Store.readback d h' v = Some out
      | TypeError => r = Store.TypeError
      end.

(** Fuel that is enough to compile: more than the depth of the selector
    maps of the specification that is compiled, which is the merged one after
    map expansion. *)
Definition themed_fuel (options : Options.t) (theme : Theme) : nat :=
  match outcome
          (expand_maps (Options.maps options)
             (spread2 theme (or_empty (Options.theme options)))
             (mergeSx (Options.sx options)))
  with
  | Ok styleObject => S (depth_fields styleObject)
  | TypeError => 0
  end.

Definition compile_fuel (options : Options.t) : nat :=
  themed_fuel options (or_empty (Options.theme options)).

Definition hook_fuel (context : Context) (props : Options.t) : nat :=
  compile_fuel
    {| Options.control := None;
       Options.selectors := None;
       Options.maps := Options.maps props;
       Options.sx := sx_of_array (ensureTruthyArray (Options.sx props));
       Options.theme :=
         or_else (Options.theme props) (ThemeContext context) |}.

End StoreTree.

(** ** Vocabulary of the statements *)


(** The hook called with nothing but [sx] and, possibly, [theme]. *)
Definition sx_props (theme : option Theme) (sx : ThemeableSx) : Options.t :=
  {| Options.control := None; Options.maps := None;
     Options.selectors := None; Options.theme := theme; Options.sx := sx |}.

Definition theme_context (theme : option Theme) : Context :=
  {| ControlContext := None; ThemeContext := theme |}.

(** The theme that the hook hands to [mutableCompileSxProperty]: what
    [compileSx] builds from [props.theme || theme]. *)
Definition effective_theme (override context : option Theme) : Theme :=
  let t := or_empty (or_else override context) in
  spread2 t t.


(** The six names of the built-in registry. *)
Definition builtin_names : list string :=
  ["active"; "checked"; "disabled"; "focus"; "focusWithin"; "hover"].




(** [focusWithin] resolves as [focus]. *)
Definition state_of (name : string) : string :=
  if name =? "focusWithin" then "focus" else name.


(** The map of the repository's test: [color: (v) => ({ fill: v })]. *)
Definition fill_map : SxMap := fun v _ => [("fill", v)].

(** The keys of the map functions that a run called, in call order. *)
Definition map_calls (l : list event) : list string :=
  flat_map (fun e => match e with CallMap key _ _ => [key] | _ => [] end) l.




(** Every event but the calls of the resolver registered as [name]. *)
Definition not_call_of (name : string) (e : event) : bool :=
  match e with
  | CallSelector n _ _ => negb (n =? name)
  | _ => true
  end.

(** Two runs that end alike and differ at most in calls of the resolver
    [name]. *)
Definition same_but {A} (name : string) (m m' : M A) : Prop :=
  outcome m = outcome m' /\
  filter (not_call_of name) (calls m) = filter (not_call_of name) (calls m').

(** The value of the last specification of a sequence that has the
    property [k]. *)
Definition last_wins (k : string) (l : list SxObject) : option value :=
  fold_left
    (fun found o =>
       match Obj.get k o with
       | Some v => Some v
       | None => found
       end)
    l None.


(** ** Vocabulary for the store *)

Module StoreSpec.
Import Store.
Local Open Scope store_scope.

(** The cells below [n] are in [h'] what they are in [h]. *)
Definition agree (n : nat) (h h' : heap) : Prop :=
  forall l, l < n -> nth_error h' l = nth_error h l.

(** Every cell of [h] is unchanged in [h']. *)
Definition preserves (h h' : heap) : Prop :=
  forall l c, nth_error h l = Some c -> nth_error h' l = Some c.

(** A reference to a cell at or above [n]; primitives qualify. *)
Definition fresh_ref (n : nat) (v : hval) : Prop :=
  match v with
  | HRef l => n <= l
  | _ => True
  end.

(** The objects at or above [b] refer to objects at or above [b] only. *)
Definition closed_above (b : nat) (h : heap) : Prop :=
  forall l o k l',
    b <= l -> nth_error h l = Some (Object o) ->
    Obj.get k o = Some (HRef l') -> b <= l'.

(** A reference to an object that is not among the first [n] cells. *)
Definition new_object (n : nat) (v : hval) : Prop :=
  exists l, v = HRef l /\ n <= l.

(** A run from a store of at least [n] cells that satisfies [Inv] leaves
    the cells below [n] alone, drops no cell, re-establishes [Inv], and
    returns a value that satisfies [Q]. *)
Definition triple {A} (Inv : heap -> Prop) (n : nat) (m : HM A)
    (Q : A -> Prop) : Prop :=
  forall h h' r,
    n <= length h -> Inv h -> m h = (h', r) ->
    length h <= length h' /\ Inv h' /\ agree n h h' /\
    (forall a, r = Done a -> Q a).

Definition no_inv : heap -> Prop := fun _ => True.
Definition any {A} : A -> Prop := fun _ => True.

(** A caller-supplied map function that changes no existing object. *)
Definition map_pure (m : SxMap) : Prop :=
  forall v t h h' r, m v t h = (h', r) -> preserves h h'.

Definition maps_pure (maps : option SxMaps) : Prop :=
  forall ms key m,
    maps = Some ms -> Obj.get key ms = Some m -> map_pure m.

(** The map of the repository's test, on the store. *)
Definition fill_map : SxMap :=
  fun v _ => alloc (Object [("fill", v)]).

(** *** Two runs side by side

    A second call of the compiler starts from the store that the first call
    left: the objects of the first [n] cells are common to both, what the
    second call creates lies [d] cells further than what the first call
    created. *)

Section Renaming.
Variables n d : nat.








End Renaming.









(** The input of the repository's test of mapped selectors, in a store:
    the selector map, the specification that refers to it, a theme and a
    Boundary Descriptor. *)
Definition test_heap : heap :=
  [ Object [("default", HStr "black"); ("hover", HStr "red")];
    Object [("color", HRef 0)];
    ThemeObject [("a", TStr "red")];
    ControlObject
      {| select := fun s => ".btn" ++ s; active := None; checked := None;
         disabled := None; focus := None; hover := None |} ].

Definition test_props : Options :=
  {| control := HUndefined;
     maps := Some [("color", fill_map)];
     selectors := None;
     theme := HUndefined;
     sx := HRef 1 |}.

Definition test_context : Context :=
  {| ControlContext := HRef 3; ThemeContext := HRef 2 |}.

End StoreSpec.

(** The same input in the pure model. *)
Definition mapped_props : Options.t :=
  {| Options.control := None;
     Options.maps := Some [("color", fill_map)];
     Options.selectors := None;
     Options.theme := None;
     Options.sx :=
       SxOne (SxObj [("color", VObj [("default", VStr "black");
                                      ("hover", VStr "red")])]) |}.

Definition mapped_context : Context :=
  {| ControlContext :=
       Some {| select := fun s => ".btn" ++ s; active := None;
               checked := None; disabled := None; focus := None;
               hover := None |};
     ThemeContext := Some [("a", TStr "red")] |}.

(** * The rest of the sources *)

(** ** [flatMap] of [src/flatMap.ts] *)

(** What [fn] returns, [E | E[]]: [concat] spreads an array argument one
    level and appends any other argument as it is.  The elements themselves
    are not arrays. *)
Inductive flat (E : Type) :=
| One (e : E)
| Many (l : list E).
Arguments One {E} e.
Arguments Many {E} l.

(** What [concat] appends for one argument. *)
Definition spread {E} (x : flat E) : list E :=
  match x with
  | One e => [e]
  | Many l => l
  end.

(** [array.map(fn)], counting from index [i]: [fn] is given each element and
    its index. *)
Fixpoint map_from {T U} (i : nat) (fn : T -> nat -> U) (array : list T)
  : list U :=
  match array with
  | [] => []
  | t :: r => fn t i :: map_from (S i) fn r
  end.

(** [[].concat.apply([], array.map(fn))] *)
Definition flatMap {T E} (array : list T) (fn : T -> nat -> flat E) : list E :=
  concat (map spread (map_from 0 fn array)).

(** ** [control] of [src/control.tsx] *)

(** [controlContext] of [control(Component)]: [select] appends the selector
    type to what [Component] converts to in a template string (for a styled
    component, its class selector); no override flag is set. *)
Definition control (Component : string) : Control :=
  {| select := fun selectorType => Component ++ selectorType;
     active := None;
     checked := None;
     disabled := None;
     focus := None;
     hover := None |}.


(** ** Vocabulary of the further statements *)

(** The value of [selectors[selectorName] ? selectors[selectorName](theme,
    control) : selectorName]. *)
Definition selector_of (theme : Theme) (selectors : SxSelectors)
    (control : option Control) (selectorName : string) : option string :=
  match Obj.get selectorName selectors with
  | Some r => r theme control
  | None => Some selectorName
  end.






(** The theme and the Boundary Descriptor that a call was made with. *)
Definition event_env (theme : Theme) (control : option Control) (e : event)
  : Prop :=
  match e with
  | CallValue _ t => t = theme
  | CallSelector _ t c => t = theme /\ c = control
  | CallMap _ _ t => t = theme
  end.

(** The values that take no selector and no call: literals, and the shapes
    that the compiler passes over. *)
Definition plain (x : value) : bool :=
  match x with
  | VFun _ | VObj _ => false
  | _ => true
  end.

(** What a plain value leaves in the output. *)
Definition plain_css (x : option value) : option css :=
  match x with
  | Some (VNum n) => Some (CNum n)
  | Some (VStr s) => Some (CStr s)
  | _ => None
  end.





(** ** Vocabulary for the store *)

Module StoreShape.


(** A run from a store of at least [n] cells that returns, returns a
    reference to an object that is not among the first [n] cells, and leaves
    a store in which no object from that object on refers to an earlier
    one. *)
Definition yields_closed (n : nat) (m : Store.HM Store.hval) : Prop :=
  forall h h' out,
    n <= length h -> m h = (h', Store.Done out) ->
    exists b,
      out = Store.HRef b /\ n <= b /\ StoreSpec.closed_above b h'.

End StoreShape.
(** * Properties *)

(** ** Objects *)

Module ObjFacts.
Import Obj.

Section Lookup.
Variable V : Type.
Implicit Types (o : Obj.t V) (k : string) (v : V).

Lemma get_set k k' v o :
  get k (set k' v o) = if k =? k' then Some v else get k o.
Proof.
  induction o as [|[k0 v0] r IH]; simpl.
  - destruct (k =? k'); reflexivity.
  - destruct (String.eqb_spec k' k0) as [->|Hne]; simpl.
    + destruct (k =? k0); reflexivity.
    + rewrite IH. destruct (String.eqb_spec k k0) as [->|]; [|reflexivity].
      destruct (String.eqb_spec k0 k') as [E|]; [|reflexivity].
      congruence.
Qed.

Lemma get_set_same k v o : get k (set k v o) = Some v.
Proof. rewrite get_set, String.eqb_refl. reflexivity. Qed.

Lemma get_set_other k k' v o : k <> k' -> get k (set k' v o) = get k o.
Proof.
  intros H. rewrite get_set.
  destruct (String.eqb_spec k k'); [contradiction|reflexivity].
Qed.

Lemma get_delete k k' o :
  get k (delete k' o) = if k =? k' then None else get k o.
Proof.
  induction o as [|[k0 v0] r IH]; simpl.
  - destruct (k =? k'); reflexivity.
  - destruct (String.eqb_spec k' k0) as [->|Hne]; simpl.
    + rewrite IH. destruct (k =? k0); reflexivity.
    + rewrite IH. destruct (String.eqb_spec k k0) as [->|]; [|reflexivity].
      destruct (String.eqb_spec k0 k') as [E|]; [|reflexivity].
      congruence.
Qed.

Lemma get_In k o : get k o <> None <-> In k (map fst o).
Proof.
  induction o as [|[k0 v0] r IH]; simpl.
  - split; [congruence|tauto].
  - destruct (String.eqb_spec k k0) as [->|Hne].
    + split; [auto|congruence].
    + rewrite IH. split; [auto|]. intros [E|H]; [congruence|exact H].
Qed.

(** Writing back the value a property already has changes nothing. *)
Lemma set_same_value k v o : get k o = Some v -> set k v o = o.
Proof.
  induction o as [|[k0 v0] r IH]; simpl; [discriminate|].
  destruct (String.eqb_spec k k0) as [->|Hne]; intros H.
  - congruence.
  - rewrite IH; auto.
Qed.

End Lookup.

(** *** Enumeration order *)

Lemma mem_In k l : mem k l = true <-> In k l.
Proof.
  induction l as [|k' r IH]; simpl.
  - split; [discriminate|tauto].
  - rewrite orb_true_iff, IH.
    destruct (String.eqb_spec k k') as [->|Hne]; split; auto.
    + intros [H|H]; [discriminate|auto].
    + intros [H|H]; [congruence|auto].
Qed.

Lemma mem_false k l : mem k l = false <-> ~ In k l.
Proof.
  rewrite <- mem_In. destruct (mem k l); split; intros H; try discriminate;
    try reflexivity.
  exfalso. apply H. reflexivity.
Qed.

Lemma dedup_from_In k seen l :
  In k (dedup_from seen l) <-> In k l /\ ~ In k seen.
Proof.
  revert seen; induction l as [|k' r IH]; intros seen; simpl.
  - tauto.
  - destruct (mem k' seen) eqn:E.
    + apply mem_In in E. rewrite IH. split.
      * tauto.
      * intros [[->|H] Hn]; [contradiction|tauto].
    + apply mem_false in E. simpl. rewrite IH. simpl. split.
      * intros [->|[H Hn]]; [tauto|]. tauto.
      * intros [[->|H] Hn]; [tauto|].
        destruct (string_dec k' k) as [->|Hne]; [tauto|].
        right. split; [exact H|]. intros [?|?]; tauto.
Qed.


Lemma insert_index_In k k' l :
  In k (insert_index k' l) <-> k = k' \/ In k l.
Proof.
  induction l as [|k0 r IH]; simpl.
  - intuition congruence.
  - destruct (index_of k' <=? index_of k0)%N; simpl.
    + intuition congruence.
    + rewrite IH. tauto.
Qed.

Lemma sort_index_In k l : In k (sort_index l) <-> In k l.
Proof.
  induction l as [|k0 r IH]; simpl; [tauto|].
  rewrite insert_index_In, IH. intuition congruence.
Qed.



Lemma order_keys_In k ks : In k (order_keys ks) <-> In k ks.
Proof.
  unfold order_keys. rewrite in_app_iff, sort_index_In, !filter_In.
  destruct (is_index k); simpl; intuition congruence.
Qed.


Lemma keys_In {V} k (o : Obj.t V) : In k (keys o) <-> In k (map fst o).
Proof.
  unfold keys, dedup. rewrite order_keys_In, dedup_from_In. simpl. tauto.
Qed.


Lemma keys_get {V} k (o : Obj.t V) : In k (keys o) <-> get k o <> None.
Proof. rewrite keys_In, get_In. tauto. Qed.

Lemma keys_single {V} k (v : V) : keys [(k, v)] = [k].
Proof.
  unfold keys, dedup, order_keys; simpl.
  destruct (is_index k); reflexivity.
Qed.

(** *** Deleting a property and the enumeration order *)


Lemma map_fst_delete {V} name (o : Obj.t V) :
  map fst (delete name o) = filter (other_than name) (map fst o).
Proof.
  induction o as [|[k v] r IH]; simpl; [reflexivity|].
  unfold other_than at 1. destruct (name =? k); simpl; rewrite IH;
    reflexivity.
Qed.

Lemma filter_dedup_from_seen name seen seen' l :
  (forall k, k <> name -> mem k seen = mem k seen') ->
  filter (other_than name) (dedup_from seen l)
  = filter (other_than name) (dedup_from seen' l).
Proof.
  revert seen seen'; induction l as [|k r IH]; intros seen seen' H; simpl;
    [reflexivity|].
  assert (Hcons : forall k0 k', k' <> name ->
            mem k' (k0 :: seen) = mem k' (k0 :: seen')).
  { intros k0 k' Hk'. simpl. rewrite (H k' Hk'). reflexivity. }
  destruct (string_dec k name) as [->|Hne].
  - assert (E : other_than name name = false)
      by (unfold other_than; rewrite String.eqb_refl; reflexivity).
    destruct (mem name seen), (mem name seen'); simpl; rewrite ?E;
      apply IH; auto.
    + intros k' Hk'. simpl. rewrite (H k' Hk').
      destruct (String.eqb_spec k' name); [contradiction|reflexivity].
    + intros k' Hk'. simpl. rewrite (H k' Hk').
      destruct (String.eqb_spec k' name); [contradiction|reflexivity].
  - rewrite (H k Hne). destruct (mem k seen'); simpl.
    + apply IH, H.
    + destruct (other_than name k); [f_equal|]; apply IH; auto.
Qed.

Lemma dedup_from_filter name seen l :
  dedup_from seen (filter (other_than name) l)
  = filter (other_than name) (dedup_from seen l).
Proof.
  revert seen; induction l as [|k r IH]; intros seen; simpl; [reflexivity|].
  destruct (other_than name k) eqn:E; simpl.
  - destruct (mem k seen); simpl; rewrite ?E, IH; reflexivity.
  - assert (k = name) as ->.
    { unfold other_than in E. apply negb_false_iff in E.
      apply String.eqb_eq in E. congruence. }
    rewrite IH. destruct (mem name seen); simpl; rewrite ?E; [reflexivity|].
    apply filter_dedup_from_seen. intros k' Hk'. simpl.
    destruct (String.eqb_spec k' name); [contradiction|reflexivity].
Qed.


Lemma insert_index_sorted k l :
  StronglySorted index_le l -> StronglySorted index_le (insert_index k l).
Proof.
  induction 1 as [|k' r Hs IH Hall]; simpl.
  - constructor; constructor.
  - destruct (N.leb_spec (index_of k) (index_of k')) as [Hle|Hgt].
    + constructor; [constructor; assumption|].
      constructor; [exact Hle|].
      eapply Forall_impl; [|exact Hall].
      intros a Ha. unfold index_le in *. lia.
    + constructor; [exact IH|].
      apply Forall_forall. intros a Ha. apply insert_index_In in Ha.
      destruct Ha as [->|Ha].
      * unfold index_le. lia.
      * rewrite Forall_forall in Hall. apply Hall, Ha.
Qed.

Lemma sort_index_sorted l : StronglySorted index_le (sort_index l).
Proof.
  induction l as [|k r IH]; simpl; [constructor|].
  apply insert_index_sorted, IH.
Qed.

Lemma insert_index_head k l :
  Forall (index_le k) l -> insert_index k l = k :: l.
Proof.
  destruct l as [|k' r]; simpl; [reflexivity|].
  intros H. inversion H; subst. unfold index_le in *.
  destruct (N.leb_spec (index_of k) (index_of k')); [reflexivity|lia].
Qed.

Lemma filter_insert_index (p : string -> bool) k l :
  StronglySorted index_le l ->
  filter p (insert_index k l)
  = if p k then insert_index k (filter p l) else filter p l.
Proof.
  induction 1 as [|k' r Hs IH Hall]; simpl.
  - destruct (p k); reflexivity.
  - destruct (N.leb_spec (index_of k) (index_of k')) as [Hle|Hgt]; simpl.
    + destruct (p k) eqn:Ek; [|reflexivity].
      symmetry. apply (insert_index_head k (filter p (k' :: r))).
      apply Forall_forall. intros a Ha. apply filter_In in Ha.
      destruct Ha as [[->|Ha] _]; [exact Hle|].
      rewrite Forall_forall in Hall. specialize (Hall a Ha).
      unfold index_le in *. lia.
    + rewrite IH. destruct (p k'), (p k); simpl; try reflexivity.
      destruct (N.leb_spec (index_of k) (index_of k')); [lia|reflexivity].
Qed.

Lemma sort_index_filter (p : string -> bool) l :
  sort_index (filter p l) = filter p (sort_index l).
Proof.
  induction l as [|k r IH]; simpl; [reflexivity|].
  rewrite filter_insert_index by apply sort_index_sorted.
  destruct (p k); simpl; rewrite IH; reflexivity.
Qed.

Lemma filter_comm {A} (p q : A -> bool) l :
  filter p (filter q l) = filter q (filter p l).
Proof.
  induction l as [|a r IH]; simpl; [reflexivity|].
  destruct (p a) eqn:Ep, (q a) eqn:Eq; simpl; rewrite ?Ep, ?Eq, IH;
    reflexivity.
Qed.

Lemma order_keys_filter (p : string -> bool) ks :
  order_keys (filter p ks) = filter p (order_keys ks).
Proof.
  unfold order_keys. rewrite filter_app, <- sort_index_filter.
  rewrite (filter_comm is_index p).
  rewrite (filter_comm (fun k => negb (is_index k)) p). reflexivity.
Qed.

(** [Object.keys] after [delete o[name]]. *)
Lemma keys_delete {V} name (o : Obj.t V) :
  keys (delete name o) = filter (other_than name) (keys o).
Proof.
  unfold keys, dedup.
  rewrite map_fst_delete, dedup_from_filter, order_keys_filter.
  reflexivity.
Qed.

(** *** [Object.assign] *)

Lemma get_fold_set {V} (src : Obj.t V) k ks acc :
  get k (fold_left
           (fun acc k => match get k src with
                         | Some v => set k v acc
                         | None => acc
                         end) ks acc)
  = match (if mem k ks then get k src else None) with
    | Some v => Some v
    | None => get k acc
    end.
Proof.
  revert acc; induction ks as [|k0 r IH]; intros acc; simpl; [reflexivity|].
  rewrite IH. destruct (String.eqb_spec k k0) as [->|Hne]; simpl.
  - destruct (mem k0 r); destruct (get k0 src) eqn:E; try reflexivity.
    apply get_set_same.
  - destruct (mem k r); [destruct (get k src); [reflexivity|]|];
      (destruct (get k0 src); [apply get_set_other; exact Hne|reflexivity]).
Qed.

(** Last-wins: a property of the source overrides, every other property of
    the target stays. *)
Lemma get_assign {V} k (target source : Obj.t V) :
  get k (assign target source)
  = match get k source with
    | Some v => Some v
    | None => get k target
    end.
Proof.
  unfold assign. rewrite get_fold_set.
  destruct (mem k (keys source)) eqn:E; [reflexivity|].
  apply mem_false in E. rewrite keys_get in E.
  destruct (get k source); [exfalso; apply E; discriminate|reflexivity].
Qed.

End ObjFacts.

Example keys_example :
  Obj.keys [("b", 1); ("10", 2); ("a", 3); ("2", 4); ("b", 5); ("01", 6)]
  = ["2"; "10"; "b"; "a"; "01"].
Proof. reflexivity. Qed.

(** ** The tests of the repository *)

Example test_theme_context :
  outcome (useSx (theme_context (Some [("borderColor", TStr "red")]))
    (sx_props None (SxOne (SxObj
       [("borderColor",
         VFun (fun theme =>
                 match Obj.get "borderColor" theme with
                 | Some (TStr s) => LStr s
                 | _ => LStr ""
                 end))]))))
  = Ok (CObj [("borderColor", CStr "red")]).
Proof. reflexivity. Qed.

Example test_combined_hover_and_default :
  outcome (useSx no_context
    (sx_props None (SxOne (SxObj
       [("borderColor",
         VObj [("default", VStr "black"); ("hover", VStr "red")])]))))
  = Ok (CObj [("borderColor", CStr "black");
              ("&:hover", CObj [("borderColor", CStr "red")])]).
Proof. reflexivity. Qed.

Example test_control_context :
  outcome (useSx
    {| ControlContext :=
         Some {| select := fun s => ".sc-AxjAm" ++ s; active := None;
                 checked := None; disabled := None; focus := None;
                 hover := None |};
       ThemeContext := None |}
    (sx_props None (SxOne (SxObj
       [("borderColor",
         VObj [("default", VStr "black"); ("hover", VStr "red")])]))))
  = Ok (CObj [("borderColor", CStr "black");
              (".sc-AxjAm:hover &", CObj [("borderColor", CStr "red")])]).
Proof. reflexivity. Qed.

Example test_nested_selectors :
  outcome (useSx no_context
    (sx_props None (SxOne (SxObj
       [("width",
         VObj [("default", VStr "100%");
               ("@media(min-width: 420px)",
                VObj [("div", VStr "50%")])])]))))
  = Ok (CObj [("width", CStr "100%");
              ("@media(min-width: 420px)",
               CObj [("div", CObj [("width", CStr "50%")])])]).
Proof. reflexivity. Qed.

Example test_custom_selectors :
  outcome (createUseSx
    (Some (spread2 defaultSelectors
             [("mobile",
               fun theme _ =>
                 match Obj.get "media" theme with
                 | Some (TObj media) =>
                     match Obj.get "mobile" media with
                     | Some (TStr s) => Some s
                     | _ => None
                     end
                 | _ => None
                 end)]))
    (theme_context
       (Some [("media", TObj [("mobile", TStr "@media(max-width: 420px)")])]))
    (sx_props None (SxOne (SxObj
       [("width", VObj [("default", VStr "100%"); ("mobile", VStr "50%")])]))))
  = Ok (CObj [("width", CStr "100%");
              ("@media(max-width: 420px)", CObj [("width", CStr "50%")])]).
Proof. reflexivity. Qed.

(** ** Evaluating the model on partly symbolic inputs *)

#[local] Arguments String.eqb : simpl never.

(** Decide a comparison of strings: by reflexivity, from a hypothesis, or by
    evaluation when both sides are literals. *)
Ltac eqb_step :=
  match goal with
  | |- context [String.eqb ?a ?a] => rewrite (String.eqb_refl a)
  | H : String.eqb ?a ?b = _ |- context [String.eqb ?a ?b] => rewrite H
  | |- context [String.eqb ?a ?b] =>
      let r := eval vm_compute in (String.eqb a b) in
      match r with
      | true => change (String.eqb a b) with true
      | false => change (String.eqb a b) with false
      end
  end.

Ltac run :=
  repeat first
    [ progress cbn
    | eqb_step
    | progress (unfold compile_branch, resolve, expand_map) ].

(** ** The monad *)

Lemma bind_ret_l {A B} (a : A) (f : A -> M B) : bind (ret a) f = f a.
Proof. unfold bind, ret. destruct (f a). reflexivity. Qed.

Lemma bind_ret_r {A} (m : M A) : bind m ret = m.
Proof.
  destruct m as [l [a|]]; simpl; [|reflexivity].
  rewrite app_nil_r. reflexivity.
Qed.

Lemma bind_assoc {A B C} (m : M A) (f : A -> M B) (g : B -> M C) :
  bind (bind m f) g = bind m (fun a => bind (f a) g).
Proof.
  destruct m as [l [a|]]; simpl; [|reflexivity].
  destruct (f a) as [l1 [b|]]; simpl; [|reflexivity].
  destruct (g b) as [l2 r]. rewrite app_assoc. reflexivity.
Qed.

Lemma for_each_single {S} k (body : string -> S -> M S) s :
  for_each [k] body s = body k s.
Proof. simpl. apply bind_ret_r. Qed.

(** ** C2: the built-in selectors *)



(** ** Unfolding the compiler *)

Lemma for_each_ext {S} ks (body body' : string -> S -> M S) s :
  (forall k s, In k ks -> body k s = body' k s) ->
  for_each ks body s = for_each ks body' s.
Proof.
  revert s; induction ks as [|k r IH]; intros s H; simpl; [reflexivity|].
  rewrite (H k s) by (left; reflexivity).
  destruct (body' k s) as [l [s'|]]; simpl; [|reflexivity].
  rewrite IH; [reflexivity|]. intros; apply H; right; assumption.
Qed.

Lemma compile_selector_map theme selectors control output propName o :
  mutableCompileSxProperty theme selectors control output propName (VObj o)
  = for_each (Obj.keys o)
      (branch_of theme selectors control propName o) output.
Proof.
  cbn [mutableCompileSxProperty]. apply for_each_ext. intros k s _.
  unfold branch_of.
  induction o as [|[k0 v0] r IH]; cbn [Obj.get]; [reflexivity|].
  destruct (k =? k0); [reflexivity|exact IH].
Qed.

(** A single specification with a single property, and no maps. *)
Lemma merge_single P (x : value) :
  mergeSx (sx_of_array (ensureTruthyArray (SxOne (SxObj [(P, x)]))))
  = [(P, x)].
Proof.
  change (Obj.assign [] [(P, x)] = [(P, x)]).
  unfold Obj.assign. rewrite ObjFacts.keys_single. cbn.
  rewrite String.eqb_refl. reflexivity.
Qed.


(** ** C1: the default-selector law *)




(** ** C4: maps are expanded before selectors are compiled *)

(** One specification, whatever its properties. *)
Lemma merge_one (o : SxObject) :
  mergeSx (sx_of_array (ensureTruthyArray (SxOne (SxObj o))))
  = Obj.assign [] o.
Proof. reflexivity. Qed.

(** C4: map expansion happens before selector compilation.  With
    [maps = { color: (v) => ({ fill: v }) }] and
    [sx = { color: { default: 'black', hover: 'red' } }], the map function is
    called first, on the whole selector map, and the output is exactly
    [{ fill: 'black', "&:hover": { fill: 'red' } }].  In general, for a
    table with one key [K] and a specification with the property [K], of
    any value [x]: the map function is called with [x] as it is, and the
    call then goes on as the call without maps on the specification that
    the map function returned. *)
Theorem map_expansion_law :
  (forall theme context : option Theme,
     useSx (theme_context context)
       {| Options.control := None;
          Options.maps := Some [("color", fill_map)];
          Options.selectors := None;
          Options.theme := theme;
          Options.sx := SxOne (SxObj
            [("color", VObj [("default", VStr "black");
                             ("hover", VStr "red")])])
       |}
     = ([CallMap "color"
           (VObj [("default", VStr "black"); ("hover", VStr "red")])
           (effective_theme theme context);
         CallSelector "hover" (effective_theme theme context) None],
        Ok (CObj [("fill", CStr "black");
                  ("&:hover", CObj [("fill", CStr "red")])])))
  /\ (forall registry context control selectors theme K (m : SxMap) x,
        createUseSx registry context
          {| Options.control := control;
             Options.maps := Some [(K, m)];
             Options.selectors := selectors;
             Options.theme := theme;
             Options.sx := SxOne (SxObj [(K, x)]) |}
        = (tell (CallMap K x (effective_theme theme (ThemeContext context)))
           ;;
           createUseSx registry context
             {| Options.control := control;
                Options.maps := None;
                Options.selectors := selectors;
                Options.theme := theme;
                Options.sx :=
                  SxOne (SxObj
                    (m x (effective_theme theme (ThemeContext context))))
             |})).
Proof.
  split; [reflexivity|].
  intros registry context control selectors theme K m x.
  unfold createUseSx, compileSx, themedCSS.
  cbn [Options.sx Options.maps Options.theme Options.control
       Options.selectors expand_maps].
  rewrite merge_single, merge_one, ObjFacts.keys_single, for_each_single.
  unfold expand_map. cbn [Obj.get Obj.delete or_undefined].
  rewrite String.eqb_refl. cbn [Obj.delete].
  rewrite bind_assoc, !bind_ret_l. reflexivity.
Qed.

(** ** C5: map functions and absent keys *)

Lemma expand_map_calls maps theme key styleObject :
  Obj.get key maps <> None ->
  map_calls (calls (expand_map maps theme key styleObject)) = [key]
  /\ exists s, outcome (expand_map maps theme key styleObject) = Ok s.
Proof.
  unfold expand_map. destruct (Obj.get key maps) as [m|]; [|congruence].
  intros _. cbn. eauto.
Qed.


Lemma map_calls_app l l' :
  map_calls (l ++ l') = (map_calls l ++ map_calls l')%list.
Proof. unfold map_calls. apply flat_map_app. Qed.

Lemma for_each_expand_map_calls maps theme ks styleObject :
  (forall k, In k ks -> Obj.get k maps <> None) ->
  map_calls (calls (for_each ks (expand_map maps theme) styleObject)) = ks.
Proof.
  revert styleObject; induction ks as [|k r IH]; intros s H; [reflexivity|].
  cbn [for_each].
  destruct (expand_map_calls maps theme k s) as [Hc [s' Ho]];
    [apply H; left; reflexivity|].
  destruct (expand_map maps theme k s) as [l res].
  unfold calls, outcome in *. cbn [fst snd] in Hc, Ho. subst res.
  specialize (IH s' (fun k' Hk => H k' (or_intror Hk))).
  cbn [bind]. destruct (for_each r (expand_map maps theme) s') as [l' res'].
  cbn [fst] in IH |- *. rewrite map_calls_app, Hc, IH. reflexivity.
Qed.

(** What the code does instead of C5: every map function of the table is
    called, once and in key order, whatever the specification holds. *)
Lemma expand_maps_calls_every_map maps theme styleObject :
  map_calls (calls (expand_maps (Some maps) theme styleObject))
  = Obj.keys maps.
Proof.
  cbn [expand_maps]. apply for_each_expand_map_calls.
  intros k Hk. apply ObjFacts.keys_get. exact Hk.
Qed.

(** C5 (code defect): with [maps = { color: (v) => ({ fill: v }) }] and
    [sx = { fill: 'blue' }] the key [color] is absent from the specification,
    yet its map function is called, with [undefined], and its result
    [{ fill: undefined }] replaces the caller's [fill]: the output is
    empty.  In general the loop calls the map function of every key of the
    table, in key order, whatever the specification holds. *)
Theorem map_called_on_absent_key :
  (forall theme context : option Theme,
     useSx (theme_context context)
       {| Options.control := None;
          Options.maps := Some [("color", fill_map)];
          Options.selectors := None;
          Options.theme := theme;
          Options.sx := SxOne (SxObj [("fill", VStr "blue")]) |}
     = ([CallMap "color" VUndefined (effective_theme theme context)],
        Ok (CObj [])))
  /\ (forall maps theme styleObject,
        map_calls (calls (expand_maps (Some maps) theme styleObject))
        = Obj.keys maps).
Proof.
  split; [reflexivity|].
  intros maps theme styleObject. apply expand_maps_calls_every_map.
Qed.

(** ** C6: theme functions *)




(** ** C3: a resolver that returns [null] *)

Lemma same_but_refl {A} name (m : M A) : same_but name m m.
Proof. split; reflexivity. Qed.

Lemma same_but_bind {A B} name (m m' : M A) (f f' : A -> M B) :
  same_but name m m' ->
  (forall a, same_but name (f a) (f' a)) ->
  same_but name (bind m f) (bind m' f').
Proof.
  unfold same_but, outcome, calls.
  destruct m as [l [a|]], m' as [l' [a'|]]; intros [Ho Hc] Hf;
    cbn [fst snd] in Ho, Hc; try discriminate Ho.
  - injection Ho as <-. specialize (Hf a). cbn [bind].
    destruct (f a) as [l1 r1], (f' a) as [l1' r1']. cbn [fst snd] in *.
    destruct Hf as [Ho' Hc'].
    split; [exact Ho'|]. rewrite !filter_app, Hc, Hc'. reflexivity.
  - split; [reflexivity|exact Hc].
Qed.

(** The loop body on a branch whose resolver returns [null]: the resolver
    is called, nothing else happens, the output is as it was. *)
Lemma compile_branch_null recur theme (selectors : SxSelectors) control name
    (r : SxSelector) output :
  name <> "default" ->
  Obj.get name selectors = Some r ->
  r theme control = None ->
  compile_branch recur theme selectors control name output
  = ([CallSelector name theme control], Ok output).
Proof.
  intros Hd Hr Hn. unfold compile_branch, resolve.
  destruct (String.eqb_spec name "default"); [contradiction|].
  rewrite Hr. cbn. rewrite Hn. reflexivity.
Qed.

Lemma for_each_skip name (body body' : string -> css -> M css) ks s :
  (forall s, In name ks ->
     exists e, not_call_of name e = false /\ body name s = ([e], Ok s)) ->
  (forall k s, k <> name -> body k s = body' k s) ->
  same_but name (for_each ks body s)
    (for_each (filter (Obj.other_than name) ks) body' s).
Proof.
  intros Hname Hother. revert s.
  induction ks as [|k r IH]; intros s; cbn [for_each filter].
  - apply same_but_refl.
  - assert (IH' : forall s, same_but name (for_each r body s)
              (for_each (filter (Obj.other_than name) r) body' s)).
    { apply IH. intros s' Hin. apply Hname. right. exact Hin. }
    unfold Obj.other_than at 1.
    destruct (String.eqb_spec name k) as [<-|Hne]; cbn [negb].
    + destruct (Hname s (or_introl eq_refl)) as [e [He Hb]]. rewrite Hb.
      destruct (IH' s) as [Ho Hc]. unfold same_but, outcome, calls in *.
      cbn [bind]. destruct (for_each r body s) as [l res].
      cbn [fst snd app filter] in *.
      split; [exact Ho|]. rewrite He. exact Hc.
    + cbn [for_each]. rewrite (Hother k s) by congruence.
      apply same_but_bind; [apply same_but_refl|]. exact IH'.
Qed.

(** C3: when the resolver of a branch [name] of a selector map returns
    [null], compiling the selector map ends exactly as compiling it without
    that branch -- no key, no empty sub-object -- and makes the same calls,
    but for the call of that resolver: nothing nested under the branch is
    evaluated. *)
Theorem null_skip_law theme (selectors : SxSelectors) control output P o name
    (r : SxSelector) :
  name <> "default" ->
  Obj.get name selectors = Some r ->
  r theme control = None ->
  same_but name
    (mutableCompileSxProperty theme selectors control output P (VObj o))
    (mutableCompileSxProperty theme selectors control output P
       (VObj (Obj.delete name o))).
Proof.
  intros Hd Hr Hn. rewrite !compile_selector_map, ObjFacts.keys_delete.
  apply for_each_skip.
  - intros s Hin. exists (CallSelector name theme control). split.
    + cbn. rewrite String.eqb_refl. reflexivity.
    + unfold branch_of. apply ObjFacts.keys_get in Hin.
      destruct (Obj.get name o) as [v|]; [|congruence].
      apply compile_branch_null with (r := r); assumption.
  - intros k s Hk. unfold branch_of. rewrite ObjFacts.get_delete.
    destruct (String.eqb_spec k name); [contradiction|reflexivity].
Qed.

Lemma null_skip_law_witness :
  same_but "hover"
    (mutableCompileSxProperty [] defaultSelectors
       (Some {| select := fun s => ".btn" ++ s; active := None;
                checked := None; disabled := None; focus := None;
                hover := Some false |})
       (CObj []) "color"
       (VObj [("default", VStr "black");
              ("hover", VFun (fun _ => LStr "red"))]))
    (mutableCompileSxProperty [] defaultSelectors
       (Some {| select := fun s => ".btn" ++ s; active := None;
                checked := None; disabled := None; focus := None;
                hover := Some false |})
       (CObj []) "color"
       (VObj [("default", VStr "black")])).
Proof.
  apply (null_skip_law [] defaultSelectors _ (CObj []) "color"
           [("default", VStr "black"); ("hover", VFun (fun _ => LStr "red"))]
           "hover" (createDefaultSelector Hover)).
  - discriminate.
  - reflexivity.
  - reflexivity.
Defined.

(** The boundary says "not hovered": the hover branch leaves no trace and
    its theme function is not called. *)
Example null_skip_example :
  useSx
    {| ControlContext :=
         Some {| select := fun s => ".btn" ++ s; active := None;
                 checked := None; disabled := None; focus := None;
                 hover := Some false |};
       ThemeContext := None |}
    (sx_props None (SxOne (SxObj
       [("color", VObj [("default", VStr "black");
                        ("hover", VFun (fun _ => LStr "red"))])])))
  = ([CallSelector "hover" []
        (Some {| select := fun s => ".btn" ++ s; active := None;
                 checked := None; disabled := None; focus := None;
                 hover := Some false |})],
     Ok (CObj [("color", CStr "black")])).
Proof. reflexivity. Qed.

(** ** C10: a selector with nothing to write under it *)

(** [isPlainObject] is the test of the selector-map branch. *)
Lemma isPlainObject_selector_map x :
  isPlainObject x = true <-> exists o, x = VObj o.
Proof.
  split.
  - destruct x; cbn; intros H; try discriminate H. eexists. reflexivity.
  - intros [o ->]. reflexivity.
Qed.





(** The same through the hook. *)
Example empty_sublevel_example :
  outcome (useSx no_context
    (sx_props None (SxOne (SxObj
       [("color", VObj [("hover", VArr [VStr "red"])])]))))
  = Ok (CObj [("&:hover", CObj [])]).
Proof. reflexivity. Qed.

(** ** C7: merging *)

Lemma get_fold_assign k (l : list SxObject) (acc : SxObject) :
  Obj.get k (fold_left (fun acc x => Obj.assign acc x) l acc)
  = fold_left
      (fun found o =>
         match Obj.get k o with
         | Some v => Some v
         | None => found
         end)
      l (Obj.get k acc).
Proof.
  revert acc; induction l as [|o r IH]; intros acc; cbn [fold_left];
    [reflexivity|].
  rewrite IH, ObjFacts.get_assign. reflexivity.
Qed.

(** Whatever the sequence, a property of the merged specification has the
    value that the last specification defining it gives it. *)
Lemma mergeSx_last_wins k sx :
  Obj.get k (mergeSx sx) = last_wins k (ensureTruthyArray sx).
Proof. unfold mergeSx, last_wins. apply get_fold_assign. Qed.


(** The example of the README. *)
Example mergeSx_readme :
  Obj.get "color"
    (mergeSx (SxArray [SxLeaf SxFalsy;
                       SxLeaf (SxObj [("color", VStr "inherit")]);
                       SxLeaf (SxObj [("color", VStr "black")])]))
  = Some (VStr "black").
Proof. reflexivity. Qed.

(** * The store: what the compiler assigns to *)

Module StoreFacts.
Import Store StoreSpec.
Local Open Scope store_scope.

(** ** Cells *)

Lemma nth_error_replace_same l c (h : heap) :
  l < length h -> nth_error (replace l c h) l = Some c.
Proof.
  revert l; induction h as [|c' r IH]; intros [|l] H; cbn in *; try lia.
  - reflexivity.
  - apply IH. lia.
Qed.

Lemma nth_error_replace_other l l' c (h : heap) :
  l <> l' -> nth_error (replace l c h) l' = nth_error h l'.
Proof.
  revert l l'; induction h as [|c' r IH]; intros [|l] [|l'] H; cbn;
    try reflexivity; try congruence.
  apply IH. congruence.
Qed.

Lemma length_replace l c (h : heap) : length (replace l c h) = length h.
Proof.
  revert l; induction h as [|c' r IH]; intros [|l]; cbn; try reflexivity.
  rewrite IH. reflexivity.
Qed.

Lemma agree_refl n h : agree n h h.
Proof. intros l _. reflexivity. Qed.

Lemma agree_trans n h1 h2 h3 : agree n h1 h2 -> agree n h2 h3 -> agree n h1 h3.
Proof. intros H12 H23 l Hl. rewrite H23, H12 by exact Hl. reflexivity. Qed.

Lemma agree_le n n' h h' : n <= n' -> agree n' h h' -> agree n h h'.
Proof. intros Hle H l Hl. apply H. lia. Qed.

Lemma agree_alloc n h c : n <= length h -> agree n h (h ++ [c])%list.
Proof. intros Hn l Hl. apply nth_error_app1. lia. Qed.

Lemma agree_replace n h l c : n <= l -> agree n h (replace l c h).
Proof. intros Hn l' Hl. apply nth_error_replace_other. lia. Qed.

Lemma agree_preserves h h' : agree (length h) h h' -> preserves h h'.
Proof.
  intros H l c Hc. rewrite H; [exact Hc|].
  apply nth_error_Some. congruence.
Qed.

Lemma preserves_agree h h' : preserves h h' -> agree (length h) h h'.
Proof.
  intros H l Hl. destruct (nth_error h l) as [c|] eqn:E.
  - apply H, E.
  - apply nth_error_None in E. lia.
Qed.

Lemma preserves_length h h' : preserves h h' -> length h <= length h'.
Proof.
  intros H. destruct h as [|c r] using rev_ind; [cbn; lia|].
  clear IHr. rewrite length_app. cbn.
  assert (E : nth_error (r ++ [c])%list (length r) = Some c).
  { rewrite nth_error_app2 by lia. rewrite Nat.sub_diag. reflexivity. }
  apply H in E. assert (length r < length h');
    [apply nth_error_Some; congruence|lia].
Qed.

(** ** The logic of runs *)

Section Triples.
Variable Inv : heap -> Prop.
Variable n : nat.

Lemma triple_ret {A} (a : A) (Q : A -> Prop) :
  Q a -> triple Inv n (ret a) Q.
Proof.
  intros HQ h h' r Hn Hi E. injection E as <- <-.
  repeat split; auto using agree_refl. intros a' [= <-]. exact HQ.
Qed.

Lemma triple_fail {A} (m : HM A) (Q : A -> Prop) :
  (forall h, exists r, m h = (h, r) /\ forall a, r <> Done a) ->
  triple Inv n m Q.
Proof.
  intros Hm h h' r Hn Hi E. destruct (Hm h) as [r' [E' Hr]].
  rewrite E' in E. injection E as <- <-.
  repeat split; auto using agree_refl. intros a Ha. destruct (Hr a Ha).
Qed.

Lemma triple_throw {A} (Q : A -> Prop) : triple Inv n throw Q.
Proof.
  apply triple_fail. intros h.
  eexists; split; [reflexivity|discriminate].
Qed.

Lemma triple_untyped {A} (Q : A -> Prop) : triple Inv n untyped Q.
Proof.
  apply triple_fail. intros h.
  eexists; split; [reflexivity|discriminate].
Qed.

Lemma triple_out_of_fuel {A} (Q : A -> Prop) : triple Inv n out_of_fuel Q.
Proof.
  apply triple_fail. intros h.
  eexists; split; [reflexivity|discriminate].
Qed.

Lemma triple_bind {A B} (m : HM A) (f : A -> HM B) Q Q' :
  triple Inv n m Q ->
  (forall a, Q a -> triple Inv n (f a) Q') ->
  triple Inv n (bind m f) Q'.
Proof.
  intros Hm Hf h h' r Hn Hi E. unfold bind in E.
  destruct (m h) as [h1 r1] eqn:E1.
  destruct (Hm h h1 r1 Hn Hi E1) as (Hn1 & Hi1 & Ha1 & HQ).
  destruct r1 as [a| | |];
    try (injection E as <- <-; repeat split; auto; discriminate).
  assert (Hn1' : n <= length h1) by lia.
  destruct (Hf a (HQ a eq_refl) h1 h' r Hn1' Hi1 E)
    as (Hn2 & Hi2 & Ha2 & HQ').
  repeat split; auto; [lia|]. eapply agree_trans; eassumption.
Qed.

Lemma triple_weaken {A} (m : HM A) (Q Q' : A -> Prop) :
  triple Inv n m Q -> (forall a, Q a -> Q' a) -> triple Inv n m Q'.
Proof.
  intros Hm HQ h h' r Hn Hi E.
  destruct (Hm h h' r Hn Hi E) as (? & ? & ? & H). repeat split; auto.
Qed.

Lemma triple_for_each {K} (ks : list K) (body : K -> HM unit) :
  (forall k, In k ks -> triple Inv n (body k) any) ->
  triple Inv n (for_each ks body) any.
Proof.
  induction ks as [|k r IH]; intros H; cbn [for_each].
  - apply triple_ret. exact I.
  - eapply triple_bind; [apply H; left; reflexivity|].
    intros _ _. apply IH. intros k' Hk'. apply H. right. exact Hk'.
Qed.

(** A step that reads only. *)
Lemma triple_read {A} (m : HM A) (Q : A -> Prop) :
  (forall h, Inv h -> exists r, m h = (h, r) /\ forall a, r = Done a -> Q a) ->
  triple Inv n m Q.
Proof.
  intros Hm h h' r Hn Hi E. destruct (Hm h Hi) as [r' [E' Hr]].
  rewrite E' in E. injection E as <- <-.
  repeat split; auto using agree_refl.
Qed.

Lemma triple_load l : triple Inv n (load l) any.
Proof.
  apply triple_read. intros h _. unfold load.
  destruct (nth_error h l); eexists; split; try reflexivity; intros; exact I.
Qed.

Lemma triple_load_theme v : triple Inv n (load_theme v) any.
Proof.
  destruct v; cbn [load_theme]; try apply triple_untyped.
  eapply triple_bind; [apply triple_load|]. intros [ | | | ] _;
    try apply triple_untyped. apply triple_ret. exact I.
Qed.

Lemma triple_load_control v : triple Inv n (load_control v) any.
Proof.
  destruct v; cbn [load_control]; try apply triple_untyped.
  - apply triple_ret. exact I.
  - eapply triple_bind; [apply triple_load|]. intros [ | | | ] _;
      try apply triple_untyped. apply triple_ret. exact I.
Qed.

Lemma triple_keys_of v : triple Inv n (keys_of v) any.
Proof.
  destruct v; cbn [keys_of]; try apply triple_untyped.
  eapply triple_bind; [apply triple_load|]. intros [ | | | ] _;
    try apply triple_untyped. apply triple_ret. exact I.
Qed.

Lemma triple_get_prop_any v k : triple Inv n (get_prop v k) any.
Proof.
  destruct v; cbn [get_prop]; try apply triple_untyped;
    try (apply triple_ret; exact I).
  eapply triple_bind; [apply triple_load|]. intros [ | | | ] _;
    try apply triple_untyped. apply triple_ret. exact I.
Qed.

Lemma triple_flatten_item v : triple Inv n (flatten_item v) any.
Proof.
  destruct v; cbn [flatten_item]; try (apply triple_ret; exact I).
  eapply triple_bind; [apply triple_load|]. intros [ | | | ] _;
    apply triple_ret; exact I.
Qed.

Lemma triple_flatten items : triple Inv n (flatten items) any.
Proof.
  induction items as [|v r IH]; cbn [flatten].
  - apply triple_ret. exact I.
  - eapply triple_bind; [apply triple_flatten_item|]. intros a _.
    eapply triple_bind; [apply IH|]. intros b _. apply triple_ret. exact I.
Qed.

Lemma triple_resolve theme selectors control name :
  triple Inv n (resolve theme selectors control name) any.
Proof.
  unfold resolve. destruct (Obj.get name selectors).
  - eapply triple_bind; [apply triple_load_theme|]. intros t _.
    eapply triple_bind; [apply triple_load_control|]. intros c _.
    apply triple_ret. exact I.
  - apply triple_ret. exact I.
Qed.

End Triples.

(** ** Merging and map expansion write the merged copy only *)

Lemma new_object_fresh n v : new_object n v -> fresh_ref n v.
Proof. intros [l [-> H]]. exact H. Qed.

Lemma triple_alloc n c : triple no_inv n (alloc c) (new_object n).
Proof.
  intros h h' r Hn _ E. injection E as <- <-.
  rewrite length_app. cbn [length].
  repeat split; [lia|auto using agree_alloc|].
  intros a [= <-]. exists (length h). auto.
Qed.

Lemma triple_update n l c : n <= l -> triple no_inv n (update l c) any.
Proof.
  intros Hl h h' r Hn _ E. injection E as <- <-.
  rewrite length_replace.
  repeat split; auto using agree_replace.
Qed.

Lemma triple_set_prop n v k x :
  fresh_ref n v -> triple no_inv n (set_prop v k x) any.
Proof.
  destruct v; cbn [set_prop fresh_ref]; intros Hv;
    try apply triple_throw; try apply triple_untyped.
  eapply triple_bind; [apply triple_load|]. intros [o| | | ] _;
    try apply triple_untyped. apply triple_update, Hv.
Qed.

Lemma triple_delete_prop n v k :
  fresh_ref n v -> triple no_inv n (delete_prop v k) any.
Proof.
  destruct v; cbn [delete_prop fresh_ref]; intros Hv;
    try apply triple_untyped.
  eapply triple_bind; [apply triple_load|]. intros [o| | | ] _;
    try apply triple_untyped. apply triple_update, Hv.
Qed.

Lemma triple_assign n target source :
  fresh_ref n target -> triple no_inv n (assign target source) any.
Proof.
  intros Ht. unfold assign.
  eapply triple_bind; [apply triple_keys_of|]. intros ks _.
  apply triple_for_each. intros k _.
  eapply triple_bind; [apply triple_get_prop_any|]. intros x _.
  apply triple_set_prop, Ht.
Qed.

Lemma triple_ensureTruthyArray n sx :
  triple no_inv n (ensureTruthyArray sx) (new_object n).
Proof.
  unfold ensureTruthyArray.
  eapply triple_bind; [apply triple_flatten_item|]. intros items _.
  eapply triple_bind; [apply triple_flatten|]. intros flat _.
  apply triple_alloc.
Qed.

Lemma triple_mergeSx n sx : triple no_inv n (mergeSx sx) (new_object n).
Proof.
  unfold mergeSx.
  eapply triple_bind; [apply triple_ensureTruthyArray|]. intros arr _.
  eapply triple_bind; [apply triple_flatten_item|]. intros items _.
  eapply triple_bind; [apply triple_alloc|]. intros acc Hacc.
  eapply triple_bind.
  - apply triple_for_each. intros x _.
    apply triple_assign, new_object_fresh, Hacc.
  - intros _ _. apply triple_ret, Hacc.
Qed.

Lemma triple_map_pure n (m : SxMap) v t :
  map_pure m -> triple no_inv n (m v t) any.
Proof.
  intros Hm h h' r Hn _ E. apply Hm in E.
  pose proof (preserves_length _ _ E).
  split; [lia|]. split; [exact I|]. split; [|intros; exact I].
  apply agree_le with (n' := length h); [exact Hn|].
  apply preserves_agree, E.
Qed.

Lemma triple_expand_map n maps theme styleObject key :
  (forall key m, Obj.get key maps = Some m -> map_pure m) ->
  fresh_ref n styleObject ->
  triple no_inv n (expand_map maps theme styleObject key) any.
Proof.
  intros Hmaps Hs. unfold expand_map.
  destruct (Obj.get key maps) as [m|] eqn:E; [|apply triple_ret; exact I].
  eapply triple_bind; [apply triple_get_prop_any|]. intros mapValue _.
  eapply triple_bind; [apply triple_delete_prop, Hs|]. intros _ _.
  eapply triple_bind; [apply triple_load_theme|]. intros t _.
  eapply triple_bind; [apply triple_map_pure, (Hmaps key m E)|].
  intros mapped _. apply triple_assign, Hs.
Qed.

(** ** Compiling writes the output and its sub-levels only *)

Lemma closed_above_alloc b h :
  b <= length h -> closed_above b h ->
  closed_above b (h ++ [Object []])%list.
Proof.
  intros Hb Hc l o k l' Hl E G.
  destruct (Nat.lt_ge_cases l (length h)) as [Hlt|Hge].
  - rewrite nth_error_app1 in E by exact Hlt. eapply Hc; eassumption.
  - rewrite nth_error_app2 in E by exact Hge.
    destruct (l - length h) as [|[|i]]; cbn in E; try discriminate E.
    injection E as <-. discriminate G.
Qed.

Lemma triple_alloc_closed b :
  triple (closed_above b) b (alloc (Object [])) (fresh_ref b).
Proof.
  intros h h' r Hn Hi E. injection E as <- <-.
  rewrite length_app. cbn [length].
  repeat split; [lia|auto using closed_above_alloc|auto using agree_alloc|].
  intros a [= <-]. exact Hn.
Qed.


Lemma triple_get_prop_closed b v k :
  fresh_ref b v -> triple (closed_above b) b (get_prop v k) (fresh_ref b).
Proof.
  intros Hv. apply triple_read. intros h Hi.
  destruct v; cbn [get_prop fresh_ref] in *;
    try (eexists; split; [reflexivity|]; intros a [= <-]; exact I);
    try (eexists; split; [reflexivity|]; discriminate).
  unfold bind, load. destruct (nth_error h l) as [[o| | | ]|] eqn:E;
    try (eexists; split; [reflexivity|]; discriminate).
  eexists; split; [reflexivity|]. intros a [= <-].
  destruct (Obj.get k o) as [[ | | | | | |l']|] eqn:G; cbn; auto.
  eapply Hi; eassumption.
Qed.

Lemma triple_set_prop_closed b v k x :
  fresh_ref b v -> fresh_ref b x ->
  triple (closed_above b) b (set_prop v k x) any.
Proof.
  intros Hv Hx.
  destruct v; cbn [set_prop fresh_ref] in *;
    try apply triple_throw; try apply triple_untyped.
  intros h h' r Hn Hi E. unfold bind, load, update in E.
  destruct (nth_error h l) as [[o| | | ]|] eqn:El;
    try (injection E as <- <-;
         repeat split; auto using agree_refl; discriminate).
  injection E as <- <-. rewrite length_replace.
  repeat split; auto using agree_replace.
  intros l1 o1 k1 l2 Hl1 E1 G1.
  destruct (Nat.eq_dec l l1) as [<-|Hne].
  - rewrite nth_error_replace_same in E1
      by (apply nth_error_Some; congruence).
    injection E1 as <-. rewrite ObjFacts.get_set in G1.
    destruct (k1 =? k).
    + injection G1 as ->. exact Hx.
    + eapply Hi; eassumption.
  - rewrite nth_error_replace_other in E1 by exact Hne.
    eapply Hi; eassumption.
Qed.

Lemma triple_compile_branch b recur theme selectors control output x name :
  (forall subOutput v,
     fresh_ref b subOutput ->
     triple (closed_above b) b (recur subOutput v) any) ->
  fresh_ref b output ->
  triple (closed_above b) b
    (compile_branch recur theme selectors control output x name) any.
Proof.
  intros Hrec Hout. unfold compile_branch.
  destruct (name =? "default").
  - eapply triple_bind; [apply triple_get_prop_any|]. intros v _.
    apply Hrec, Hout.
  - eapply triple_bind; [apply triple_resolve|]. intros [s|] _;
      [|apply triple_ret; exact I].
    destruct (s =? ""); [apply triple_ret; exact I|].
    eapply triple_bind; [apply triple_get_prop_any|]. intros cur _.
    eapply triple_bind with (Q := any).
    + destruct (truthy cur); [apply triple_ret; exact I|].
      eapply triple_bind; [apply triple_alloc_closed|]. intros fresh Hf.
      apply triple_set_prop_closed; assumption.
    + intros _ _.
      eapply triple_bind; [apply triple_get_prop_closed, Hout|].
      intros subOutput Hsub.
      eapply triple_bind; [apply triple_get_prop_any|]. intros v _.
      apply Hrec, Hsub.
Qed.

Lemma fresh_ref_literal b l : fresh_ref b (of_literal l).
Proof. destruct l; exact I. Qed.

Lemma triple_compile_property b fuel theme selectors control output P x :
  fresh_ref b output ->
  triple (closed_above b) b
    (mutableCompileSxProperty fuel theme selectors control output P x) any.
Proof.
  revert output x. induction fuel as [|fuel IH]; intros output x Hout;
    cbn [mutableCompileSxProperty]; [apply triple_out_of_fuel|].
  destruct x; try (apply triple_ret; exact I).
  - apply triple_set_prop_closed; [exact Hout|exact I].
  - apply triple_set_prop_closed; [exact Hout|exact I].
  - eapply triple_bind; [apply triple_load_theme|]. intros t _.
    apply triple_set_prop_closed; [exact Hout|apply fresh_ref_literal].
  - eapply triple_bind; [apply triple_load|]. intros [o| | | ] _;
      try (apply triple_ret; exact I).
    apply triple_for_each. intros name _.
    apply triple_compile_branch; [|exact Hout].
    intros subOutput v Hsub. apply IH, Hsub.
Qed.

(** Once [output] is allocated, the rest of the run stays above it. *)
Lemma triple_alloc_output {A} n (f : hval -> HM A) (Q : A -> Prop) :
  (forall b, n <= b -> triple (closed_above b) b (f (HRef b)) Q) ->
  triple no_inv n (bind (alloc (Object [])) f) Q.
Proof.
  intros Hf h h' r Hn _ E. unfold bind, alloc in E.
  assert (Hb : length h <= length (h ++ [Object []])%list)
    by (rewrite length_app; cbn; lia).
  destruct (Hf (length h) Hn (h ++ [Object []])%list h' r Hb)
    as (H1 & _ & H3 & H4).
  - apply closed_above_alloc; [lia|].
    intros l o k l' Hl El.
    assert (l < length h) by (apply nth_error_Some; congruence). lia.
  - exact E.
  - repeat split; [lia| |exact H4].
    eapply agree_trans; [apply agree_alloc, Hn|].
    eapply agree_le; [exact Hn|exact H3].
Qed.

Lemma triple_themedCSS n fuel options theme :
  maps_pure (maps options) ->
  triple no_inv n (themedCSS fuel options theme) (new_object n).
Proof.
  intros Hmaps. unfold themedCSS.
  eapply triple_bind; [apply triple_mergeSx|]. intros styleObject Hs.
  apply new_object_fresh in Hs.
  eapply triple_bind with (Q := any).
  { unfold spread_of. destruct (truthy theme);
      [apply triple_load_theme|apply triple_ret; exact I]. }
  intros t _.
  eapply triple_bind with (Q := any).
  { unfold spread_of. destruct (truthy (Store.theme options));
      [apply triple_load_theme|apply triple_ret; exact I]. }
  intros t' _.
  eapply triple_bind; [apply triple_alloc|]. intros mergedTheme _.
  eapply triple_bind with (Q := any).
  { destruct (maps options) as [ms|] eqn:E; [|apply triple_ret; exact I].
    apply triple_for_each. intros key _.
    apply triple_expand_map; [|exact Hs].
    intros key' m Hm. exact (Hmaps ms key' m eq_refl Hm). }
  intros _ _.
  eapply triple_bind; [apply triple_keys_of|]. intros props _.
  apply triple_alloc_output. intros b Hb.
  eapply triple_bind with (Q := any).
  - apply triple_for_each. intros propName _.
    eapply triple_bind; [apply triple_get_prop_any|]. intros x _.
    apply triple_compile_property. cbn. lia.
  - intros _ _. apply triple_ret. exists b. auto.
Qed.

Lemma triple_compileSx n fuel options :
  maps_pure (maps options) ->
  triple no_inv n (compileSx fuel options) (new_object n).
Proof.
  intros Hmaps. unfold compileSx.
  eapply triple_bind with (Q := any).
  - destruct (truthy (theme options));
      [apply triple_ret; exact I|].
    eapply triple_weaken; [apply triple_alloc|]. intros; exact I.
  - intros theme _. apply triple_themedCSS, Hmaps.
Qed.

Lemma triple_createUseSx n registry fuel context props :
  maps_pure (maps props) ->
  triple no_inv n (createUseSx registry fuel context props) (new_object n).
Proof.
  intros Hmaps. unfold createUseSx.
  eapply triple_bind; [apply triple_ensureTruthyArray|]. intros sx' _.
  apply triple_compileSx. exact Hmaps.
Qed.

Lemma triple_preserves {A} (m : HM A) (Q : A -> Prop) h h' r :
  triple no_inv (length h) m Q -> m h = (h', r) -> preserves h h'.
Proof.
  intros Hm E. destruct (Hm h h' r (le_n _) I E) as (_ & _ & Ha & _).
  apply agree_preserves, Ha.
Qed.

Lemma fill_map_pure : map_pure fill_map.
Proof.
  intros v t h h' r E. injection E as <- _.
  intros l c Hc. rewrite nth_error_app1; [exact Hc|].
  apply nth_error_Some. congruence.
Qed.

End StoreFacts.

(** ** C8: the inputs are not mutated *)

(** C8: however a call of [mergeSx] or of the hook ([compileSx] behind it)
    ends, every object that existed before the call -- the specifications
    and their nested selector maps, arrays, the theme, the Boundary
    Descriptor -- is unchanged after it, provided the map functions
    themselves change no existing object: the deletions and assignments of
    map expansion, and all writes of the compilation, go to objects created
    during the call. *)
Theorem inputs_unchanged :
  (forall sx h h' r,
     Store.mergeSx sx h = (h', r) -> StoreSpec.preserves h h')
  /\ (forall registry fuel context props h h' r,
        StoreSpec.maps_pure (Store.maps props) ->
        Store.createUseSx registry fuel context props h = (h', r) ->
        StoreSpec.preserves h h').
Proof.
  split.
  - intros sx h h' r E.
    eapply StoreFacts.triple_preserves; [apply StoreFacts.triple_mergeSx|].
    exact E.
  - intros registry fuel context props h h' r Hmaps E.
    eapply StoreFacts.triple_preserves;
      [apply StoreFacts.triple_createUseSx, Hmaps|].
    exact E.
Qed.

Lemma inputs_unchanged_witness :
  StoreSpec.preserves StoreSpec.test_heap
    (fst (Store.useSx 3 StoreSpec.test_context StoreSpec.test_props
            StoreSpec.test_heap)).
Proof.
  apply (proj2 inputs_unchanged (Some defaultSelectors) 3
           StoreSpec.test_context StoreSpec.test_props StoreSpec.test_heap
           _ (snd (Store.useSx 3 StoreSpec.test_context StoreSpec.test_props
                     StoreSpec.test_heap))).
  - intros ms key m [= <-] Hm. cbn in Hm.
    destruct (key =? "color"); [|discriminate Hm].
    injection Hm as <-. exact StoreFacts.fill_map_pure.
  - apply surjective_pairing.
Defined.

(** The run of the test on the store: the output is a new object that reads
    back as the output of the pure model, with the boundary's selector. *)
Example store_run_example :
  match Store.useSx 3 StoreSpec.test_context StoreSpec.test_props
          StoreSpec.test_heap with
  | (h', Store.Done out) =>
      Store.readback 3 h' out
      = Some (CObj [("fill", CStr "black");
                    (".btn:hover &", CObj [("fill", CStr "red")])])
      /\ firstn 4 h' = StoreSpec.test_heap
  | _ => False
  end.
Proof. vm_compute. split; reflexivity. Qed.

(** * The store: a second call *)

Module Twice.
Import Store StoreSpec StoreFacts.
Local Open Scope store_scope.

Section Renaming.
Variables n d : nat.









(** ** Runs side by side *)











(** ** The operations on objects *)












(** ** Compiling *)











(** ** Reading back *)



End Renaming.

Lemma read_fields_mono (rb rb' : hval -> option css) o fields :
  (forall x c, rb x = Some c -> rb' x = Some c) ->
  read_fields rb o = Some fields -> read_fields rb' o = Some fields.
Proof.
  intros H. revert fields.
  induction o as [|[k x] r IH]; intros fields E; cbn [read_fields] in *;
    [exact E|].
  destruct (rb x) as [c|] eqn:Ex; [|discriminate E].
  destruct (read_fields rb r) as [r'|]; [|discriminate E].
  rewrite (H x c Ex), (IH r' eq_refl). exact E.
Qed.

Lemma readback_preserves h h' dep v c :
  preserves h h' -> readback dep h v = Some c -> readback dep h' v = Some c.
Proof.
  intros Hp. revert v c.
  induction dep as [|dep IH]; intros v c; destruct v; cbn [readback];
    try (intros E; exact E).
  destruct (nth_error h l) as [c0|] eqn:E; [|discriminate].
  rewrite (Hp l c0 E). destruct c0; try discriminate.
  destruct (read_fields (readback dep h) o) as [fields|] eqn:Ef;
    [|discriminate].
  rewrite (read_fields_mono _ (readback dep h') o fields IH Ef).
  intros H. exact H.
Qed.

(** ** Stores without dangling references *)






End Twice.


(** * The store run refines the pure model *)

Module Refinement.
Import StoreTree.

(** ** Values held by a store *)

Lemma value_induction (P : value -> Prop) :
  P VUndefined -> P VNull -> (forall b, P (VBool b)) ->
  (forall n, P (VNum n)) -> (forall s, P (VStr s)) ->
  (forall f, P (VFun f)) ->
  (forall xs, Forall P xs -> P (VArr xs)) ->
  (forall o, Forall (fun kx => P (snd kx)) o -> P (VObj o)) ->
  forall x, P x.
Proof.
  intros H1 H2 H3 H4 H5 H6 H7 H8.
  fix IH 1.
  intros [ | | | | | |xs|o];
    [apply H1|apply H2|apply H3|apply H4|apply H5|apply H6| | ].
  - apply H7. induction xs as [|x r IHr]; constructor; [apply IH|exact IHr].
  - apply H8. induction o as [|[k x] r IHr]; constructor;
      [apply IH|exact IHr].
Qed.

Lemma holds_obj R h o v :
  holds R h (VObj o) v <->
  exists l ho,
    v = Store.HRef l /\ R l /\
    nth_error h l = Some (Store.Object ho) /\ holds_fields R h o ho.
Proof.
  cbn [holds].
  assert (E : forall o ho,
    (fix all (o : list (string * value)) (ho : Obj.t Store.hval) : Prop :=
       match o, ho with
       | [], [] => True
       | (k, x) :: o', (k', v') :: ho' =>
           k = k' /\ holds R h x v' /\ all o' ho'
       | _, _ => False
       end) o ho <-> holds_fields R h o ho).
  { clear. induction o as [|[k x] r IH]; intros [|[k' v'] r']; cbn;
      try tauto. rewrite IH. tauto. }
  split; intros (l & ho & H1 & H2 & H3 & H4); exists l, ho;
    repeat split; auto; apply E; exact H4.
Qed.

Lemma depth_obj o : depth (VObj o) = S (depth_fields o).
Proof. reflexivity. Qed.

Lemma depth_get k o x : Obj.get k o = Some x -> depth x <= depth_fields o.
Proof.
  induction o as [|[k' x'] r IH]; cbn; [discriminate|].
  destruct (k =? k').
  - intros [= ->]. lia.
  - intros H. specialize (IH H). lia.
Qed.

Lemma holds_fields_keys R h o ho :
  holds_fields R h o ho -> map fst ho = map fst o.
Proof.
  revert ho; induction o as [|[k x] r IH]; intros [|[k' v'] r']; cbn;
    try tauto.
  intros (-> & _ & H). rewrite (IH r' H). reflexivity.
Qed.

Lemma holds_fields_get R h o ho k :
  holds_fields R h o ho ->
  match Obj.get k o with
  | Some x => exists v, Obj.get k ho = Some v /\ holds R h x v
  | None => Obj.get k ho = None
  end.
Proof.
  revert ho; induction o as [|[k0 x] r IH]; intros [|[k' v'] r']; cbn;
    try tauto.
  intros (<- & Hx & H). destruct (k =? k0).
  - exists v'. auto.
  - apply IH, H.
Qed.

Lemma holds_frame R h h' x v :
  (forall l, R l -> nth_error h' l = nth_error h l) ->
  holds R h x v -> holds R h' x v.
Proof.
  intros Hf. revert v.
  induction x as [ | | | | | |xs IH|o IH] using value_induction; intros v;
    cbn [holds]; auto.
  - intros (l & items & -> & Hl & E & H). exists l, items.
    repeat split; auto; [rewrite Hf; assumption|].
    clear E. revert items H.
    induction IH as [|x r Hx _ IHr]; intros [|v' items']; auto.
    intros [H1 H2]. split; [apply Hx, H1|apply IHr, H2].
  - intros (l & ho & -> & Hl & E & H). exists l, ho.
    repeat split; auto; [rewrite Hf; assumption|].
    clear E. revert ho H.
    induction IH as [|[k x] r Hx _ IHr]; intros [|[k' v'] ho']; auto.
    intros (H0 & H1 & H2). repeat split; [exact H0|apply Hx, H1|apply IHr, H2].
Qed.

Lemma holds_fields_frame R h h' o ho :
  (forall l, R l -> nth_error h' l = nth_error h l) ->
  holds_fields R h o ho -> holds_fields R h' o ho.
Proof.
  intros Hf. revert ho.
  induction o as [|[k x] r IH]; intros [|[k' v'] ho']; cbn; auto.
  intros (H0 & H1 & H2).
  repeat split; [exact H0|eapply holds_frame; eassumption|apply IH, H2].
Qed.

Lemma holds_mono (R R' : Store.loc -> Prop) h x v :
  (forall l, R l -> R' l) -> holds R h x v -> holds R' h x v.
Proof.
  intros Hb. revert v.
  induction x as [ | | | | | |xs IH|o IH] using value_induction; intros v;
    cbn [holds]; auto.
  - intros (l & items & -> & Hl & E & H). exists l, items.
    repeat split; auto.
    clear E. revert items H.
    induction IH as [|x r Hx _ IHr]; intros [|v' items']; auto.
    intros [H1 H2]. split; [apply Hx, H1|apply IHr, H2].
  - intros (l & ho & -> & Hl & E & H). exists l, ho.
    repeat split; auto.
    clear E. revert ho H.
    induction IH as [|[k x] r Hx _ IHr]; intros [|[k' v'] ho']; auto.
    intros (H0 & H1 & H2). repeat split; [exact H0|apply Hx, H1|apply IHr, H2].
Qed.

(** ** Trees held by a store *)

Lemma ltree_induction (P : ltree -> Prop) :
  (forall c, P (Leaf c)) ->
  (forall l fields, Forall (fun kt => P (snd kt)) fields ->
                    P (Node l fields)) ->
  forall t, P t.
Proof.
  intros H1 H3. fix IH 1.
  intros [c|l fields]; [apply H1|].
  apply H3. induction fields as [|[k t] r IHr]; constructor;
    [apply IH|exact IHr].
Qed.

Lemma erase_obj l fields : erase (Node l fields) = CObj (erase_fields fields).
Proof. reflexivity. Qed.

Lemma locs_obj l fields : locs (Node l fields) = l :: locs_fields fields.
Proof. reflexivity. Qed.

Lemma models_obj h l fields :
  models h (Node l fields) <->
  nth_error h l = Some (Store.Object (roots fields)) /\
  models_fields h fields.
Proof.
  cbn [models].
  assert (E : (fix all (fields : list (string * ltree)) : Prop :=
                 match fields with
                 | [] => True
                 | (_, t') :: r => models h t' /\ all r
                 end) fields <-> models_fields h fields).
  { induction fields as [|[k t] r IH]; cbn; [tauto|]. rewrite IH. tauto. }
  rewrite E. tauto.
Qed.

Lemma get_erase_fields k fields :
  Obj.get k (erase_fields fields) = option_map erase (Obj.get k fields).
Proof.
  induction fields as [|[k' t] r IH]; cbn; [reflexivity|].
  destruct (k =? k'); [reflexivity|exact IH].
Qed.

Lemma get_roots k fields :
  Obj.get k (roots fields) = option_map root (Obj.get k fields).
Proof.
  induction fields as [|[k' t] r IH]; cbn; [reflexivity|].
  destruct (k =? k'); [reflexivity|exact IH].
Qed.

Lemma erase_fields_set k t fields :
  erase_fields (Obj.set k t fields)
  = Obj.set k (erase t) (erase_fields fields).
Proof.
  induction fields as [|[k' t'] r IH]; cbn; [reflexivity|].
  destruct (k =? k'); cbn; [reflexivity|]. rewrite IH. reflexivity.
Qed.

Lemma roots_set k t fields :
  roots (Obj.set k t fields) = Obj.set k (root t) (roots fields).
Proof.
  induction fields as [|[k' t'] r IH]; cbn; [reflexivity|].
  destruct (k =? k'); cbn; [reflexivity|].
  unfold roots in IH. rewrite IH. reflexivity.
Qed.

Lemma truthy_root t : Store.truthy (root t) = truthy (erase t).
Proof. destruct t as [[n|s]|l fields]; reflexivity. Qed.

Lemma models_frame h h' t :
  (forall l, In l (locs t) -> nth_error h' l = nth_error h l) ->
  models h t -> models h' t.
Proof.
  induction t as [c|l fields IH] using ltree_induction; auto.
  rewrite locs_obj, !models_obj. intros Hf [Hl Hfs]. split.
  - rewrite Hf; [exact Hl|left; reflexivity].
  - assert (Hf' : forall l', In l' (locs_fields fields) ->
                             nth_error h' l' = nth_error h l')
      by (intros l' Hl'; apply Hf; right; exact Hl').
    clear Hf Hl. induction IH as [|[k t] r Ht _ IHr]; cbn in *; auto.
    destruct Hfs as [H1 H2]. split.
    + apply Ht; [|exact H1]. intros l' Hl'. apply Hf', in_or_app. auto.
    + apply IHr; [exact H2|]. intros l' Hl'. apply Hf', in_or_app. auto.
Qed.

Lemma models_fields_frame h h' fields :
  (forall l, In l (locs_fields fields) -> nth_error h' l = nth_error h l) ->
  models_fields h fields -> models_fields h' fields.
Proof.
  induction fields as [|[k t] r IH]; cbn; auto.
  intros Hf [H1 H2]. split.
  - eapply models_frame; [|exact H1]. intros l Hl. apply Hf, in_or_app. auto.
  - apply IH; [|exact H2]. intros l Hl. apply Hf, in_or_app. auto.
Qed.

Lemma locs_get k fields c l :
  Obj.get k fields = Some c -> In l (locs c) -> In l (locs_fields fields).
Proof.
  induction fields as [|[k' t] r IH]; cbn; [discriminate|].
  destruct (k =? k').
  - intros [= ->] H. apply in_or_app. auto.
  - intros H1 H2. apply in_or_app. right. apply IH; assumption.
Qed.

Lemma models_get h k fields c :
  Obj.get k fields = Some c -> models_fields h fields -> models h c.
Proof.
  induction fields as [|[k' t] r IH]; cbn; [discriminate|].
  destruct (k =? k').
  - intros [= ->] [H _]. exact H.
  - intros H1 [_ H2]. apply IH; assumption.
Qed.

Lemma NoDup_app_l {A} (l l' : list A) : NoDup (l ++ l') -> NoDup l.
Proof.
  induction l as [|a r IH]; cbn; [constructor|].
  intros H. inversion H; subst. constructor.
  - intros Ha. apply H2, in_or_app. auto.
  - apply IH. assumption.
Qed.

Lemma NoDup_app_r {A} (l l' : list A) : NoDup (l ++ l') -> NoDup l'.
Proof.
  induction l as [|a r IH]; cbn; [auto|].
  intros H. inversion H; subst. apply IH. assumption.
Qed.

Lemma NoDup_app_apart {A} (l l' : list A) a :
  NoDup (l ++ l') -> In a l -> In a l' -> False.
Proof.
  induction l as [|b r IH]; cbn; [tauto|].
  intros H [->|Ha] Ha'; inversion H; subst.
  - apply H2, in_or_app. auto.
  - apply IH; assumption.
Qed.

Lemma NoDup_get k fields c :
  Obj.get k fields = Some c -> NoDup (locs_fields fields) -> NoDup (locs c).
Proof.
  induction fields as [|[k' t] r IH]; cbn; [discriminate|].
  destruct (k =? k').
  - intros [= ->] H. eapply NoDup_app_l, H.
  - intros H1 H2. apply IH; [exact H1|]. eapply NoDup_app_r, H2.
Qed.

(** Replacing the sub-tree at [k]. *)
Lemma locs_set k t fields l :
  In l (locs_fields (Obj.set k t fields)) ->
  In l (locs t) \/ In l (locs_fields fields).
Proof.
  induction fields as [|[k' t'] r IH]; cbn.
  - rewrite app_nil_r. auto.
  - destruct (k =? k'); cbn; rewrite !in_app_iff; [tauto|].
    intros [H|H]; [tauto|]. destruct (IH H); tauto.
Qed.

Lemma NoDup_set k t fields :
  NoDup (locs_fields fields) -> NoDup (locs t) ->
  (forall l, In l (locs t) -> In l (locs_fields fields) ->
             exists c, Obj.get k fields = Some c /\ In l (locs c)) ->
  NoDup (locs_fields (Obj.set k t fields)).
Proof.
  induction fields as [|[k' t'] r IH]; cbn; intros Hf Ht Hov.
  - rewrite app_nil_r. exact Ht.
  - destruct (k =? k') eqn:E; cbn.
    + apply NoDup_app; [exact Ht|eapply NoDup_app_r, Hf|].
      intros l Hl Hr.
      destruct (Hov l Hl) as (c & [= <-] & Hc);
        [apply in_or_app; auto|].
      eapply NoDup_app_apart; eassumption.
    + apply NoDup_app; [eapply NoDup_app_l, Hf| |].
      * apply IH; [eapply NoDup_app_r, Hf|exact Ht|].
        intros l Hl Hr. apply Hov; [exact Hl|]. apply in_or_app. auto.
      * intros l Hl Hs. apply locs_set in Hs. destruct Hs as [Hs|Hs].
        -- destruct (Hov l Hs) as (c & Hc & Hlc);
             [apply in_or_app; auto|].
           eapply NoDup_app_apart;
             [exact Hf|exact Hl|eapply locs_get; eassumption].
        -- eapply NoDup_app_apart; eassumption.
Qed.

(** The sub-trees stay held when the store changes below the replaced
    sub-tree only. *)
Lemma models_fields_set h h' k t fields :
  models_fields h fields -> models h' t ->
  NoDup (locs_fields fields) ->
  (forall l, In l (locs_fields fields) ->
             (forall c, Obj.get k fields = Some c -> ~ In l (locs c)) ->
             nth_error h' l = nth_error h l) ->
  models_fields h' (Obj.set k t fields).
Proof.
  induction fields as [|[k' t'] r IH]; cbn; [auto|].
  intros [H1 H2] Ht Hnd Hf. destruct (k =? k') eqn:E; cbn.
  - split; [exact Ht|]. eapply models_fields_frame; [|exact H2].
    intros l Hl. apply Hf; [apply in_or_app; auto|].
    intros c [= <-] Hc. eapply NoDup_app_apart; eassumption.
  - split.
    + eapply models_frame; [|exact H1]. intros l Hl.
      apply Hf; [apply in_or_app; auto|].
      intros c Hc Hlc. eapply NoDup_app_apart;
        [exact Hnd|exact Hl|eapply locs_get; eassumption].
    + apply IH; [exact H2|exact Ht|eapply NoDup_app_r, Hnd|].
      intros l Hl Hc. apply Hf; [apply in_or_app; auto|exact Hc].
Qed.

(** ** Steps of the store *)

Lemma get_prop_object h l o k :
  nth_error h l = Some (Store.Object o) ->
  Store.get_prop (Store.HRef l) k h
  = (h, Store.Done (Store.or_undefined (Obj.get k o))).
Proof.
  intros E. unfold Store.get_prop, Store.bind, Store.load. rewrite E.
  reflexivity.
Qed.

Lemma set_prop_object h l o k x :
  nth_error h l = Some (Store.Object o) ->
  Store.set_prop (Store.HRef l) k x h
  = (Store.replace l (Store.Object (Obj.set k x o)) h, Store.Done tt).
Proof.
  intros E. unfold Store.set_prop, Store.bind, Store.load. rewrite E.
  reflexivity.
Qed.

Lemma load_theme_at b h v t :
  theme_at b h v t -> Store.load_theme v h = (h, Store.Done t).
Proof.
  intros (l & -> & _ & E).
  unfold Store.load_theme, Store.bind, Store.load. rewrite E. reflexivity.
Qed.

Lemma load_control_at b h v c :
  control_at b h v c -> Store.load_control v h = (h, Store.Done c).
Proof.
  destruct c as [c'|]; cbn.
  - intros (l & -> & _ & E).
    unfold Store.load_control, Store.bind, Store.load. rewrite E.
    reflexivity.
  - intros ->. reflexivity.
Qed.

Lemma theme_at_frame b h h' v t :
  (forall l, l < b -> nth_error h' l = nth_error h l) ->
  theme_at b h v t -> theme_at b h' v t.
Proof.
  intros Hf (l & -> & Hl & E). exists l. rewrite Hf by exact Hl. auto.
Qed.

Lemma control_at_frame b h h' v c :
  (forall l, l < b -> nth_error h' l = nth_error h l) ->
  control_at b h v c -> control_at b h' v c.
Proof.
  intros Hf. destruct c as [c'|]; cbn; [|auto].
  intros (l & -> & Hl & E). exists l. rewrite Hf by exact Hl. auto.
Qed.

(** ** Results of the pure model *)

Lemma outcome_bind {A B} (m : M A) (f : A -> M B) :
  outcome (bind m f)
  = match outcome m with
    | Ok a => outcome (f a)
    | _ => TypeError
    end.
Proof.
  destruct m as [l [a|]]; cbn; [|reflexivity].
  destruct (f a). reflexivity.
Qed.

(** ** Runs that refine *)

Section Refines.
Variable b : nat.

Lemma refines_refl h t :
  tree_ok b h t -> refines b h t h (Store.Done tt) (Ok (erase t)).
Proof.
  intros Ht. split; [lia|]. split; [auto|]. split; [reflexivity|].
  exists t. auto.
Qed.

(** A run that starts after the store and the tree have grown. *)
Lemma refines_step h t h1 t1 h' r res :
  length h <= length h1 ->
  (forall l, l < length h -> ~ In l (locs t) ->
             nth_error h1 l = nth_error h l) ->
  root t1 = root t ->
  (forall l, In l (locs t1) -> In l (locs t) \/ length h <= l) ->
  refines b h1 t1 h' r res ->
  refines b h t h' r res.
Proof.
  intros Hlen Hf Hroot Hgrow (Hlen' & Hf' & Hres).
  split; [lia|]. split.
  - intros l Hl Hn. rewrite Hf'; [apply Hf; assumption|lia|].
    intros Hin. destruct (Hgrow l Hin); [contradiction|lia].
  - destruct res as [out|]; [|exact Hres].
    destruct Hres as (-> & t' & He & Hr & Hok & Hg).
    split; [reflexivity|]. exists t'. repeat split; try apply Hok; auto.
    + congruence.
    + intros l Hl. destruct (Hg l Hl) as [H|H]; [apply Hgrow, H|right; lia].
Qed.

(** The run of a sub-tree, seen from the tree. *)
Lemma refines_child h lo fields s cs h' r res :
  tree_ok b h (Node lo fields) ->
  Obj.get s fields = Some cs ->
  refines b h cs h' r res ->
  refines b h (Node lo fields) h' r
    (match res with
     | Ok sub => Ok (CObj (Obj.set s sub (erase_fields fields)))
     | _ => TypeError
     end).
Proof.
  intros (Hm & Hnd & Hrange) Hs (Hlen & Hf & Hres).
  rewrite locs_obj in Hnd, Hrange. apply models_obj in Hm.
  destruct Hm as [Hlo Hfs]. inversion Hnd as [|? ? Hlo_out Hnd']; subst.
  assert (Hsub : forall l, In l (locs cs) -> In l (locs_fields fields))
    by (intros l; apply locs_get with (k := s); exact Hs).
  split; [exact Hlen|]. split.
  - intros l Hl Hn. apply Hf; [exact Hl|].
    intros Hin. apply Hn. rewrite locs_obj. right. apply Hsub, Hin.
  - destruct res as [sub|]; [|exact Hres].
    destruct Hres as (-> & cs' & He & Hr & (Hm' & Hnd'' & Hrange') & Hg).
    split; [reflexivity|]. exists (Node lo (Obj.set s cs' fields)).
    assert (Hlo_lt : lo < length h) by (apply Hrange; left; reflexivity).
    assert (Hlo_cs : ~ In lo (locs cs)) by (intros H; apply Hlo_out, Hsub, H).
    split; [rewrite erase_obj, erase_fields_set, He; reflexivity|].
    split; [reflexivity|]. split; [split; [|split]|].
    + apply models_obj. split.
      * rewrite Hf by assumption. rewrite Hlo. do 2 f_equal.
        rewrite roots_set, Hr. symmetry. apply ObjFacts.set_same_value.
        rewrite get_roots, Hs. reflexivity.
      * apply models_fields_set with (h := h); auto.
        intros l Hl Hc. apply Hf.
        -- apply Hrange. right. exact Hl.
        -- apply (Hc cs Hs).
    + rewrite locs_obj. constructor.
      * intros Hin. apply locs_set in Hin. destruct Hin as [Hin|Hin].
        -- destruct (Hg lo Hin); [contradiction|lia].
        -- contradiction.
      * apply NoDup_set; auto.
        intros l Hl Hl'. exists cs. split; [exact Hs|].
        destruct (Hg l Hl) as [H|H]; [exact H|].
        assert (l < length h) by (apply Hrange; right; exact Hl'). lia.
    + intros l Hl. rewrite locs_obj in Hl. destruct Hl as [<-|Hl].
      * assert (b <= lo < length h) by (apply Hrange; left; reflexivity).
        lia.
      * apply locs_set in Hl. destruct Hl as [Hl|Hl]; [apply Hrange', Hl|].
        assert (b <= l < length h) by (apply Hrange; right; exact Hl). lia.
    + intros l Hl. rewrite locs_obj in Hl |- *. destruct Hl as [<-|Hl];
        [left; left; reflexivity|].
      apply locs_set in Hl. destruct Hl as [Hl|Hl].
      * destruct (Hg l Hl) as [H|H]; [left; right; apply Hsub, H|auto].
      * left. right. exact Hl.
Qed.

(** The root object gets a sub-tree made of new cells (or a literal). *)
Lemma tree_ok_root_update h h1 lo fields s c :
  tree_ok b h (Node lo fields) ->
  length h <= length h1 ->
  (forall l, l < length h -> nth_error h1 l = nth_error h l) ->
  tree_ok b h1 c ->
  (forall l, In l (locs c) -> length h <= l) ->
  tree_ok b
    (Store.replace lo
       (Store.Object (Obj.set s (root c) (roots fields))) h1)
    (Node lo (Obj.set s c fields)).
Proof.
  intros (Hm & Hnd & Hrange) Hlen Hf (Hmc & Hndc & Hrangec) Hnew.
  rewrite locs_obj in Hnd, Hrange. apply models_obj in Hm.
  destruct Hm as [Hlo Hfs]. inversion Hnd as [|? ? Hlo_out Hnd']; subst.
  assert (Hlo_lt : lo < length h) by (apply Hrange; left; reflexivity).
  set (h2 := Store.replace lo _ h1).
  assert (Hh2 : forall l, l <> lo -> nth_error h2 l = nth_error h1 l)
    by (intros l Hl; apply StoreFacts.nth_error_replace_other; congruence).
  split; [|split].
  - apply models_obj. split.
    + unfold h2. rewrite StoreFacts.nth_error_replace_same by lia.
      rewrite roots_set. reflexivity.
    + apply models_fields_set with (h := h); auto.
      * eapply models_frame; [|exact Hmc]. intros l Hl. apply Hh2.
        apply Hnew in Hl. lia.
      * intros l Hl _. rewrite Hh2 by congruence.
        apply Hf, Hrange. right. exact Hl.
  - rewrite locs_obj. constructor.
    + intros Hin. apply locs_set in Hin. destruct Hin as [Hin|Hin];
        [apply Hnew in Hin; lia|contradiction].
    + apply NoDup_set; auto. intros l Hl Hl'. apply Hnew in Hl.
      assert (l < length h) by (apply Hrange; right; exact Hl'). lia.
  - unfold h2. rewrite StoreFacts.length_replace.
    intros l Hl. rewrite locs_obj in Hl. destruct Hl as [<-|Hl].
    + assert (b <= lo < length h) by (apply Hrange; left; reflexivity). lia.
    + apply locs_set in Hl. destruct Hl as [Hl|Hl]; [apply Hrangec, Hl|].
      assert (b <= l < length h) by (apply Hrange; right; exact Hl). lia.
Qed.

(** Writing a literal. *)
Lemma refines_write h t k lit :
  tree_ok b h t ->
  refines_run b h t
    (Store.set_prop (root t) k (Store.of_literal lit) h)
    (outcome (write (erase t) k (css_of_literal lit))).
Proof.
  intros Ht. unfold refines_run. destruct t as [[n|s]|lo fields].
  - cbn. repeat split; auto.
  - cbn. repeat split; auto.
  - pose proof Ht as (Hm & Hnd & Hrange). apply models_obj in Hm.
    destruct Hm as [Hlo _].
    cbn [root]. rewrite (set_prop_object _ _ _ _ _ Hlo). cbn [fst snd].
    rewrite erase_obj. cbn [write ret outcome snd].
    change (Store.of_literal lit) with (root (Leaf lit)).
    split; [rewrite StoreFacts.length_replace; lia|]. split.
    + intros l Hlt Hn. apply StoreFacts.nth_error_replace_other.
      intros <-. apply Hn. rewrite locs_obj. left. reflexivity.
    + split; [reflexivity|].
      exists (Node lo (Obj.set k (Leaf lit) fields)).
      split; [rewrite erase_obj, erase_fields_set; reflexivity|].
      split; [reflexivity|]. split.
      * apply tree_ok_root_update with (h := h); auto.
        -- split; [exact I|]. split; [constructor|intros l []].
        -- intros l [].
      * intros l Hl'. left. rewrite locs_obj in Hl' |- *.
        destruct Hl' as [<-|Hl']; [left; reflexivity|].
        apply locs_set in Hl'.
        destruct Hl' as [[]|Hl']. right. exact Hl'.
Qed.

Lemma tree_ok_child h lo fields s cs :
  tree_ok b h (Node lo fields) -> Obj.get s fields = Some cs ->
  tree_ok b h cs.
Proof.
  intros (Hm & Hnd & Hrange) Hs. rewrite locs_obj in Hnd, Hrange.
  apply models_obj in Hm. destruct Hm as [_ Hfs].
  inversion Hnd; subst. split; [|split].
  - eapply models_get; eassumption.
  - eapply NoDup_get; eassumption.
  - intros l Hl. apply Hrange. right. eapply locs_get; eassumption.
Qed.

(** The cells below [b] are outside every tree above [b]. *)
Lemma below_frame h h' t :
  tree_ok b h t -> b <= length h ->
  (forall l, l < length h -> ~ In l (locs t) ->
             nth_error h' l = nth_error h l) ->
  forall l, l < b -> nth_error h' l = nth_error h l.
Proof.
  intros (_ & _ & Hrange) Hb Hf l Hl. apply Hf; [lia|].
  intros Hin. apply Hrange in Hin. lia.
Qed.

End Refines.

(** ** Compiling a property *)

Section Simulation.
Variables (b : nat) (hT hC : Store.hval) (th : Theme) (c : option Control).
Variables (sel : SxSelectors) (P : string) (f : nat).
Hypothesis IHf : property_refines b hT hC th c sel P f.

Lemma env_at_frame h h' :
  (forall l, l < b -> nth_error h' l = nth_error h l) ->
  env_at b hT hC th c h -> env_at b hT hC th c h'.
Proof.
  intros Hf [H1 H2].
  split; [eapply theme_at_frame|eapply control_at_frame]; eassumption.
Qed.

Lemma resolve_at h name :
  env_at b hT hC th c h ->
  Store.resolve hT sel hC name h
  = (h, Store.Done (match Obj.get name sel with
                    | Some r => r th c
                    | None => Some name
                    end))
  /\ outcome (resolve th sel c name)
     = Ok (match Obj.get name sel with
           | Some r => r th c
           | None => Some name
           end).
Proof.
  intros [Ht Hc]. unfold Store.resolve, resolve.
  destruct (Obj.get name sel) as [r|]; [|split; reflexivity].
  unfold Store.bind.
  rewrite (load_theme_at _ _ _ _ Ht), (load_control_at _ _ _ _ Hc).
  split; reflexivity.
Qed.

(** A new sub-level is installed at [s], and the value compiled into it. *)
Lemma sim_install h lo fields s l ho k xk vk :
  tree_ok b h (Node lo fields) ->
  env_at b hT hC th c h -> b <= length h ->
  nth_error h l = Some (Store.Object ho) -> l < b ->
  Obj.get k ho = Some vk -> holds (under b) h xk vk -> depth xk < f ->
  refines_run b h (Node lo fields)
    (Store.bind
       (Store.bind (Store.alloc (Store.Object []))
          (fun fresh => Store.set_prop (Store.HRef lo) s fresh))
       (fun _ =>
          Store.bind (Store.get_prop (Store.HRef lo) s)
            (fun subOutput =>
               Store.bind (Store.get_prop (Store.HRef l) k)
                 (fun v =>
                    Store.mutableCompileSxProperty f hT sel hC subOutput P
                      v)))
       h)
    (outcome
       (bind (write (CObj (erase_fields fields)) s (CObj []))
          (fun output' =>
             bind (mutableCompileSxProperty th sel c (CObj []) P xk)
               (fun sub => ret (store output' s sub))))).
Proof.
  intros Ht Henv Hb Hl Hlb Hvk Hx Hd.
  pose proof Ht as (Hm & Hnd & Hrange). apply models_obj in Hm.
  destruct Hm as [Hlo _]. rewrite locs_obj in Hnd, Hrange.
  assert (Hlo_r : b <= lo < length h) by (apply Hrange; left; reflexivity).
  set (nl := length h).
  set (h1 := (h ++ [Store.Object []])%list).
  set (h2 := Store.replace lo
               (Store.Object (Obj.set s (Store.HRef nl) (roots fields))) h1).
  assert (H1 : forall l', l' < length h -> nth_error h1 l' = nth_error h l')
    by (intros l' Hl'; apply nth_error_app1; exact Hl').
  assert (Hlen1 : length h1 = S (length h))
    by (unfold h1; rewrite length_app; cbn; lia).
  assert (H2 : forall l', l' <> lo -> nth_error h2 l' = nth_error h1 l')
    by (intros l' Hl'; apply StoreFacts.nth_error_replace_other; congruence).
  assert (Hlen2 : length h2 = S (length h))
    by (unfold h2; rewrite StoreFacts.length_replace; exact Hlen1).
  assert (Hnl : nth_error h1 nl = Some (Store.Object [])).
  { unfold h1, nl. rewrite nth_error_app2 by lia. rewrite Nat.sub_diag.
    reflexivity. }
  assert (Ht1 : tree_ok b h1 (Node nl [])).
  { split; [|split].
    - apply models_obj. split; [exact Hnl|exact I].
    - rewrite locs_obj. constructor; [intros []|constructor].
    - intros l' [<-|[]]. unfold nl. lia. }
  assert (Ht2 : tree_ok b h2 (Node lo (Obj.set s (Node nl []) fields))).
  { apply (tree_ok_root_update b h h1 lo fields s (Node nl [])); auto.
    - lia.
    - intros l' [<-|[]]. unfold nl. lia. }
  assert (Hbelow : forall l', l' < b -> nth_error h2 l' = nth_error h l').
  { intros l' Hl'. rewrite H2 by lia. apply H1. lia. }
  match goal with |- refines_run _ _ _ ?run _ => set (run' := run) end.
  assert (Erun : run' = Store.mutableCompileSxProperty f hT sel hC
                          (Store.HRef nl) P vk h2).
  { unfold run', Store.bind at 1 2, Store.alloc. fold nl. fold h1.
    rewrite (set_prop_object h1 lo (roots fields));
      [|rewrite H1 by lia; exact Hlo].
    fold h2. unfold Store.bind at 1.
    rewrite (get_prop_object h2 lo
               (Obj.set s (Store.HRef nl) (roots fields)));
      [|unfold h2; apply StoreFacts.nth_error_replace_same; lia].
    rewrite ObjFacts.get_set_same. cbn [Store.or_undefined].
    unfold Store.bind at 1.
    rewrite (get_prop_object h2 l ho);
      [|rewrite Hbelow by exact Hlb; exact Hl].
    rewrite Hvk. reflexivity. }
  rewrite Erun.
  assert (Hcs : Obj.get s (Obj.set s (Node nl []) fields) = Some (Node nl []))
    by apply ObjFacts.get_set_same.
  pose proof (IHf xk vk h2 (Node nl []) Hd
                (holds_frame _ _ _ _ _ Hbelow Hx)
                (tree_ok_child b _ _ _ _ _ Ht2 Hcs)
                (env_at_frame _ _ Hbelow Henv)
                ltac:(lia)) as Hsub.
  pose proof (refines_child b _ _ _ _ _ _ _ _ Ht2 Hcs Hsub) as Hwhole.
  cbn [root erase] in Hsub, Hwhole.
  unfold refines_run.
  apply (refines_step b h (Node lo fields) h2
           (Node lo (Obj.set s (Node nl []) fields))).
  - lia.
  - intros l' Hl' Hn. rewrite H2; [apply H1, Hl'|].
    intros ->. apply Hn. rewrite locs_obj. left. reflexivity.
  - reflexivity.
  - intros l' Hl'. rewrite locs_obj in Hl' |- *.
    destruct Hl' as [<-|Hl']; [left; left; reflexivity|].
    apply locs_set in Hl'. destruct Hl' as [[<-|[]]|Hl'].
    + right. unfold nl. lia.
    + left. right. exact Hl'.
  - cbn [write]. rewrite bind_ret_l, outcome_bind.
    rewrite erase_fields_set in Hwhole. cbn [erase] in Hwhole.
    destruct (outcome (mutableCompileSxProperty th sel c (CObj []) P xk));
      exact Hwhole.
Qed.

(** One branch of a selector map. *)
Lemma sim_branch h t l ho o k xk :
  nth_error h l = Some (Store.Object ho) -> l < b ->
  holds_fields (under b) h o ho -> Obj.get k o = Some xk -> depth xk < f ->
  tree_ok b h t -> env_at b hT hC th c h -> b <= length h ->
  refines_run b h t
    (Store.compile_branch
       (fun subOutput v =>
          Store.mutableCompileSxProperty f hT sel hC subOutput P v)
       hT sel hC (root t) (Store.HRef l) k h)
    (outcome (branch_of th sel c P o k (erase t))).
Proof.
  intros Hl Hlb Hfs Hk Hd Ht Henv Hb.
  pose proof (holds_fields_get _ h o ho k Hfs) as Hg. rewrite Hk in Hg.
  destruct Hg as (vk & Hvk & Hx).
  assert (Hgetx : Store.get_prop (Store.HRef l) k h = (h, Store.Done vk)).
  { rewrite (get_prop_object h l ho) by exact Hl. rewrite Hvk. reflexivity. }
  unfold branch_of. rewrite Hk. unfold compile_branch, Store.compile_branch.
  destruct (k =? "default").
  { unfold Store.bind. rewrite Hgetx. apply IHf; assumption. }
  destruct (resolve_at h k Henv) as [Hres Hpres].
  rewrite outcome_bind, Hpres. unfold Store.bind at 1. rewrite Hres.
  destruct (match Obj.get k sel with
            | Some r => r th c
            | None => Some k
            end) as [s|]; cbv beta iota.
  2: { apply refines_refl, Ht. }
  destruct (s =? ""); [apply refines_refl, Ht|].
  destruct t as [lit|lo fields].
  { (* the level is a literal: the write fails *)
    assert (E : Store.get_prop (root (Leaf lit)) s h
                = (h, Store.Done Store.HUndefined))
      by (destruct lit; reflexivity).
    unfold Store.bind at 1. rewrite E. cbn [Store.truthy].
    assert (E' : read (erase (Leaf lit)) s = None)
      by (destruct lit; reflexivity).
    rewrite E'.
    assert (E'' : outcome
                    (bind (write (erase (Leaf lit)) s (CObj []))
                       (fun output' =>
                          bind (mutableCompileSxProperty th sel c (CObj [])
                                  P xk)
                            (fun sub => ret (store output' s sub))))
                  = TypeError)
      by (destruct lit; reflexivity).
    rewrite E''.
    assert (E3 : forall h', Store.set_prop (root (Leaf lit)) s
                              (Store.HRef (length h)) h'
                            = (h', Store.TypeError))
      by (intros h'; destruct lit; reflexivity).
    unfold Store.bind, Store.alloc. rewrite E3.
    unfold refines_run. cbn [fst snd].
    split; [rewrite length_app; lia|]. split; [|reflexivity].
    intros l' Hl' _. apply nth_error_app1. exact Hl'. }
  pose proof Ht as (Hm & _ & _). apply models_obj in Hm.
  destruct Hm as [Hlo _].
  cbn [root]. unfold Store.bind at 1.
  rewrite (get_prop_object h lo (roots fields)) by exact Hlo.
  rewrite get_roots, erase_obj. cbn [read]. rewrite get_erase_fields.
  destruct (Obj.get s fields) as [cs|] eqn:Hs;
    cbn [option_map Store.or_undefined].
  - rewrite truthy_root. destruct (truthy (erase cs)) eqn:Htr.
    + (* an existing sub-level *)
      unfold Store.bind at 1 2. cbn [Store.ret].
      rewrite (get_prop_object h lo (roots fields)) by exact Hlo.
      rewrite get_roots, Hs. cbn [option_map Store.or_undefined].
      unfold Store.bind at 1. rewrite Hgetx.
      rewrite outcome_bind.
      pose proof (IHf xk vk h cs Hd Hx (tree_ok_child b _ _ _ _ _ Ht Hs)
                    Henv Hb) as Hsub.
      pose proof (refines_child b _ _ _ _ _ _ _ _ Ht Hs Hsub) as Hwhole.
      unfold refines_run.
      destruct (outcome (mutableCompileSxProperty th sel c (erase cs) P xk));
        exact Hwhole.
    + (* a falsy value at [s]: a new sub-level replaces it *)
      apply (sim_install h lo fields s l ho k xk vk); assumption.
  - cbn [Store.truthy].
    apply (sim_install h lo fields s l ho k xk vk); assumption.
Qed.

(** The loop over the selector names. *)
Lemma sim_loop l ho o ks :
  l < b -> depth_fields o < f ->
  (forall k, In k ks -> Obj.get k o <> None) ->
  forall h t,
    nth_error h l = Some (Store.Object ho) ->
    holds_fields (under b) h o ho ->
    tree_ok b h t -> env_at b hT hC th c h -> b <= length h ->
    refines_run b h t
      (Store.for_each ks
         (Store.compile_branch
            (fun subOutput v =>
               Store.mutableCompileSxProperty f hT sel hC subOutput P v)
            hT sel hC (root t) (Store.HRef l)) h)
      (outcome (for_each ks (branch_of th sel c P o) (erase t))).
Proof.
  intros Hlb Hd.
  induction ks as [|k r IH]; intros Hks h t Hl Hfs Ht Henv Hb.
  - apply refines_refl, Ht.
  - cbn [Store.for_each for_each].
    destruct (Obj.get k o) as [xk|] eqn:Hk;
      [|exfalso; apply (Hks k); [left; reflexivity|exact Hk]].
    assert (Hdk : depth xk < f)
      by (pose proof (depth_get k o xk Hk); lia).
    pose proof (sim_branch h t l ho o k xk Hl Hlb Hfs Hk Hdk Ht Henv Hb)
      as Hstep.
    unfold refines_run in Hstep. unfold Store.bind. rewrite outcome_bind.
    destruct (Store.compile_branch _ hT sel hC (root t) (Store.HRef l) k h)
      as [h1 r1].
    cbn [fst snd] in Hstep.
    destruct (outcome (branch_of th sel c P o k (erase t))) as [out1|].
    + destruct Hstep as (Hlen & Hf & -> & t1 & He & Hr & Ht1 & Hg).
      pose proof (below_frame b h h1 t Ht Hb Hf) as Hbelow.
      assert (Hl1 : nth_error h1 l = Some (Store.Object ho))
        by (rewrite Hbelow by exact Hlb; exact Hl).
      pose proof (IH (fun k' Hk' => Hks k' (or_intror Hk')) h1 t1 Hl1
                    (holds_fields_frame _ _ _ _ _ Hbelow Hfs) Ht1
                    (env_at_frame _ _ Hbelow Henv) ltac:(lia)) as Hrest.
      rewrite Hr, He in Hrest.
      apply (refines_step b h t h1 t1); auto.
    + destruct Hstep as (Hlen & Hf & ->). unfold refines_run. cbn [fst snd].
      split; [exact Hlen|]. split; [exact Hf|reflexivity].
Qed.

(** One more unit of fuel. *)
Lemma sim_property_step : property_refines b hT hC th c sel P (S f).
Proof.
  intros x v h t Hd Hx Ht Henv Hb. cbn [Store.mutableCompileSxProperty].
  destruct x as [ | |bo|n|s|fn|xs|o]; cbn [holds] in Hx.
  - subst v. apply refines_refl, Ht.
  - subst v. apply refines_refl, Ht.
  - subst v. apply refines_refl, Ht.
  - subst v. apply (refines_write b h t P (LNum n)), Ht.
  - subst v. apply (refines_write b h t P (LStr s)), Ht.
  - subst v. destruct Henv as [Hth _].
    unfold Store.bind. rewrite (load_theme_at _ _ _ _ Hth).
    cbn [mutableCompileSxProperty]. rewrite outcome_bind.
    cbn [tell outcome snd].
    apply (refines_write b h t P (fn th)), Ht.
  - destruct Hx as (l & items & -> & Hl & E & _).
    unfold Store.bind, Store.load. rewrite E. apply refines_refl, Ht.
  - apply holds_obj in Hx. destruct Hx as (l & ho & -> & Hl & E & Hfs).
    unfold Store.bind at 1. unfold Store.load. rewrite E.
    rewrite compile_selector_map.
    assert (Hkeys : Obj.keys ho = Obj.keys o).
    { unfold Obj.keys. rewrite (holds_fields_keys _ _ _ _ Hfs).
      reflexivity. }
    rewrite Hkeys. rewrite depth_obj in Hd.
    apply (sim_loop l ho o (Obj.keys o)); auto; [lia|].
    intros k Hk. apply ObjFacts.keys_get. exact Hk.
Qed.

End Simulation.

(** With enough fuel, compiling a property on the store refines the pure
    model. *)
Lemma sim_property b hT hC th c sel P fuel :
  property_refines b hT hC th c sel P fuel.
Proof.
  induction fuel as [|f IH].
  - intros x v h t Hd. lia.
  - apply sim_property_step, IH.
Qed.

(** ** Normalizing and merging *)

Lemma holds_shrink R h x v :
  holds R h x v -> holds (fun l => R l /\ l < length h) h x v.
Proof.
  revert v.
  induction x as [ | | | | | |xs IH|o IH] using value_induction; intros v;
    cbn [holds]; auto.
  - intros (l & items & -> & Hl & E & H). exists l, items.
    repeat split; auto; [apply nth_error_Some; congruence|].
    clear E. revert items H.
    induction IH as [|x r Hx _ IHr]; intros [|v' items']; auto.
    intros [H1 H2]. split; [apply Hx, H1|apply IHr, H2].
  - intros (l & ho & -> & Hl & E & H). exists l, ho.
    repeat split; auto; [apply nth_error_Some; congruence|].
    clear E. revert ho H.
    induction IH as [|[k x] r Hx _ IHr]; intros [|[k' v'] ho']; auto.
    intros (H0 & H1 & H2). repeat split; [exact H0|apply Hx, H1|apply IHr, H2].
Qed.

(** A value held by a store is held by every store that keeps the cells
    of the first, in any region that has those of the first. *)
Lemma holds_grow (R R' : Store.loc -> Prop) h h' x v :
  (forall l, R l -> R' l) ->
  (forall l, l < length h -> nth_error h' l = nth_error h l) ->
  holds R h x v -> holds R' h' x v.
Proof.
  intros HR Hf H. apply holds_shrink in H.
  apply holds_mono with (R := fun l => R l /\ l < length h);
    [intros l [Hl _]; apply HR, Hl|].
  eapply holds_frame; [|exact H]. intros l [_ Hl]. apply Hf, Hl.
Qed.

Lemma holds_specs_grow (R R' : Store.loc -> Prop) h h' os vs :
  (forall l, R l -> R' l) ->
  (forall l, l < length h -> nth_error h' l = nth_error h l) ->
  holds_specs R h os vs -> holds_specs R' h' os vs.
Proof.
  intros HR Hf. revert vs.
  induction os as [|o r IH]; intros [|v vs']; cbn [holds_specs]; auto.
  intros [H1 H2]. split; [eapply holds_grow; eassumption|apply IH, H2].
Qed.

Lemma holds_specs_app R h os os' vs vs' :
  holds_specs R h os vs -> holds_specs R h os' vs' ->
  holds_specs R h (os ++ os') (vs ++ vs').
Proof.
  revert vs.
  induction os as [|o r IH]; intros [|v vs0];
    cbn [holds_specs app]; try tauto.
  intros [H1 H2] H'. split; [exact H1|apply IH; assumption].
Qed.

Lemma flatten_item_object h l o :
  nth_error h l = Some (Store.Object o) ->
  Store.flatten_item (Store.HRef l) h = (h, Store.Done [Store.HRef l]).
Proof.
  intros E. unfold Store.flatten_item, Store.bind, Store.load. rewrite E.
  reflexivity.
Qed.

Lemma flatten_item_array h l items :
  nth_error h l = Some (Store.Array items) ->
  Store.flatten_item (Store.HRef l) h = (h, Store.Done items).
Proof.
  intros E. unfold Store.flatten_item, Store.bind, Store.load. rewrite E.
  reflexivity.
Qed.

Lemma flatten_item_falsy h v :
  Store.truthy v = false ->
  Store.flatten_item v h = (h, Store.Done [v]).
Proof. destruct v; cbn; try reflexivity; discriminate. Qed.

(** The truthy entries of a flattened leaf are its specification, if it is
    one. *)
Lemma flatten_leaf R h x v :
  holds_leaf R h x v ->
  Store.flatten_item v h = (h, Store.Done [v]) /\
  holds_specs R h (truthy_leaves [x]) (filter Store.truthy [v]).
Proof.
  destruct x as [|o]; cbn [holds_leaf].
  - intros H. split; [apply flatten_item_falsy, H|].
    cbn. rewrite H. exact I.
  - intros H. pose proof H as H'. apply holds_obj in H'.
    destruct H' as (l & ho & -> & _ & E & _).
    split; [eapply flatten_item_object, E|]. cbn. auto.
Qed.

Lemma filter_leaves R h xs vs :
  holds_leaves R h xs vs ->
  holds_specs R h (truthy_leaves xs) (filter Store.truthy vs).
Proof.
  revert vs. induction xs as [|x r IH]; intros [|v vs']; cbn; try tauto.
  intros [H1 H2]. specialize (IH vs' H2).
  destruct x as [|o]; cbn [holds_leaf] in H1; cbn.
  - rewrite H1. exact IH.
  - pose proof H1 as H'. apply holds_obj in H'.
    destruct H' as (l & ho & -> & _). cbn. split; assumption.
Qed.

Lemma flatten_items R h its vs :
  holds_items R h its vs ->
  exists flat,
    Store.flatten vs h = (h, Store.Done flat) /\
    holds_specs R h
      (flat_map (fun i => match i with
                          | SxLeaf x => truthy_leaves [x]
                          | SxNested l' => truthy_leaves l'
                          end) its)
      (filter Store.truthy flat).
Proof.
  revert vs. induction its as [|i r IH]; intros [|v vs']; cbn [holds_items];
    try tauto.
  - intros _. exists []. split; [reflexivity|exact I].
  - intros [H1 H2]. destruct (IH vs' H2) as (flat & E & Hflat).
    cbn [Store.flatten flat_map]. unfold Store.bind.
    destruct i as [x|xs]; cbn [holds_item] in H1.
    + destruct (flatten_leaf R h x v H1) as [E1 H1'].
      rewrite E1, E. exists ([v] ++ flat)%list. split; [reflexivity|].
      rewrite filter_app. apply holds_specs_app; assumption.
    + destruct H1 as (l & items & -> & E1 & Hxs).
      rewrite (flatten_item_array h l items E1), E.
      exists (items ++ flat)%list. split; [reflexivity|].
      rewrite filter_app. apply holds_specs_app; [|assumption].
      apply filter_leaves, Hxs.
Qed.

Lemma sim_ensureTruthyArray R h sx v :
  holds_sx R h sx v ->
  exists items,
    Store.ensureTruthyArray v h
    = ((h ++ [Store.Array items])%list, Store.Done (Store.HRef (length h)))
    /\ holds_specs R h (ensureTruthyArray sx) items.
Proof.
  unfold Store.ensureTruthyArray, Store.bind.
  destruct sx as [x|its]; cbn [holds_sx ensureTruthyArray].
  - intros H. destruct (flatten_leaf R h x v H) as [E Hx].
    rewrite E. cbn [Store.flatten]. unfold Store.bind. rewrite E.
    cbn [Store.ret]. rewrite app_nil_r.
    exists (filter Store.truthy [v]). split; [reflexivity|exact Hx].
  - intros (l & items & -> & E & His).
    rewrite (flatten_item_array h l items E).
    destruct (flatten_items R h its items His) as (flat & Ef & Hflat).
    rewrite Ef. exists (filter Store.truthy flat). split; [reflexivity|].
    exact Hflat.
Qed.

Lemma only_at_refl a h : only_at a h h.
Proof. split; auto. Qed.

Lemma only_at_trans a h1 h2 h3 :
  only_at a h1 h2 -> only_at a h2 h3 -> only_at a h1 h3.
Proof.
  intros [L1 F1] [L2 F2]. split; [congruence|].
  intros l Hl. rewrite F2, F1 by exact Hl. reflexivity.
Qed.

Lemma only_at_replace a c h : only_at a h (Store.replace a c h).
Proof.
  split; [apply StoreFacts.length_replace|].
  intros l Hl. apply StoreFacts.nth_error_replace_other. congruence.
Qed.

Lemma holds_fields_set R h o ho k x v :
  holds_fields R h o ho -> holds R h x v ->
  holds_fields R h (Obj.set k x o) (Obj.set k v ho).
Proof.
  revert ho. induction o as [|[k0 x0] r IH]; intros [|[k' v'] ho'];
    cbn [holds_fields Obj.set]; try tauto.
  intros (<- & H1 & H2) Hx. destruct (k =? k0); cbn [holds_fields]; auto.
Qed.

Lemma holds_fields_delete R h o ho k :
  holds_fields R h o ho ->
  holds_fields R h (Obj.delete k o) (Obj.delete k ho).
Proof.
  revert ho. induction o as [|[k0 x0] r IH]; intros [|[k' v'] ho'];
    cbn [holds_fields Obj.delete]; try tauto.
  intros (<- & H1 & H2). destruct (k =? k0); cbn [holds_fields]; auto.
Qed.

Lemma holds_fields_keys_eq R h o ho :
  holds_fields R h o ho -> Obj.keys ho = Obj.keys o.
Proof.
  intros H. unfold Obj.keys. rewrite (holds_fields_keys _ _ _ _ H).
  reflexivity.
Qed.

(** [Object.assign] into the cell [a], which no value involved lies in. *)
Lemma sim_assign_loop (R : Store.loc -> Prop) a ls o ho ks :
  ~ R a -> R ls -> (forall k, In k ks -> Obj.get k o <> None) ->
  forall h acc hacc,
    nth_error h a = Some (Store.Object hacc) ->
    holds_fields R h acc hacc ->
    nth_error h ls = Some (Store.Object ho) ->
    holds_fields R h o ho ->
    exists h' hacc',
      Store.for_each ks
        (fun k => Store.bind (Store.get_prop (Store.HRef ls) k)
                    (fun x => Store.set_prop (Store.HRef a) k x)) h
      = (h', Store.Done tt)
      /\ only_at a h h'
      /\ nth_error h' a = Some (Store.Object hacc')
      /\ holds_fields R h'
           (fold_left
              (fun acc k => match Obj.get k o with
                            | Some v => Obj.set k v acc
                            | None => acc
                            end) ks acc)
           hacc'.
Proof.
  intros Ha Hls. induction ks as [|k r IH]; intros Hks h acc hacc E Hacc Es Ho.
  - exists h, hacc. cbn. auto using only_at_refl.
  - pose proof (holds_fields_get R h o ho k Ho) as Hg.
    destruct (Obj.get k o) as [x|] eqn:Hk;
      [|exfalso; apply (Hks k); [left; reflexivity|exact Hk]].
    destruct Hg as (v & Hv & Hx).
    cbn [Store.for_each fold_left]. rewrite Hk. unfold Store.bind at 1 2.
    rewrite (get_prop_object h ls ho k Es), Hv. cbn [Store.or_undefined].
    rewrite (set_prop_object h a hacc k v E).
    set (h1 := Store.replace a (Store.Object (Obj.set k v hacc)) h).
    assert (H1 : only_at a h h1) by apply only_at_replace.
    assert (Hfr : forall l, R l -> nth_error h1 l = nth_error h l).
    { intros l Hl. apply H1. intros ->. contradiction. }
    destruct (IH (fun k' Hk' => Hks k' (or_intror Hk')) h1
                (Obj.set k x acc) (Obj.set k v hacc))
      as (h' & hacc' & Erun & Honly & Ea & Hres).
    + unfold h1. apply StoreFacts.nth_error_replace_same.
      apply nth_error_Some. congruence.
    + apply holds_fields_set.
      * eapply holds_fields_frame; eassumption.
      * eapply holds_frame; eassumption.
    + rewrite Hfr by exact Hls. exact Es.
    + eapply holds_fields_frame; eassumption.
    + exists h', hacc'.
      split; [exact Erun|].
      split; [eapply only_at_trans; eassumption|].
      split; assumption.
Qed.

Lemma sim_assign (R : Store.loc -> Prop) a h acc hacc o v :
  ~ R a ->
  nth_error h a = Some (Store.Object hacc) ->
  holds_fields R h acc hacc ->
  holds R h (VObj o) v ->
  exists h' hacc',
    Store.assign (Store.HRef a) v h = (h', Store.Done tt)
    /\ only_at a h h'
    /\ nth_error h' a = Some (Store.Object hacc')
    /\ holds_fields R h' (Obj.assign acc o) hacc'.
Proof.
  intros Ha E Hacc Hv. apply holds_obj in Hv.
  destruct Hv as (ls & ho & -> & Hls & Es & Ho).
  unfold Store.assign, Store.bind at 1, Store.keys_of, Store.bind,
    Store.load.
  rewrite Es. cbn [Store.ret]. rewrite (holds_fields_keys_eq _ _ _ _ Ho).
  apply (sim_assign_loop R a ls o ho (Obj.keys o) Ha Hls) with (hacc := hacc);
    auto.
  intros k Hk. apply ObjFacts.keys_get. exact Hk.
Qed.

(** The loop of [mergeSx]. *)
Lemma sim_merge_loop (R : Store.loc -> Prop) a os :
  ~ R a ->
  forall vs h acc hacc,
    nth_error h a = Some (Store.Object hacc) ->
    holds_fields R h acc hacc ->
    holds_specs R h os vs ->
    exists h' hacc',
      Store.for_each vs (fun x => Store.assign (Store.HRef a) x) h
      = (h', Store.Done tt)
      /\ only_at a h h'
      /\ nth_error h' a = Some (Store.Object hacc')
      /\ holds_fields R h'
           (fold_left (fun acc x => Obj.assign acc x) os acc) hacc'.
Proof.
  intros Ha. induction os as [|o r IH]; intros [|v vs] h acc hacc E Hacc Hs;
    cbn [holds_specs] in Hs; try tauto.
  - exists h, hacc. cbn. auto using only_at_refl.
  - destruct Hs as [Hv Hr].
    destruct (sim_assign R a h acc hacc o v Ha E Hacc Hv)
      as (h1 & hacc1 & E1 & Honly1 & Ea1 & Hacc1).
    assert (Hfr : forall l, R l -> nth_error h1 l = nth_error h l).
    { intros l Hl. apply Honly1. intros ->. contradiction. }
    destruct (IH vs h1 (Obj.assign acc o) hacc1 Ea1 Hacc1)
      as (h' & hacc' & E' & Honly' & Ea' & Hacc').
    + clear -Hr Hfr. revert vs Hr.
      induction r as [|o' r IHr]; intros [|v' vs']; cbn [holds_specs]; auto.
      intros [H1 H2]. split; [eapply holds_frame; eassumption|auto].
    + exists h', hacc'. cbn [Store.for_each fold_left]. unfold Store.bind.
      rewrite E1.
      split; [exact E'|].
      split; [eapply only_at_trans; eassumption|].
      split; assumption.
Qed.

(** [mergeSx]: the merged specification is a new cell that spells out the
    pure merge; nothing else changes. *)
Lemma sim_mergeSx h sx v :
  holds_sx (under (length h)) h sx v ->
  exists h' hso,
    Store.mergeSx v h = (h', Store.Done (Store.HRef (S (length h))))
    /\ length h' = S (S (length h))
    /\ (forall l, l < length h -> nth_error h' l = nth_error h l)
    /\ nth_error h' (S (length h)) = Some (Store.Object hso)
    /\ holds_fields (under (length h)) h' (mergeSx sx) hso.
Proof.
  intros Hsx.
  destruct (sim_ensureTruthyArray _ h sx v Hsx) as (items & E & Hitems).
  set (h1 := (h ++ [Store.Array items])%list) in *.
  set (h2 := (h1 ++ [Store.Object []])%list).
  assert (L1 : length h1 = S (length h))
    by (unfold h1; rewrite length_app; cbn; lia).
  assert (L2 : length h2 = S (S (length h)))
    by (unfold h2; rewrite length_app; cbn; lia).
  assert (F2 : forall l, l < length h -> nth_error h2 l = nth_error h l).
  { intros l Hl. unfold h2, h1. rewrite !nth_error_app1; auto.
    rewrite length_app. lia. }
  assert (Ea : nth_error h2 (S (length h)) = Some (Store.Object [])).
  { unfold h2. rewrite nth_error_app2 by lia. rewrite L1, Nat.sub_diag.
    reflexivity. }
  destruct (sim_merge_loop (under (length h)) (S (length h))
              (ensureTruthyArray sx)
              ltac:(unfold under; lia) items h2 [] [] Ea I)
    as (h' & hso & Eloop & [L' F'] & Ea' & Hso).
  { eapply holds_specs_grow; [| |exact Hitems]; auto. }
  exists h', hso. unfold Store.mergeSx, Store.bind at 1. rewrite E.
  unfold Store.bind at 1.
  rewrite (flatten_item_array h1 (length h) items).
  2: { unfold h1. rewrite nth_error_app2 by lia. rewrite Nat.sub_diag.
       reflexivity. }
  unfold Store.bind at 1, Store.alloc. fold h2. rewrite L1.
  unfold Store.bind. rewrite Eloop. cbn [Store.ret].
  repeat split; auto.
  - congruence.
  - intros l Hl. rewrite F' by lia. apply F2, Hl.
Qed.

(** ** Map functions *)

Lemma holds_move (R R' : Store.loc -> Prop) h h' x v :
  (forall l, R l -> l < length h -> R' l /\ nth_error h' l = nth_error h l) ->
  holds R h x v -> holds R' h' x v.
Proof.
  intros Hm H. apply holds_shrink in H.
  apply holds_mono with (R := fun l => R l /\ l < length h);
    [intros l [H1 H2]; apply (Hm l H1 H2)|].
  eapply holds_frame; [|exact H]. intros l [H1 H2]. apply (Hm l H1 H2).
Qed.

Lemma holds_fields_move (R R' : Store.loc -> Prop) h h' o ho :
  (forall l, R l -> l < length h -> R' l /\ nth_error h' l = nth_error h l) ->
  holds_fields R h o ho -> holds_fields R' h' o ho.
Proof.
  intros Hm. revert ho.
  induction o as [|[k x] r IH]; intros [|[k' v'] ho']; cbn; auto.
  intros (H0 & H1 & H2).
  repeat split; [exact H0|eapply holds_move; eassumption|apply IH, H2].
Qed.

Lemma delete_prop_object h l o k :
  nth_error h l = Some (Store.Object o) ->
  Store.delete_prop (Store.HRef l) k h
  = (Store.replace l (Store.Object (Obj.delete k o)) h, Store.Done tt).
Proof.
  intros E. unfold Store.delete_prop, Store.bind, Store.load. rewrite E.
  reflexivity.
Qed.

Lemma maps_refine_get pm sm key :
  maps_refine pm sm ->
  match Obj.get key pm, Obj.get key sm with
  | Some mp, Some ms => map_refines mp ms
  | None, None => True
  | _, _ => False
  end.
Proof.
  revert sm. induction pm as [|[k mp] r IH]; intros [|[k' ms] sm'];
    cbn [maps_refine Obj.get]; try tauto.
  intros (<- & H1 & H2). destruct (key =? k); [exact H1|apply IH, H2].
Qed.

Lemma maps_refine_keys pm sm :
  maps_refine pm sm -> Obj.keys sm = Obj.keys pm.
Proof.
  intros H. unfold Obj.keys. f_equal. f_equal. revert sm H.
  induction pm as [|[k mp] r IH]; intros [|[k' ms] sm'];
    cbn [maps_refine map fst]; try tauto.
  intros (<- & _ & H2). rewrite (IH sm' H2). reflexivity.
Qed.

(** One turn of the loop over [mapKeys], on the merged specification in the
    cell [a]. *)
Lemma sim_expand_map pm sm a lt th key h so hso :
  maps_refine pm sm ->
  lt <> a -> nth_error h lt = Some (Store.ThemeObject th) ->
  nth_error h a = Some (Store.Object hso) ->
  holds_fields (fun l => l <> a) h so hso ->
  exists h' so' hso',
    Store.expand_map sm (Store.HRef lt) (Store.HRef a) key h
    = (h', Store.Done tt)
    /\ outcome (expand_map pm th key so) = Ok so'
    /\ length h <= length h'
    /\ (forall l, l < length h -> l <> a -> nth_error h' l = nth_error h l)
    /\ nth_error h' a = Some (Store.Object hso')
    /\ holds_fields (fun l => l <> a) h' so' hso'.
Proof.
  intros Hmaps Hlt Et Ea Hso.
  pose proof (maps_refine_get pm sm key Hmaps) as Hget.
  unfold Store.expand_map, expand_map.
  destruct (Obj.get key pm) as [mp|], (Obj.get key sm) as [ms|];
    try contradiction.
  2: { exists h, so, hso. cbn. auto 7. }
  assert (Hal : a < length h) by (apply nth_error_Some; congruence).
  set (x := or_undefined (Obj.get key so)).
  set (v := Store.or_undefined (Obj.get key hso)).
  assert (Hx : holds (fun l => l <> a) h x v).
  { pose proof (holds_fields_get _ h so hso key Hso) as Hg. unfold x, v.
    destruct (Obj.get key so) as [x0|].
    - destruct Hg as (v0 & -> & H0). exact H0.
    - rewrite Hg. reflexivity. }
  set (h1 := Store.replace a (Store.Object (Obj.delete key hso)) h).
  assert (L1 : length h1 = length h) by apply StoreFacts.length_replace.
  assert (F1 : forall l, l <> a -> nth_error h1 l = nth_error h l).
  { intros l Hl. apply StoreFacts.nth_error_replace_other. congruence. }
  assert (Ea1 : nth_error h1 a = Some (Store.Object (Obj.delete key hso)))
    by (apply StoreFacts.nth_error_replace_same, Hal).
  assert (Hx1 : holds (fun l => l <> a) h1 x v).
  { eapply holds_frame; [|exact Hx]. exact F1. }
  destruct (Hget _ h1 x v th Hx1) as (h2 & r & Ems & L2 & F2 & Hr).
  assert (Ea2 : nth_error h2 a = Some (Store.Object (Obj.delete key hso)))
    by (rewrite F2 by lia; exact Ea1).
  assert (Hr2 : holds (fun l => l <> a) h2 (VObj (mp x th)) r).
  { eapply holds_mono; [|exact Hr]. intros l [Hl|Hl]; [exact Hl|lia]. }
  assert (Hso2 : holds_fields (fun l => l <> a) h2 (Obj.delete key so)
                   (Obj.delete key hso)).
  { apply holds_fields_delete.
    eapply holds_fields_move; [|exact Hso].
    intros l Hl Hlen. split; [exact Hl|].
    rewrite F2, F1 by (auto; lia). reflexivity. }
  destruct (sim_assign (fun l => l <> a) a h2 (Obj.delete key so)
              (Obj.delete key hso) (mp x th) r
              ltac:(intros H; apply H; reflexivity) Ea2 Hso2 Hr2)
    as (h3 & hso3 & E3 & [L3 F3] & Ea3 & Hso3).
  exists h3, (Obj.assign (Obj.delete key so) (mp x th)), hso3.
  split.
  { unfold Store.bind at 1. rewrite (get_prop_object h a hso key Ea).
    unfold Store.bind at 1. rewrite (delete_prop_object h a hso key Ea).
    fold h1 v. unfold Store.bind at 1.
    rewrite (load_theme_at (S lt) h1 (Store.HRef lt) th).
    2: { exists lt. rewrite F1 by exact Hlt. auto. }
    unfold Store.bind at 1. rewrite Ems. exact E3. }
  split; [reflexivity|].
  split; [lia|].
  split; [|split; assumption].
  intros l Hl Hla. rewrite F3, F2, F1 by (auto; lia). reflexivity.
Qed.

(** The loop over [mapKeys]. *)
Lemma sim_expand_loop pm sm a lt th ks :
  maps_refine pm sm -> lt <> a ->
  forall h so hso,
    nth_error h lt = Some (Store.ThemeObject th) ->
    nth_error h a = Some (Store.Object hso) ->
    holds_fields (fun l => l <> a) h so hso ->
    exists h' so' hso',
      Store.for_each ks
        (Store.expand_map sm (Store.HRef lt) (Store.HRef a)) h
      = (h', Store.Done tt)
      /\ outcome (for_each ks (expand_map pm th) so) = Ok so'
      /\ length h <= length h'
      /\ (forall l, l < length h -> l <> a -> nth_error h' l = nth_error h l)
      /\ nth_error h' a = Some (Store.Object hso')
      /\ holds_fields (fun l => l <> a) h' so' hso'.
Proof.
  intros Hmaps Hlt. induction ks as [|k r IH]; intros h so hso Et Ea Hso.
  - exists h, so, hso. cbn. auto 7.
  - destruct (sim_expand_map pm sm a lt th k h so hso Hmaps Hlt Et Ea Hso)
      as (h1 & so1 & hso1 & E1 & P1 & L1 & F1 & Ea1 & Hso1).
    assert (Hltl : lt < length h) by (apply nth_error_Some; congruence).
    destruct (IH h1 so1 hso1) as (h' & so' & hso' & E' & P' & L' & F' & R');
      [rewrite F1 by auto; exact Et|exact Ea1|exact Hso1|].
    exists h', so', hso'.
    split.
    { cbn [Store.for_each]. unfold Store.bind. rewrite E1. exact E'. }
    split.
    { cbn [for_each]. rewrite outcome_bind, P1. exact P'. }
    split; [lia|]. split; [|exact R'].
    intros l Hl Hla. rewrite F', F1 by (auto; lia). reflexivity.
Qed.

(** ** The loop over the properties *)

Lemma depth_or_undefined k o :
  depth (or_undefined (Obj.get k o)) <= depth_fields o.
Proof.
  destruct (Obj.get k o) as [x|] eqn:E; cbn [or_undefined].
  - apply (depth_get k o x E).
  - cbn. lia.
Qed.

Lemma holds_or_undefined R h o ho k :
  holds_fields R h o ho ->
  holds R h (or_undefined (Obj.get k o))
    (Store.or_undefined (Obj.get k ho)).
Proof.
  intros H. pose proof (holds_fields_get R h o ho k H) as Hg.
  destruct (Obj.get k o) as [x|].
  - destruct Hg as (v & -> & Hv). exact Hv.
  - rewrite Hg. reflexivity.
Qed.

Lemma sim_props_loop b a hT hC th c sel fuel so hso ks :
  a < b -> depth_fields so < fuel ->
  forall h t,
    nth_error h a = Some (Store.Object hso) ->
    holds_fields (under b) h so hso ->
    tree_ok b h t -> env_at b hT hC th c h -> b <= length h ->
    refines_run b h t
      (Store.for_each ks
         (fun propName =>
            Store.bind (Store.get_prop (Store.HRef a) propName)
              (fun x =>
                 Store.mutableCompileSxProperty fuel hT sel hC (root t)
                   propName x)) h)
      (outcome
         (for_each ks
            (fun propName output =>
               mutableCompileSxProperty th sel c output propName
                 (or_undefined (Obj.get propName so)))
            (erase t))).
Proof.
  intros Hab Hd.
  induction ks as [|k r IH]; intros h t Ea Hso Ht Henv Hb.
  - apply refines_refl, Ht.
  - cbn [Store.for_each for_each].
    pose proof (depth_or_undefined k so) as Hdk.
    pose proof (sim_property b hT hC th c sel k fuel
                  (or_undefined (Obj.get k so))
                  (Store.or_undefined (Obj.get k hso)) h t
                  ltac:(lia) (holds_or_undefined _ _ _ _ k Hso) Ht Henv Hb)
      as Hstep.
    unfold refines_run in Hstep. unfold Store.bind at 1 2.
    rewrite (get_prop_object h a hso k Ea). rewrite outcome_bind.
    destruct (Store.mutableCompileSxProperty fuel hT sel hC (root t) k
                (Store.or_undefined (Obj.get k hso)) h) as [h1 r1].
    cbn [fst snd] in Hstep.
    destruct (outcome (mutableCompileSxProperty th sel c (erase t) k
                         (or_undefined (Obj.get k so)))) as [out1|].
    + destruct Hstep as (Hlen & Hf & -> & t1 & He & Hr & Ht1 & Hg).
      pose proof (below_frame b h h1 t Ht Hb Hf) as Hbelow.
      assert (Ea1 : nth_error h1 a = Some (Store.Object hso))
        by (rewrite Hbelow by exact Hab; exact Ea).
      pose proof (IH h1 t1 Ea1
                    (holds_fields_frame _ _ _ _ _ Hbelow Hso) Ht1
                    (env_at_frame _ _ _ _ _ _ _ Hbelow Henv) ltac:(lia))
        as Hrest.
      rewrite Hr, He in Hrest.
      apply (refines_step b h t h1 t1); auto.
    + destruct Hstep as (Hlen & Hf & ->). unfold refines_run. cbn [fst snd].
      split; [exact Hlen|]. split; [exact Hf|reflexivity].
Qed.

(** ** Reading the output back *)

Lemma height_obj l fields :
  height (Node l fields) = S (height_fields fields).
Proof. reflexivity. Qed.

Lemma readback_leaf d h c :
  Store.readback d h (Store.of_literal c) = Some (css_of_literal c).
Proof. destruct c, d; reflexivity. Qed.

Lemma readback_models h t :
  models h t ->
  forall d, height t <= d -> Store.readback d h (root t) = Some (erase t).
Proof.
  induction t as [c|l fields IH] using ltree_induction; intros Hm d Hd.
  - apply readback_leaf.
  - rewrite height_obj in Hd. destruct d as [|d']; [lia|].
    apply models_obj in Hm. destruct Hm as [El Hfs].
    cbn [root Store.readback]. rewrite El, erase_obj.
    assert (E : Store.read_fields (Store.readback d' h) (roots fields)
                = Some (erase_fields fields)).
    { assert (Hd' : height_fields fields <= d') by lia. clear El Hd.
      induction IH as [|[k t] r Ht _ IHr]; [reflexivity|].
      cbn [models_fields height_fields] in Hfs, Hd'.
      destruct Hfs as [Hmt Hmr].
      cbn [roots map fst snd Store.read_fields erase_fields].
      cbn [snd] in Ht. rewrite (Ht Hmt d') by lia.
      fold (roots r). rewrite (IHr Hmr) by lia. reflexivity. }
    rewrite E. reflexivity.
Qed.

(** ** The compiler *)

Lemma theme_at_grow b b' h h' v t :
  b <= b' -> (forall l, l < b -> nth_error h' l = nth_error h l) ->
  theme_at b h v t -> theme_at b' h' v t.
Proof.
  intros Hb Hf (l & -> & Hl & E). exists l. rewrite Hf by exact Hl.
  repeat split; [lia|exact E].
Qed.

Lemma control_at_grow b b' h h' v c :
  b <= b' -> (forall l, l < b -> nth_error h' l = nth_error h l) ->
  control_at b h v c -> control_at b' h' v c.
Proof.
  intros Hb Hf. destruct c as [c'|]; cbn; [|auto].
  intros (l & -> & Hl & E). exists l. rewrite Hf by exact Hl.
  repeat split; [lia|exact E].
Qed.

Lemma theme_option_at_grow b b' h h' v t :
  b <= b' -> (forall l, l < b -> nth_error h' l = nth_error h l) ->
  theme_option_at b h v t -> theme_option_at b' h' v t.
Proof.
  intros Hb Hf. destruct t as [t'|]; cbn; [|auto].
  apply theme_at_grow; assumption.
Qed.

Lemma spread_of_theme b h v t :
  theme_option_at b h v t -> Store.spread_of v h = (h, Store.Done (or_empty t)).
Proof.
  destruct t as [t'|]; cbn.
  - intros H. pose proof H as (l & -> & _). unfold Store.spread_of.
    cbn [Store.truthy]. apply (load_theme_at b), H.
  - intros ->. reflexivity.
Qed.

Lemma sim_maps pmo smo a lt th h so hso :
  maps_option_refine pmo smo -> lt <> a ->
  nth_error h lt = Some (Store.ThemeObject th) ->
  nth_error h a = Some (Store.Object hso) ->
  holds_fields (fun l => l <> a) h so hso ->
  exists h' so' hso',
    match smo with
    | Some maps =>
        Store.for_each (Obj.keys maps)
          (Store.expand_map maps (Store.HRef lt) (Store.HRef a))
    | None => Store.ret tt
    end h = (h', Store.Done tt)
    /\ outcome (expand_maps pmo th so) = Ok so'
    /\ length h <= length h'
    /\ (forall l, l < length h -> l <> a -> nth_error h' l = nth_error h l)
    /\ nth_error h' a = Some (Store.Object hso')
    /\ holds_fields (fun l => l <> a) h' so' hso'.
Proof.
  intros Hmaps Hlt Et Ea Hso.
  destruct pmo as [pm|], smo as [sm|]; cbn [maps_option_refine] in Hmaps;
    try contradiction.
  - rewrite (maps_refine_keys pm sm Hmaps). cbn [expand_maps].
    apply (sim_expand_loop pm sm a lt th (Obj.keys pm) Hmaps Hlt h so hso);
      assumption.
  - exists h, so, hso. cbn. auto 7.
Qed.

Lemma sim_themedCSS options soptions h hT0 th0 :
  options_at h options soptions ->
  theme_at (length h) h hT0 th0 ->
  run_refines (themed_fuel options th0) h
    (fun fuel => Store.themedCSS fuel soptions hT0)
    (outcome (themedCSS options th0)).
Proof.
  intros (Hsx & Hth & Hc & Hsel & Hmaps) HT0.
  destruct (sim_mergeSx h _ _ Hsx) as (h1 & hso & E1 & L1 & F1 & Ea1 & Hso1).
  set (a := S (length h)) in *.
  set (th := spread2 th0 (or_empty (Options.theme options))).
  set (lt := length h1).
  set (h2 := (h1 ++ [Store.ThemeObject th])%list).
  assert (L2 : length h2 = S (length h1))
    by (unfold h2; rewrite length_app; cbn; lia).
  assert (F2 : forall l, l < length h1 -> nth_error h2 l = nth_error h1 l)
    by (intros l Hl; unfold h2; apply nth_error_app1, Hl).
  assert (Et2 : nth_error h2 lt = Some (Store.ThemeObject th)).
  { unfold h2, lt. rewrite nth_error_app2 by lia. rewrite Nat.sub_diag.
    reflexivity. }
  assert (Es0 : Store.spread_of hT0 h1 = (h1, Store.Done th0)).
  { apply (spread_of_theme (length h) h1 hT0 (Some th0)).
    apply (theme_at_grow (length h) (length h) h h1); auto. }
  assert (Es1 : Store.spread_of (Store.theme soptions) h1
                = (h1, Store.Done (or_empty (Options.theme options)))).
  { apply (spread_of_theme (length h)).
    apply (theme_option_at_grow (length h) (length h) h h1); auto. }
  destruct (sim_maps (Options.maps options) (Store.maps soptions) a lt th h2
              (mergeSx (Options.sx options)) hso Hmaps)
    as (h3 & so' & hso' & E3 & P3 & L3 & F3 & Ea3 & Hso3).
  { unfold lt, a. lia. }
  { exact Et2. }
  { rewrite F2 by (unfold a; lia). exact Ea1. }
  { eapply holds_fields_move; [|exact Hso1].
    intros l Hl _. unfold under in Hl. split; [unfold a; lia|].
    apply F2. lia. }
  set (bo := length h3).
  set (h4 := (h3 ++ [Store.Object []])%list).
  assert (L4 : length h4 = S bo)
    by (unfold h4, bo; rewrite length_app; cbn; lia).
  assert (F4 : forall l, l < bo -> nth_error h4 l = nth_error h3 l)
    by (intros l Hl; unfold h4; apply nth_error_app1, Hl).
  assert (Eo4 : nth_error h4 bo = Some (Store.Object [])).
  { unfold h4, bo. rewrite nth_error_app2 by lia. rewrite Nat.sub_diag.
    reflexivity. }
  assert (Fall : forall l, l < length h -> nth_error h4 l = nth_error h l).
  { intros l Hl. rewrite F4, F3, F2, F1 by (unfold bo, a; lia).
    reflexivity. }
  assert (Ht0 : tree_ok bo h4 (Node bo [])).
  { split; [apply models_obj; split; [exact Eo4|exact I]|].
    split; [repeat constructor; intros []|].
    intros l [<-|[]]. lia. }
  assert (Henv : env_at bo (Store.HRef lt) (Store.control soptions) th
                   (Options.control options) h4).
  { split.
    - exists lt. rewrite F4, F3 by (unfold bo, lt, a; lia).
      repeat split; [unfold bo, lt; lia|exact Et2].
    - apply (control_at_grow (length h) bo h h4); auto. unfold bo. lia. }
  assert (Efuel : themed_fuel options th0 = S (depth_fields so')).
  { unfold themed_fuel. fold th. rewrite P3. reflexivity. }
  intros fuel Hfuel. rewrite Efuel in Hfuel.
  pose proof (sim_props_loop bo a (Store.HRef lt) (Store.control soptions)
                th (Options.control options)
                (or_empty (Options.selectors options)) fuel so' hso'
                (Obj.keys so') ltac:(unfold bo, a; lia) ltac:(lia)
                h4 (Node bo [])) as Hloop.
  unfold refines_run in Hloop. cbn [root] in Hloop.
  rewrite erase_obj in Hloop. cbn [erase_fields] in Hloop.
  unfold Store.themedCSS, themedCSS.
  unfold Store.bind at 1. rewrite E1.
  unfold Store.bind at 1. rewrite Es0.
  unfold Store.bind at 1. rewrite Es1.
  unfold Store.bind at 1, Store.alloc at 1. fold th h2 lt.
  unfold Store.bind at 1. fold a. rewrite E3.
  unfold Store.bind at 1. unfold Store.keys_of, Store.bind at 1, Store.load.
  rewrite Ea3. cbn [Store.ret].
  unfold Store.bind at 1, Store.alloc at 1. fold h4 bo.
  rewrite (holds_fields_keys_eq _ _ _ _ Hso3), Hsel.
  rewrite outcome_bind, P3.
  assert (Ea4 : nth_error h4 a = Some (Store.Object hso'))
    by (rewrite F4 by (apply nth_error_Some; congruence); exact Ea3).
  assert (Hso4 : holds_fields (under bo) h4 so' hso').
  { eapply holds_fields_move; [|exact Hso3].
    intros l _ Hl. split; [exact Hl|apply F4, Hl]. }
  specialize (Hloop Ea4 Hso4 Ht0 Henv ltac:(lia)).
  unfold Store.bind at 1.
  destruct (Store.for_each (Obj.keys so') _ h4) as [h5 r5].
  cbn [fst snd] in Hloop. destruct Hloop as (L5 & F5 & Hres).
  assert (Fall5 : forall l, l < length h -> nth_error h5 l = nth_error h l).
  { intros l Hl. rewrite F5; [apply Fall, Hl|unfold bo in *; lia|].
    rewrite locs_obj. intros [<-|[]]. unfold bo in Hl. lia. }
  destruct (outcome (for_each (Obj.keys so') _ (CObj []))) as [out|].
  - destruct Hres as (-> & t' & He & Hr & (Hm & _) & _).
    exists h5, (Store.Done (Store.HRef bo)).
    split; [reflexivity|]. split; [exact Fall5|].
    exists (Store.HRef bo), (height t'). split; [reflexivity|].
    change (Store.HRef bo) with (root (Node bo [])). rewrite <- Hr, <- He.
    apply readback_models; auto.
  - subst r5. exists h5, Store.TypeError. auto.
Qed.

Lemma holds_leaf_grow (R R' : Store.loc -> Prop) h h' x v :
  (forall l, R l -> R' l) ->
  (forall l, l < length h -> nth_error h' l = nth_error h l) ->
  holds_leaf R h x v -> holds_leaf R' h' x v.
Proof.
  intros HR Hf. destruct x as [|o]; cbn [holds_leaf]; [auto|].
  apply holds_grow; assumption.
Qed.

Lemma holds_leaves_grow (R R' : Store.loc -> Prop) h h' xs vs :
  (forall l, R l -> R' l) ->
  (forall l, l < length h -> nth_error h' l = nth_error h l) ->
  holds_leaves R h xs vs -> holds_leaves R' h' xs vs.
Proof.
  intros HR Hf. revert vs.
  induction xs as [|x r IH]; intros [|v vs']; cbn [holds_leaves]; auto.
  intros [H1 H2]. split; [eapply holds_leaf_grow; eassumption|apply IH, H2].
Qed.

Lemma holds_item_grow (R R' : Store.loc -> Prop) h h' i v :
  (forall l, R l -> R' l) ->
  (forall l, l < length h -> nth_error h' l = nth_error h l) ->
  holds_item R h i v -> holds_item R' h' i v.
Proof.
  intros HR Hf. destruct i as [x|xs]; cbn [holds_item].
  - apply holds_leaf_grow; assumption.
  - intros (l & items & -> & E & H). exists l, items.
    split; [reflexivity|]. split.
    + rewrite Hf; [exact E|apply nth_error_Some; congruence].
    + eapply holds_leaves_grow; eassumption.
Qed.

Lemma holds_items_grow (R R' : Store.loc -> Prop) h h' its vs :
  (forall l, R l -> R' l) ->
  (forall l, l < length h -> nth_error h' l = nth_error h l) ->
  holds_items R h its vs -> holds_items R' h' its vs.
Proof.
  intros HR Hf. revert vs.
  induction its as [|i r IH]; intros [|v vs']; cbn [holds_items]; auto.
  intros [H1 H2]. split; [eapply holds_item_grow; eassumption|apply IH, H2].
Qed.

Lemma holds_sx_grow (R R' : Store.loc -> Prop) h h' sx v :
  (forall l, R l -> R' l) ->
  (forall l, l < length h -> nth_error h' l = nth_error h l) ->
  holds_sx R h sx v -> holds_sx R' h' sx v.
Proof.
  intros HR Hf. destruct sx as [x|its]; cbn [holds_sx].
  - apply holds_leaf_grow; assumption.
  - intros (l & items & -> & E & H). exists l, items.
    split; [reflexivity|]. split.
    + rewrite Hf; [exact E|apply nth_error_Some; congruence].
    + eapply holds_items_grow; eassumption.
Qed.

Lemma options_at_grow h h' options soptions :
  length h <= length h' ->
  (forall l, l < length h -> nth_error h' l = nth_error h l) ->
  options_at h options soptions -> options_at h' options soptions.
Proof.
  intros Hlen Hf (Hsx & Hth & Hc & Hsel & Hmaps).
  split; [|split; [|split; [|split; assumption]]].
  - eapply holds_sx_grow; [|exact Hf|exact Hsx]. unfold under. intros; lia.
  - eapply theme_option_at_grow; eassumption.
  - eapply control_at_grow; eassumption.
Qed.

(** A run that starts after the store has grown. *)
Lemma run_refines_after fuel0 h h1 (run run' : nat -> Store.HM Store.hval)
    res :
  (forall fuel, run fuel h = run' fuel h1) ->
  length h <= length h1 ->
  (forall l, l < length h -> nth_error h1 l = nth_error h l) ->
  run_refines fuel0 h1 run' res -> run_refines fuel0 h run res.
Proof.
  intros Hrun Hlen Hf H fuel Hfuel.
  destruct (H fuel Hfuel) as (h' & r & E & Hf' & Hres).
  exists h', r. rewrite Hrun. split; [exact E|]. split; [|exact Hres].
  intros l Hl. rewrite Hf' by lia. apply Hf, Hl.
Qed.

Lemma sim_compileSx options soptions h :
  options_at h options soptions ->
  run_refines (compile_fuel options) h
    (fun fuel => Store.compileSx fuel soptions)
    (outcome (compileSx options)).
Proof.
  intros Hopt. pose proof Hopt as (_ & Hth & _).
  unfold compileSx, compile_fuel.
  destruct (Options.theme options) as [t|]; cbn [theme_option_at] in Hth.
  - apply (run_refines_after _ h h _
             (fun fuel => Store.themedCSS fuel soptions
                            (Store.theme soptions))); auto.
    + intros fuel. unfold Store.compileSx, Store.bind.
      destruct Hth as (l & -> & _). reflexivity.
    + apply sim_themedCSS; assumption.
  - set (h1 := (h ++ [Store.ThemeObject []])%list).
    assert (L1 : length h1 = S (length h))
      by (unfold h1; rewrite length_app; cbn; lia).
    assert (F1 : forall l, l < length h -> nth_error h1 l = nth_error h l)
      by (intros l Hl; unfold h1; apply nth_error_app1, Hl).
    apply (run_refines_after _ h h1 _
             (fun fuel => Store.themedCSS fuel soptions
                            (Store.HRef (length h)))); auto; [|lia|].
    + intros fuel. unfold Store.compileSx, Store.bind. rewrite Hth.
      reflexivity.
    + apply sim_themedCSS.
      * apply (options_at_grow h h1); auto. lia.
      * exists (length h). split; [reflexivity|]. split; [lia|].
        unfold h1. rewrite nth_error_app2 by lia. rewrite Nat.sub_diag.
        reflexivity.
Qed.

(** ** The hook *)

Lemma holds_sx_of_array R h os items l :
  nth_error h l = Some (Store.Array items) ->
  holds_specs R h os items ->
  holds_sx R h (sx_of_array os) (Store.HRef l).
Proof.
  intros E H. exists l, items. split; [reflexivity|]. split; [exact E|].
  clear E. revert items H.
  induction os as [|o r IH]; intros [|v vs]; cbn [holds_specs]; auto.
  intros [H1 H2]. split; [exact H1|apply IH, H2].
Qed.

Lemma theme_or_else b h v1 v2 t1 t2 :
  theme_option_at b h v1 t1 -> theme_option_at b h v2 t2 ->
  theme_option_at b h (Store.or_else v1 v2) (or_else t1 t2).
Proof.
  destruct t1 as [t|]; cbn [theme_option_at or_else].
  - intros H _. pose proof H as (l & -> & _). exact H.
  - intros -> H. exact H.
Qed.

Lemma control_or_else b h v1 v2 c1 c2 :
  control_at b h v1 c1 -> control_at b h v2 c2 ->
  control_at b h (Store.or_else v1 v2) (or_else c1 c2).
Proof.
  destruct c1 as [c|]; cbn [control_at or_else].
  - intros H _. pose proof H as (l & -> & _). exact H.
  - intros -> H. exact H.
Qed.

(** The hook on the store refines the hook of the pure model: from a store
    that holds the options and the contexts, with enough fuel, the store
    version ends as the pure version does, its result read back from the
    store is the pure output, and no cell of the input has changed. *)
Theorem sim_createUseSx registry context props scontext sprops h :
  options_at h props sprops -> context_at h context scontext ->
  run_refines (hook_fuel context props) h
    (fun fuel => Store.createUseSx registry fuel scontext sprops)
    (outcome (createUseSx registry context props)).
Proof.
  intros (Hsx & Hth & Hc & Hsel & Hmaps) (Hcth & Hcc).
  destruct (sim_ensureTruthyArray _ h _ _ Hsx) as (items & E & Hitems).
  set (h1 := (h ++ [Store.Array items])%list) in *.
  assert (L1 : length h1 = S (length h))
    by (unfold h1; rewrite length_app; cbn; lia).
  assert (F1 : forall l, l < length h -> nth_error h1 l = nth_error h l)
    by (intros l Hl; unfold h1; apply nth_error_app1, Hl).
  unfold createUseSx.
  eapply (run_refines_after _ h h1); [| |exact F1|].
  2: lia.
  2: refine (sim_compileSx
               {| Options.control :=
                    or_else (Options.control props) (ControlContext context);
                  Options.selectors :=
                    Some (match Options.selectors props with
                          | Some s => s
                          | None => match registry with
                                    | Some s => s
                                    | None => defaultSelectors
                                    end
                          end);
                  Options.maps := Options.maps props;
                  Options.sx :=
                    sx_of_array (ensureTruthyArray (Options.sx props));
                  Options.theme :=
                    or_else (Options.theme props) (ThemeContext context) |}
               _ h1 _).
  - intros fuel. unfold Store.createUseSx, Store.bind. rewrite E.
    reflexivity.
  - split; [|split; [|split; [|split]]]; cbn.
    + apply (holds_sx_of_array _ h1 _ items).
      * unfold h1. rewrite nth_error_app2 by lia. rewrite Nat.sub_diag.
        reflexivity.
      * eapply holds_specs_grow; [|exact F1|exact Hitems].
        unfold under. intros; lia.
    + apply theme_or_else;
        eapply theme_option_at_grow; try eassumption; lia.
    + apply control_or_else;
        eapply control_at_grow; try eassumption; lia.
    + rewrite Hsel. reflexivity.
    + exact Hmaps.
Qed.

(** ** Two calls *)

Lemma readback_deeper d d' h v c :
  d <= d' -> Store.readback d h v = Some c -> Store.readback d' h v = Some c.
Proof.
  revert d' v c. induction d as [|d IH]; intros [|d'] v c Hd;
    destruct v; cbn [Store.readback]; try discriminate; auto; try lia.
  destruct (nth_error h l) as [[o| | | ]|]; try discriminate.
  destruct (Store.read_fields (Store.readback d h) o) as [fields|] eqn:E;
    [|discriminate].
  rewrite (Twice.read_fields_mono _ (Store.readback d' h) o fields
             (fun x c' => IH d' x c' ltac:(lia)) E).
  auto.
Qed.

Lemma frame_length (h h' : Store.heap) :
  (forall l, l < length h -> nth_error h' l = nth_error h l) ->
  length h <= length h'.
Proof.
  intros Hf. destruct (length h) as [|n] eqn:E; [lia|].
  assert (Hn : n < length h) by lia.
  assert (Hs : nth_error h' n <> None).
  { rewrite Hf by lia. apply nth_error_Some. exact Hn. }
  apply nth_error_Some in Hs. lia.
Qed.

Lemma context_at_grow h h' context scontext :
  length h <= length h' ->
  (forall l, l < length h -> nth_error h' l = nth_error h l) ->
  context_at h context scontext -> context_at h' context scontext.
Proof.
  intros Hlen Hf [H1 H2]. split.
  - eapply theme_option_at_grow; eassumption.
  - eapply control_at_grow; eassumption.
Qed.

(** A second call of the hook, on the store that the first call left, ends
    as the first does: both fail with [TypeError], or both return an output
    that reads back as the output of the pure model; the inputs are
    unchanged after both. *)
Theorem sim_twice registry context props scontext sprops h fuel :
  options_at h props sprops -> context_at h context scontext ->
  hook_fuel context props <= fuel ->
  exists h1 r1 h2 r2,
    Store.createUseSx registry fuel scontext sprops h = (h1, r1) /\
    Store.createUseSx registry fuel scontext sprops h1 = (h2, r2) /\
    (forall l, l < length h -> nth_error h2 l = nth_error h l) /\
    match outcome (createUseSx registry context props) with
    | Ok out =>
        exists v1 v2 d,
          r1 = Store.Done v1 /\ r2 = Store.Done v2 /\
          Store.readback d h2 v1 = Some out /\
          Store.readback d h2 v2 = Some out
    | TypeError => r1 = Store.TypeError /\ r2 = Store.TypeError
    end.
Proof.
  intros Ho Hc Hfuel.
  destruct (sim_createUseSx registry context props scontext sprops h Ho Hc
              fuel Hfuel) as (h1 & r1 & E1 & F1 & R1).
  pose proof (frame_length h h1 F1) as L1.
  destruct (sim_createUseSx registry context props scontext sprops h1
              (options_at_grow h h1 _ _ L1 F1 Ho)
              (context_at_grow h h1 _ _ L1 F1 Hc)
              fuel Hfuel) as (h2 & r2 & E2 & F2 & R2).
  exists h1, r1, h2, r2.
  split; [exact E1|]. split; [exact E2|]. split.
  { intros l Hl. rewrite F2 by lia. apply F1, Hl. }
  destruct (outcome (createUseSx registry context props)) as [out|];
    [|split; assumption].
  destruct R1 as (v1 & d1 & -> & B1), R2 as (v2 & d2 & -> & B2).
  exists v1, v2, (Nat.max d1 d2).
  split; [reflexivity|]. split; [reflexivity|]. split.
  - apply (readback_deeper d1); [lia|].
    apply (Twice.readback_preserves h1 h2); [|exact B1].
    intros l c E. rewrite F2; [exact E|].
    apply nth_error_Some. congruence.
  - apply (readback_deeper d2); [lia|exact B2].
Qed.

(** The map of the repository's test. *)
Lemma fill_map_refines : map_refines fill_map StoreSpec.fill_map.
Proof.
  intros R h x v th Hx.
  exists (h ++ [Store.Object [("fill", v)]])%list, (Store.HRef (length h)).
  assert (Hf : forall l, l < length h ->
                 nth_error (h ++ [Store.Object [("fill", v)]]) l
                 = nth_error h l)
    by (intros l Hl; apply nth_error_app1, Hl).
  split; [reflexivity|].
  split; [rewrite length_app; lia|].
  split; [exact Hf|].
  apply holds_obj. exists (length h), [("fill", v)].
  split; [reflexivity|]. split; [right; lia|]. split.
  - rewrite nth_error_app2 by lia. rewrite Nat.sub_diag. reflexivity.
  - cbn [fill_map holds_fields]. split; [reflexivity|]. split; [|exact I].
    eapply holds_grow; [|exact Hf|exact Hx]. auto.
Qed.

Lemma mapped_options_at :
  options_at StoreSpec.test_heap mapped_props StoreSpec.test_props.
Proof.
  split; [|split; [|split; [|split]]]; cbn; try reflexivity.
  - exists 1, [("color", Store.HRef 0)].
    split; [reflexivity|]. split; [unfold under; lia|].
    split; [reflexivity|]. split; [reflexivity|]. split; [|exact I].
    exists 0, [("default", Store.HStr "black"); ("hover", Store.HStr "red")].
    split; [reflexivity|]. split; [unfold under; lia|].
    split; [reflexivity|]. cbn. tauto.
  - split; [reflexivity|]. split; [apply fill_map_refines|exact I].
Qed.

Lemma mapped_context_at :
  context_at StoreSpec.test_heap mapped_context StoreSpec.test_context.
Proof.
  split; cbn.
  - exists 2. repeat split. lia.
  - exists 3. repeat split. lia.
Qed.

(** The repository's test of mapped selectors, on the store and in the pure
    model. *)
Example mapped_run_refines :
  run_refines 2 StoreSpec.test_heap
    (fun fuel =>
       Store.createUseSx None fuel StoreSpec.test_context
         StoreSpec.test_props)
    (Ok (CObj [("fill", CStr "black");
               (".btn:hover &", CObj [("fill", CStr "red")])])).
Proof.
  apply (sim_createUseSx None mapped_context mapped_props).
  - exact mapped_options_at.
  - exact mapped_context_at.
Qed.

Example mapped_twice :
  exists h1 v1 h2 v2 d,
    Store.createUseSx None 2 StoreSpec.test_context StoreSpec.test_props
      StoreSpec.test_heap = (h1, Store.Done v1)
    /\ Store.createUseSx None 2 StoreSpec.test_context StoreSpec.test_props
         h1 = (h2, Store.Done v2)
    /\ Store.readback d h2 v1
       = Some (CObj [("fill", CStr "black");
                     (".btn:hover &", CObj [("fill", CStr "red")])])
    /\ Store.readback d h2 v2 = Store.readback d h2 v1.
Proof.
  destruct (sim_twice None mapped_context mapped_props
              StoreSpec.test_context StoreSpec.test_props
              StoreSpec.test_heap 2 mapped_options_at mapped_context_at)
    as (h1 & r1 & h2 & r2 & E1 & E2 & _ & R); [vm_compute; lia|].
  assert (Hout : outcome (createUseSx None mapped_context mapped_props)
                 = Ok (CObj [("fill", CStr "black");
                             (".btn:hover &", CObj [("fill", CStr "red")])]))
    by reflexivity.
  rewrite Hout in R. destruct R as (v1 & v2 & d & -> & -> & B1 & B2).
  exists h1, v1, h2, v2, d.
  split; [exact E1|]. split; [exact E2|]. split; [exact B1|].
  rewrite B1. exact B2.
Qed.

End Refinement.

(** ** C9: compiling twice *)



Lemma test_maps_pure : StoreSpec.maps_pure (Store.maps StoreSpec.test_props).
Proof.
  intros ms key m [= <-] Hm. cbn in Hm.
  destruct (key =? "color"); [|discriminate Hm].
  injection Hm as <-. exact StoreFacts.fill_map_pure.
Qed.



(** The second run of the test: another object, the same tree. *)
Example second_run_example :
  match Store.useSx 3 StoreSpec.test_context StoreSpec.test_props
          StoreSpec.test_heap with
  | (h1, Store.Done out1) =>
      match Store.useSx 3 StoreSpec.test_context StoreSpec.test_props h1 with
      | (h2, Store.Done out2) =>
          out1 = Store.HRef 9 /\ out2 = Store.HRef 16
          /\ Store.readback 3 h2 out1 = Store.readback 3 h2 out2
          /\ Store.readback 3 h2 out2
             = Some (CObj [("fill", CStr "black");
                           (".btn:hover &", CObj [("fill", CStr "red")])])
      | _ => False
      end
  | _ => False
  end.
Proof. vm_compute. repeat split; reflexivity. Qed.

(** * Further properties of the sources *)

(** ** [flatMap] *)

Module FlatMapFacts.

Lemma map_from_app {T U} i (fn : T -> nat -> U) (a b : list T) :
  map_from i fn (a ++ b)
  = (map_from i fn a ++ map_from (i + length a) fn b)%list.
Proof.
  revert i. induction a as [|t r IH]; intros i; cbn [map_from app length].
  - rewrite Nat.add_0_r. reflexivity.
  - rewrite IH. replace (S i + length r) with (i + S (length r)) by lia.
    reflexivity.
Qed.

Lemma map_from_add {T U} i k (fn : T -> nat -> U) (b : list T) :
  map_from (i + k) fn b = map_from k (fun t j => fn t (i + j)) b.
Proof.
  revert k. induction b as [|t r IH]; intros k; cbn [map_from];
    [reflexivity|].
  f_equal. rewrite <- IH. replace (S (i + k)) with (i + S k) by lia.
  reflexivity.
Qed.

Lemma map_from_shift {T U} i (fn : T -> nat -> U) (b : list T) :
  map_from i fn b = map_from 0 (fun t j => fn t (i + j)) b.
Proof. rewrite <- map_from_add, Nat.add_0_r. reflexivity. Qed.

Lemma map_from_nth {T U} i (fn : T -> nat -> U) (array : list T) k :
  nth_error (map_from i fn array) k
  = option_map (fun t => fn t (i + k)) (nth_error array k).
Proof.
  revert i k. induction array as [|t r IH]; intros i [|k];
    cbn [map_from nth_error option_map]; try reflexivity.
  - rewrite Nat.add_0_r. reflexivity.
  - rewrite IH. destruct (nth_error r k); cbn [option_map]; [|reflexivity].
    replace (S i + k) with (i + S k) by lia. reflexivity.
Qed.

Lemma map_from_const {T U} i (g : T -> U) (array : list T) :
  map_from i (fun t _ => g t) array = map g array.
Proof.
  revert i. induction array as [|t r IH]; intros i; cbn [map_from map];
    [reflexivity|].
  rewrite IH. reflexivity.
Qed.

Lemma concat_singles {T E} i (g : T -> nat -> E) (array : list T) :
  concat (map spread (map_from i (fun t j => One (g t j)) array))
  = map_from i g array.
Proof.
  revert i. induction array as [|t r IH]; intros i;
    cbn [map_from map concat spread app]; [reflexivity|].
  rewrite IH. reflexivity.
Qed.

End FlatMapFacts.

(** X1: when [fn] returns one element for every input, [flatMap] is
    [array.map(fn)]: as many elements as the input has, in its order, [fn]
    being given each element with its index. *)
Theorem flatMap_singles {T E} (array : list T) :
  (forall g : T -> nat -> E,
     flatMap array (fun t i => One (g t i)) = map_from 0 g array)
  /\ (forall g : T -> E, flatMap array (fun t _ => One (g t)) = map g array).
Proof.
  split; intros g; unfold flatMap.
  - apply FlatMapFacts.concat_singles.
  - rewrite (FlatMapFacts.concat_singles 0 (fun t _ => g t)).
    apply FlatMapFacts.map_from_const.
Qed.

(** X2: [flatMap] of two arrays one after the other is the results one after
    the other, the elements of the second array being given their index in
    the whole. *)
Theorem flatMap_app {T E} (a b : list T) (fn : T -> nat -> flat E) :
  flatMap (a ++ b) fn
  = (flatMap a fn ++ flatMap b (fun t i => fn t (length a + i)))%list.
Proof.
  unfold flatMap.
  rewrite FlatMapFacts.map_from_app, map_app, concat_app. cbn [Nat.add].
  rewrite (FlatMapFacts.map_from_shift (length a)). reflexivity.
Qed.

(** X3: the result of [flatMap] holds exactly what [fn] returns for the
    elements at their indices: the one element, or the elements of the
    array. *)
Theorem flatMap_In {T E} (array : list T) (fn : T -> nat -> flat E) (e : E) :
  In e (flatMap array fn) <->
  exists i t, nth_error array i = Some t /\ In e (spread (fn t i)).
Proof.
  unfold flatMap. rewrite in_concat. split.
  - intros (l & Hl & He). apply in_map_iff in Hl.
    destruct Hl as (x & <- & Hx). apply In_nth_error in Hx.
    destruct Hx as [i Hi]. rewrite FlatMapFacts.map_from_nth in Hi.
    destruct (nth_error array i) as [t|] eqn:Et; [|discriminate Hi].
    injection Hi as <-. exists i, t. auto.
  - intros (i & t & Et & He). exists (spread (fn t i)). split; [|exact He].
    apply in_map. apply (nth_error_In _ i).
    rewrite FlatMapFacts.map_from_nth, Et. reflexivity.
Qed.

(** X4: returning the empty array drops an element: [flatMap] with a
    function that returns the element itself where [keep] holds and [[]]
    elsewhere is [array.filter(keep)]. *)
Theorem flatMap_filter {T} (keep : T -> bool) (array : list T) :
  flatMap array (fun t _ => if keep t then One t else Many [])
  = filter keep array.
Proof.
  unfold flatMap. generalize 0 as i.
  induction array as [|t r IH]; intros i; cbn [map_from map concat filter];
    [reflexivity|].
  rewrite IH. destruct (keep t); reflexivity.
Qed.

(** ** Compiling one branch *)

Module BranchFacts.


Lemma resolve_selector_of theme selectors control name :
  outcome (resolve theme selectors control name)
  = Ok (selector_of theme selectors control name).
Proof.
  unfold resolve, selector_of.
  destruct (Obj.get name selectors); reflexivity.
Qed.

Lemma compile_single_branch theme selectors control output P name v :
  mutableCompileSxProperty theme selectors control output P
    (VObj [(name, v)])
  = compile_branch
      (fun subOutput =>
         mutableCompileSxProperty theme selectors control subOutput P v)
      theme selectors control name output.
Proof.
  rewrite compile_selector_map, ObjFacts.keys_single, for_each_single.
  unfold branch_of. cbn [Obj.get]. rewrite String.eqb_refl. reflexivity.
Qed.




Lemma get_set_keeps {V} k k' (v : V) (o : Obj.t V) :
  Obj.get k o <> None -> Obj.get k (Obj.set k' v o) <> None.
Proof.
  intros H. rewrite ObjFacts.get_set. destruct (k =? k'); [discriminate|].
  exact H.
Qed.

End BranchFacts.

(** ** Boundaries made by [control] *)

(** X5: a Boundary Descriptor made by [control(Component)] sets no override
    flag, so every built-in state selector resolves under it to the
    component's selector with the pseudo-class of the state, followed by
    [" &"] -- [focusWithin] with the pseudo-class of [focus] -- and never to
    [null] or to ["&"]. *)
Theorem control_delegates (Component : string) :
  Forall
    (fun name =>
       exists r,
         Obj.get name defaultSelectors = Some r /\
         forall theme,
           r theme (Some (control Component))
           = Some ((Component ++ ":" ++ state_of name) ++ " &"))
    builtin_names.
Proof.
  unfold builtin_names.
  repeat (constructor;
          [eexists; split; [reflexivity|intros theme; reflexivity]|]).
  constructor.
Qed.





(** ** Selector maps *)

(** X8: a value wrapped in [{ default: ... }] compiles as the value itself,
    whatever the value and the output are: the same calls, the same
    result. *)
Theorem default_transparent theme selectors control output P x :
  mutableCompileSxProperty theme selectors control output P
    (VObj [("default", x)])
  = mutableCompileSxProperty theme selectors control output P x.
Proof.
  rewrite BranchFacts.compile_single_branch. unfold compile_branch.
  reflexivity.
Qed.







(** X12: a selector name that resolves to the empty string -- the name [""]
    itself when it is not registered, or a resolver that returns [""] -- is
    skipped as one that resolves to [null] is: the output is unchanged and
    nothing under the branch is called, only the resolver. *)
Theorem empty_selector_skip theme selectors control output P name v :
  name <> "default" ->
  selector_of theme selectors control name = Some "" ->
  outcome
    (mutableCompileSxProperty theme selectors control output P
       (VObj [(name, v)]))
  = Ok output
  /\ calls
       (mutableCompileSxProperty theme selectors control output P
          (VObj [(name, v)]))
     = calls (resolve theme selectors control name).
Proof.
  intros Hd Hsel. rewrite BranchFacts.compile_single_branch.
  unfold compile_branch.
  destruct (String.eqb_spec name "default"); [contradiction|].
  pose proof (BranchFacts.resolve_selector_of theme selectors control name)
    as Hr.
  destruct (resolve theme selectors control name) as [l [sel|]];
    cbn [outcome snd] in Hr; [|discriminate Hr].
  injection Hr as ->. rewrite Hsel. cbn [bind].
  change ("" =? "") with true. cbv iota.
  cbn [ret calls outcome fst snd]. rewrite app_nil_r. auto.
Qed.

Lemma empty_selector_skip_witness :
  outcome
    (mutableCompileSxProperty [] defaultSelectors None (CObj []) "color"
       (VObj [("", VFun (fun _ => LStr "red"))]))
  = Ok (CObj [])
  /\ calls
       (mutableCompileSxProperty [] defaultSelectors None (CObj []) "color"
          (VObj [("", VFun (fun _ => LStr "red"))]))
     = calls (resolve [] defaultSelectors None "").
Proof.
  apply (empty_selector_skip [] defaultSelectors None (CObj []) "color" ""
           (VFun (fun _ => LStr "red"))).
  - discriminate.
  - reflexivity.
Defined.

(** ** What compiling leaves in place *)

Module KeepFacts.

Lemma keeps_for_each ks (body : string -> css -> M css) :
  (forall k o out,
     In k ks -> outcome (body k (CObj o)) = Ok out ->
     exists o', out = CObj o' /\
                forall j, Obj.get j o <> None -> Obj.get j o' <> None) ->
  forall o out,
    outcome (for_each ks body (CObj o)) = Ok out ->
    exists o', out = CObj o' /\
               forall j, Obj.get j o <> None -> Obj.get j o' <> None.
Proof.
  induction ks as [|k r IH]; intros Hb o out; cbn [for_each].
  - intros [= <-]. exists o. auto.
  - rewrite Refinement.outcome_bind.
    destruct (outcome (body k (CObj o))) as [out1|] eqn:E1; [|discriminate].
    destruct (Hb k o out1 (or_introl eq_refl) E1) as (o1 & -> & H1).
    intros E.
    destruct (IH (fun k' o' out' Hk' => Hb k' o' out' (or_intror Hk'))
                o1 out E) as (o' & -> & H').
    exists o'. auto.
Qed.

Lemma keeps_branch recur theme selectors control name :
  (forall o out,
     outcome (recur (CObj o)) = Ok out ->
     exists o', out = CObj o' /\
                forall j, Obj.get j o <> None -> Obj.get j o' <> None) ->
  forall o out,
    outcome (compile_branch recur theme selectors control name (CObj o))
    = Ok out ->
    exists o', out = CObj o' /\
               forall j, Obj.get j o <> None -> Obj.get j o' <> None.
Proof.
  intros Hrec o out. unfold compile_branch.
  destruct (name =? "default"); [apply Hrec|].
  rewrite Refinement.outcome_bind, BranchFacts.resolve_selector_of.
  destruct (selector_of theme selectors control name) as [s|];
    [|intros [= <-]; exists o; auto].
  destruct (s =? ""); [intros [= <-]; exists o; auto|].
  assert (Hnew :
    outcome (bind (write (CObj o) s (CObj []))
               (fun output' =>
                  bind (recur (CObj []))
                    (fun sub => ret (store output' s sub)))) = Ok out ->
    exists o', out = CObj o' /\
               forall j, Obj.get j o <> None -> Obj.get j o' <> None).
  { cbn [write]. rewrite bind_ret_l, Refinement.outcome_bind.
    destruct (outcome (recur (CObj []))) as [sub|]; [|discriminate].
    cbn [ret outcome snd store]. intros [= <-]. eexists.
    split; [reflexivity|]. intros j Hj.
    apply BranchFacts.get_set_keeps, BranchFacts.get_set_keeps, Hj. }
  destruct (read (CObj o) s) as [cur|]; [|exact Hnew].
  destruct (truthy cur); [|exact Hnew].
  rewrite Refinement.outcome_bind.
  destruct (outcome (recur cur)) as [sub|]; [|discriminate].
  cbn [ret outcome snd store]. intros [= <-]. eexists.
  split; [reflexivity|]. intros j Hj.
  apply BranchFacts.get_set_keeps, Hj.
Qed.

Lemma get_Some_In {V} k (v : V) (o : Obj.t V) :
  Obj.get k o = Some v -> In (k, v) o.
Proof.
  induction o as [|[k0 v0] r IH]; cbn [Obj.get]; [discriminate|].
  destruct (String.eqb_spec k k0) as [->|_].
  - intros [= ->]. left. reflexivity.
  - intros H. right. apply IH, H.
Qed.

End KeepFacts.

(** X20: compiling a property into an output object never removes a
    property from it: when the run does not fail, the result is an object
    that has every key the output had -- other properties and other
    selectors' sub-levels stay, whatever the value compiled. *)
Theorem compile_keeps_keys theme selectors control P x :
  forall o out,
    outcome (mutableCompileSxProperty theme selectors control (CObj o) P x)
    = Ok out ->
    exists o', out = CObj o' /\
               forall k, Obj.get k o <> None -> Obj.get k o' <> None.
Proof.
  induction x as [ | |b|n|s|f|xs _|fields IH]
    using Refinement.value_induction; intros o out;
    try solve [cbn; intros [= <-]; exists o; auto].
  - cbn. intros [= <-]. eexists. split; [reflexivity|].
    intros k. apply BranchFacts.get_set_keeps.
  - cbn. intros [= <-]. eexists. split; [reflexivity|].
    intros k. apply BranchFacts.get_set_keeps.
  - cbn. intros [= <-]. eexists. split; [reflexivity|].
    intros k. apply BranchFacts.get_set_keeps.
  - rewrite compile_selector_map. apply KeepFacts.keeps_for_each.
    intros name o1 out1 _. unfold branch_of.
    destruct (Obj.get name fields) as [v|] eqn:E;
      [|intros [= <-]; exists o1; auto].
    apply KeepFacts.keeps_branch. intros o2 out2.
    apply KeepFacts.get_Some_In in E. rewrite Forall_forall in IH.
    apply (IH (name, v) E).
Qed.

Lemma compile_keeps_keys_witness :
  exists o',
    CObj [("color", CStr "black"); ("&:hover", CObj [("fill", CStr "red")])]
    = CObj o' /\
    forall k,
      Obj.get k [("color", CStr "black")] <> None ->
      Obj.get k o' <> None.
Proof.
  apply (compile_keeps_keys [] defaultSelectors None "fill"
           (VObj [("hover", VStr "red")]) [("color", CStr "black")]).
  reflexivity.
Defined.

(** ** The hook *)

Module HookFacts.

Lemma ensureTruthyArray_of_array (l : list SxObject) :
  ensureTruthyArray (sx_of_array l) = l.
Proof.
  unfold sx_of_array. cbn [ensureTruthyArray].
  induction l as [|o r IH]; cbn [map flat_map truthy_leaves app];
    [reflexivity|].
  cbn [flat_map truthy_leaves app] in IH |- *. rewrite IH. reflexivity.
Qed.

Lemma mergeSx_normalized sx :
  mergeSx (sx_of_array (ensureTruthyArray sx)) = mergeSx sx.
Proof. unfold mergeSx. rewrite ensureTruthyArray_of_array. reflexivity. Qed.

(** Compiling a plain value writes a literal, or nothing, and calls
    nothing. *)
Lemma compile_plain theme selectors control o P x :
  plain x = true ->
  mutableCompileSxProperty theme selectors control (CObj o) P x
  = ret (CObj (match plain_css (Some x) with
               | Some c => Obj.set P c o
               | None => o
               end)).
Proof. destruct x; cbn; intros H; try discriminate H; reflexivity. Qed.

Lemma for_each_plain theme selectors control (so : SxObject) ks :
  (forall k, In k ks -> plain (or_undefined (Obj.get k so)) = true) ->
  forall acc,
    for_each ks
      (fun propName output =>
         mutableCompileSxProperty theme selectors control output propName
           (or_undefined (Obj.get propName so)))
      (CObj acc)
    = ret (CObj (fold_left
                   (fun acc k =>
                      match plain_css (Obj.get k so) with
                      | Some c => Obj.set k c acc
                      | None => acc
                      end) ks acc)).
Proof.
  induction ks as [|k r IH]; intros Hks acc; cbn [for_each fold_left];
    [reflexivity|].
  rewrite compile_plain by (apply Hks; left; reflexivity).
  rewrite bind_ret_l, IH by (intros k' Hk'; apply Hks; right; exact Hk').
  destruct (Obj.get k so) as [x|]; reflexivity.
Qed.

Lemma get_fold_plain_out (so : SxObject) k ks :
  ~ In k ks ->
  forall acc,
    Obj.get k (fold_left
                 (fun acc k =>
                    match plain_css (Obj.get k so) with
                    | Some c => Obj.set k c acc
                    | None => acc
                    end) ks acc)
    = Obj.get k acc.
Proof.
  induction ks as [|k0 r IH]; intros Hn acc; cbn [fold_left];
    [reflexivity|].
  rewrite IH by (intros H; apply Hn; right; exact H).
  destruct (plain_css (Obj.get k0 so)); [|reflexivity].
  apply ObjFacts.get_set_other. intros ->. apply Hn. left. reflexivity.
Qed.

Lemma get_fold_plain_in (so : SxObject) k ks :
  In k ks ->
  forall acc,
    Obj.get k (fold_left
                 (fun acc k =>
                    match plain_css (Obj.get k so) with
                    | Some c => Obj.set k c acc
                    | None => acc
                    end) ks acc)
    = match plain_css (Obj.get k so) with
      | Some c => Some c
      | None => Obj.get k acc
      end.
Proof.
  induction ks as [|k0 r IH]; intros Hin acc; cbn [fold_left];
    [destruct Hin|].
  destruct (in_dec string_dec k r) as [Hr|Hr].
  - rewrite (IH Hr). destruct (plain_css (Obj.get k so)) eqn:E;
      [reflexivity|].
    destruct (plain_css (Obj.get k0 so)) eqn:E0; [|reflexivity].
    apply ObjFacts.get_set_other. intros ->. congruence.
  - destruct Hin as [->|Hin]; [|contradiction].
    rewrite (get_fold_plain_out so k r Hr).
    destruct (plain_css (Obj.get k so)); [|reflexivity].
    apply ObjFacts.get_set_same.
Qed.


Lemma last_wins_from k (l : list SxObject) (found : option value) :
  fold_left
    (fun found o =>
       match Obj.get k o with
       | Some v => Some v
       | None => found
       end) l found
  = match last_wins k l with
    | Some v => Some v
    | None => found
    end.
Proof.
  unfold last_wins. revert found.
  induction l as [|o r IH]; intros found; cbn [fold_left]; [reflexivity|].
  rewrite IH, (IH (match Obj.get k o with
                   | Some v => Some v
                   | None => None
                   end)).
  match goal with
  | |- context [fold_left ?f r None] => destruct (fold_left f r None)
  end; [reflexivity|].
  destruct (Obj.get k o); reflexivity.
Qed.

Lemma last_wins_app k (l1 l2 : list SxObject) :
  last_wins k (l1 ++ l2)
  = match last_wins k l2 with
    | Some v => Some v
    | None => last_wins k l1
    end.
Proof.
  unfold last_wins at 1. rewrite fold_left_app.
  apply last_wins_from.
Qed.

End HookFacts.

(** X13: without maps, when every property of the merged specification is a
    literal or a shape that the compiler passes over (boolean, [null],
    [undefined], array), the hook calls no caller-supplied function and
    returns the literal properties as they are -- [0] and the empty string
    too -- and none of the others. *)
Theorem plain_spec_law registry context props :
  Options.maps props = None ->
  Forall (fun kv => plain (snd kv) = true) (mergeSx (Options.sx props)) ->
  exists o,
    createUseSx registry context props = ([], Ok (CObj o)) /\
    forall k,
      Obj.get k o = plain_css (Obj.get k (mergeSx (Options.sx props))).
Proof.
  intros Hmaps Hplain. unfold createUseSx, compileSx, themedCSS.
  cbn [Options.sx Options.maps Options.theme Options.control
       Options.selectors]. rewrite Hmaps. cbn [expand_maps].
  rewrite bind_ret_l, HookFacts.mergeSx_normalized.
  set (so := mergeSx (Options.sx props)) in *.
  rewrite HookFacts.for_each_plain.
  2: { intros k Hk. destruct (Obj.get k so) as [x|] eqn:E; [|reflexivity].
       apply KeepFacts.get_Some_In in E.
       rewrite Forall_forall in Hplain. apply (Hplain (k, x) E). }
  eexists. split; [reflexivity|].
  intros k. destruct (in_dec string_dec k (Obj.keys so)) as [Hin|Hout].
  - rewrite (HookFacts.get_fold_plain_in so k _ Hin).
    destruct (plain_css (Obj.get k so)); reflexivity.
  - rewrite (HookFacts.get_fold_plain_out so k _ Hout). cbn [Obj.get].
    destruct (Obj.get k so) eqn:E; [|reflexivity].
    exfalso. apply Hout, ObjFacts.keys_get. congruence.
Qed.

Lemma plain_spec_law_witness :
  exists o,
    createUseSx None no_context
      (sx_props None
         (SxArray [SxLeaf (SxObj [("opacity", VNum 0); ("color", VNull)]);
                   SxLeaf SxFalsy;
                   SxLeaf (SxObj [("content", VStr "")])]))
    = ([], Ok (CObj o)) /\
    forall k,
      Obj.get k o
      = plain_css
          (Obj.get k
             (mergeSx
                (SxArray [SxLeaf (SxObj [("opacity", VNum 0);
                                         ("color", VNull)]);
                          SxLeaf SxFalsy;
                          SxLeaf (SxObj [("content", VStr "")])]))).
Proof.
  apply (plain_spec_law None no_context
           (sx_props None
              (SxArray [SxLeaf (SxObj [("opacity", VNum 0);
                                       ("color", VNull)]);
                        SxLeaf SxFalsy;
                        SxLeaf (SxObj [("content", VStr "")])]))).
  - reflexivity.
  - repeat constructor.
Defined.

(** ** Runs that cannot fail *)

Module SafeFacts.








End SafeFacts.





Module OrderFacts.






End OrderFacts.


(** X14: merging composes.  The merge of two sequences of specifications
    one after the other gives each property the value it has in the merge
    of the second sequence, if it has one there, and the value it has in the
    merge of the first otherwise; so merging in two stages -- the merged
    halves as a two-element sequence -- gives every property the value that
    merging the whole sequence at once gives it. *)
Theorem merge_concat_law (l1 l2 : list SxObject) (k : string) :
  Obj.get k (mergeSx (sx_of_array (l1 ++ l2)))
  = match Obj.get k (mergeSx (sx_of_array l2)) with
    | Some v => Some v
    | None => Obj.get k (mergeSx (sx_of_array l1))
    end
  /\ Obj.get k
       (mergeSx (sx_of_array [mergeSx (sx_of_array l1);
                              mergeSx (sx_of_array l2)]))
     = Obj.get k (mergeSx (sx_of_array (l1 ++ l2))).
Proof.
  rewrite !mergeSx_last_wins, !HookFacts.ensureTruthyArray_of_array.
  rewrite HookFacts.last_wins_app.
  split; [reflexivity|].
  unfold last_wins at 1. cbn [fold_left].
  rewrite !mergeSx_last_wins, !HookFacts.ensureTruthyArray_of_array.
  destruct (last_wins k l2); [reflexivity|].
  destruct (last_wins k l1); reflexivity.
Qed.





(** ** What the caller's functions are called with *)

Module CallFacts.

Lemma calls_bind {A B} (Q : event -> Prop) (m : M A) (f : A -> M B) :
  Forall Q (calls m) -> (forall a, Forall Q (calls (f a))) ->
  Forall Q (calls (bind m f)).
Proof.
  destruct m as [l [a|]]; cbn [calls fst bind]; intros Hm Hf; [|exact Hm].
  specialize (Hf a). destruct (f a) as [l' r]. cbn [calls fst] in *.
  apply Forall_app. split; assumption.
Qed.

Lemma calls_for_each {S} (Q : event -> Prop) ks
    (body : string -> S -> M S) :
  (forall k s, In k ks -> Forall Q (calls (body k s))) ->
  forall s, Forall Q (calls (for_each ks body s)).
Proof.
  induction ks as [|k r IH]; intros Hb s; cbn [for_each];
    [constructor|].
  apply calls_bind; [apply Hb; left; reflexivity|].
  intros s'. apply IH. intros k' s'' Hk'. apply Hb. right. exact Hk'.
Qed.

Lemma calls_write (Q : event -> Prop) output k v :
  Forall Q (calls (write output k v)).
Proof. destruct output; constructor. Qed.

Lemma calls_resolve theme selectors control name :
  Forall (event_env theme control)
    (calls (resolve theme selectors control name)).
Proof.
  unfold resolve. destruct (Obj.get name selectors); cbn;
    repeat constructor.
Qed.

Lemma calls_compile_branch recur theme selectors control name output :
  (forall sub, Forall (event_env theme control) (calls (recur sub))) ->
  Forall (event_env theme control)
    (calls (compile_branch recur theme selectors control name output)).
Proof.
  intros Hrec. unfold compile_branch.
  destruct (name =? "default"); [apply Hrec|].
  apply calls_bind; [apply calls_resolve|]. intros [s|]; [|constructor].
  destruct (s =? ""); [constructor|].
  assert (Hnew : Forall (event_env theme control)
                   (calls (bind (write output s (CObj []))
                             (fun output' =>
                                bind (recur (CObj []))
                                  (fun sub => ret (store output' s sub)))))).
  { apply calls_bind; [apply calls_write|]. intros output'.
    apply calls_bind; [apply Hrec|]. intros sub. constructor. }
  destruct (read output s) as [cur|]; [|exact Hnew].
  destruct (truthy cur); [|exact Hnew].
  apply calls_bind; [apply Hrec|]. intros sub. constructor.
Qed.

Lemma calls_compile theme selectors control P x :
  forall output,
    Forall (event_env theme control)
      (calls (mutableCompileSxProperty theme selectors control output P x)).
Proof.
  induction x as [ | |b|n|s|f|xs _|o IH] using Refinement.value_induction;
    intros output; try (cbn; constructor).
  - apply calls_write.
  - apply calls_write.
  - cbn [mutableCompileSxProperty]. apply calls_bind.
    + cbn. repeat constructor.
    + intros _. apply calls_write.
  - rewrite compile_selector_map. apply calls_for_each.
    intros k out _. unfold branch_of.
    destruct (Obj.get k o) as [v|] eqn:E; [|constructor].
    apply calls_compile_branch. intros sub.
    apply KeepFacts.get_Some_In in E. rewrite Forall_forall in IH.
    apply (IH (k, v) E).
Qed.

Lemma calls_expand_map maps theme control key styleObject :
  Forall (event_env theme control)
    (calls (expand_map maps theme key styleObject)).
Proof.
  unfold expand_map. destruct (Obj.get key maps); cbn;
    repeat constructor.
Qed.

End CallFacts.

(** X16: every call that a run of the hook makes to a caller-supplied
    function -- theme functions, selector resolvers, map functions, at any
    depth -- is made with the same theme, the effective one, and every
    resolver with the same Boundary Descriptor, the one of the options if
    there is one and the one of the context otherwise. *)
Theorem calls_environment registry context props :
  Forall
    (event_env
       (effective_theme (Options.theme props) (ThemeContext context))
       (or_else (Options.control props) (ControlContext context)))
    (calls (createUseSx registry context props)).
Proof.
  unfold createUseSx, compileSx, themedCSS.
  cbn [Options.sx Options.maps Options.theme Options.control
       Options.selectors].
  apply CallFacts.calls_bind.
  - destruct (Options.maps props) as [maps|]; cbn [expand_maps];
      [|constructor].
    apply CallFacts.calls_for_each. intros k s _.
    apply CallFacts.calls_expand_map.
  - intros styleObject. apply CallFacts.calls_for_each. intros k s _.
    apply CallFacts.calls_compile.
Qed.



(** ** The store: what the results share with the inputs *)

Module ShapeFacts.
Import Store StoreSpec StoreShape.











(** *** Where the output lies *)

Lemma yields_bind {A} n (m : HM A) (f : A -> HM hval) (Q : A -> Prop) :
  triple no_inv n m Q ->
  (forall a, Q a -> yields_closed n (f a)) ->
  yields_closed n (bind m f).
Proof.
  intros Hm Hf h h' out Hn E. unfold bind in E.
  destruct (m h) as [h1 r1] eqn:E1.
  destruct (Hm h h1 r1 Hn I E1) as (Hlen & _ & _ & HQ).
  destruct r1 as [a| | | ]; try discriminate E.
  apply (Hf a (HQ a eq_refl) h1 h' out); [lia|exact E].
Qed.

(** From the allocation of [output] on, the run stays above it. *)
Lemma yields_output n (g : hval -> HM unit) :
  (forall b, n <= b -> triple (closed_above b) b (g (HRef b)) any) ->
  yields_closed n
    (bind (alloc (Object []))
       (fun output => bind (g output) (fun _ => ret output))).
Proof.
  intros Hg h h' out Hn E. unfold bind at 1, alloc in E.
  unfold bind in E.
  destruct (g (HRef (length h)) (h ++ [Object []])%list) as [h1 r1] eqn:E1.
  destruct r1 as [[]| | | ]; try discriminate E.
  injection E as <- <-.
  exists (length h). split; [reflexivity|]. split; [exact Hn|].
  destruct (Hg (length h) Hn (h ++ [Object []])%list h1 (Done tt))
    as (_ & Hc & _); [rewrite length_app; cbn; lia| |exact E1|exact Hc].
  apply StoreFacts.closed_above_alloc; [lia|].
  intros l o k l' Hl El.
  assert (l < length h) by (apply nth_error_Some; congruence). lia.
Qed.

Lemma yields_themedCSS n fuel options theme :
  maps_pure (maps options) ->
  yields_closed n (themedCSS fuel options theme).
Proof.
  intros Hmaps. unfold themedCSS.
  eapply yields_bind; [apply StoreFacts.triple_mergeSx|].
  intros styleObject Hs. apply StoreFacts.new_object_fresh in Hs.
  eapply yields_bind with (Q := any).
  { unfold spread_of. destruct (truthy theme);
      [apply StoreFacts.triple_load_theme
      |apply StoreFacts.triple_ret; exact I]. }
  intros t _.
  eapply yields_bind with (Q := any).
  { unfold spread_of. destruct (truthy (Store.theme options));
      [apply StoreFacts.triple_load_theme
      |apply StoreFacts.triple_ret; exact I]. }
  intros t' _.
  eapply yields_bind; [apply StoreFacts.triple_alloc|].
  intros mergedTheme _.
  eapply yields_bind with (Q := any).
  { destruct (maps options) as [ms|] eqn:E;
      [|apply StoreFacts.triple_ret; exact I].
    apply StoreFacts.triple_for_each. intros key _.
    apply StoreFacts.triple_expand_map; [|exact Hs].
    intros key' m Hm. exact (Hmaps ms key' m eq_refl Hm). }
  intros _ _.
  eapply yields_bind; [apply StoreFacts.triple_keys_of|]. intros props _.
  apply (yields_output n
           (fun output =>
              for_each props
                (fun propName =>
                   bind (get_prop styleObject propName)
                     (fun x =>
                        mutableCompileSxProperty fuel mergedTheme
                          (or_empty (selectors options)) (control options)
                          output propName x)))).
  intros b Hb. apply StoreFacts.triple_for_each. intros propName _.
  eapply StoreFacts.triple_bind; [apply StoreFacts.triple_get_prop_any|].
  intros x _. apply StoreFacts.triple_compile_property. cbn. lia.
Qed.

Lemma yields_compileSx n fuel options :
  maps_pure (maps options) ->
  yields_closed n (compileSx fuel options).
Proof.
  intros Hmaps. unfold compileSx.
  eapply yields_bind with (Q := any).
  - destruct (truthy (theme options));
      [apply StoreFacts.triple_ret; exact I|].
    eapply StoreFacts.triple_weaken; [apply StoreFacts.triple_alloc|].
    intros; exact I.
  - intros theme _. apply yields_themedCSS. exact Hmaps.
Qed.

Lemma yields_createUseSx n registry fuel context props :
  maps_pure (maps props) ->
  yields_closed n (createUseSx registry fuel context props).
Proof.
  intros Hmaps. unfold createUseSx.
  eapply yields_bind; [apply StoreFacts.triple_ensureTruthyArray|].
  intros sx' _. apply yields_compileSx. exact Hmaps.
Qed.

End ShapeFacts.



(** X19: the output shares nothing with what was there before it: when a
    call of the hook returns, with map functions that change no existing
    object, the result is an object created by the call, and no object of
    the store from that object on -- the output and its sub-levels --
    refers to an object that existed before it: not to an object of the
    caller, not to the merged specification. *)
Theorem output_not_shared registry fuel context props h h' out :
  StoreSpec.maps_pure (Store.maps props) ->
  Store.createUseSx registry fuel context props h = (h', Store.Done out) ->
  exists b,
    out = Store.HRef b /\ length h <= b /\ StoreSpec.closed_above b h'.
Proof.
  intros Hmaps E.
  apply (ShapeFacts.yields_createUseSx (length h) registry fuel context props
           Hmaps h h' out (le_n _) E).
Qed.

Lemma output_not_shared_witness :
  exists b,
    Store.HRef 9 = Store.HRef b /\ 4 <= b /\
    StoreSpec.closed_above b
      (fst (Store.useSx 3 StoreSpec.test_context StoreSpec.test_props
              StoreSpec.test_heap)).
Proof.
  apply (output_not_shared (Some defaultSelectors) 3 StoreSpec.test_context
           StoreSpec.test_props StoreSpec.test_heap
           (fst (Store.useSx 3 StoreSpec.test_context StoreSpec.test_props
                   StoreSpec.test_heap))
           (Store.HRef 9)).
  - exact test_maps_pure.
  - reflexivity.
Defined.
